(** * mini-motorDeIA: the retrieval pipeline of [src/app/api/answer/route.ts]

    A shallow embedding of the answer endpoint: the chunker
    ([loadAndChunkFiles]), the embedder with its fallback
    ([generateEmbeddings]), the in-memory cache ([getEmbeddings]), the
    ranking by cosine similarity and the assembly of context and citations
    ([POST]).

    JavaScript strings are sequences of UTF-16 code units ([list N]),
    numbers are IEEE 754 binary64 values (Rocq's primitive [float]),
    the module variable [cachedData], the clock, [Math.random], the file
    system and the two remote services live in an explicit [World] that
    every effectful function threads through. One request runs at a time:
    the interleaving of concurrent requests at their [await]s is not part
    of the model. *)

From Stdlib Require Import ZArith NArith Lia Floats Sorted.
From stdpp Require Import base list strings pretty.

(** ** JavaScript strings *)

Module JsString.

(** A string is its sequence of UTF-16 code units. *)
Abbreviation jsstring := (list N).

(** The code units of a literal of the source (all of them ASCII). *)
Definition js (s : String.string) : jsstring :=
  map Ascii.N_of_ascii (String.list_ascii_of_string s).

(** The line feed, ['\n']. *)
Definition LF : N := 10%N.

(** [WhiteSpace] and [LineTerminator] of ECMAScript, the code units that
    [String.prototype.trim] strips. *)
Definition isWhiteSpace (c : N) : bool :=
  ((9 <=? c) && (c <=? 13) || (c =? 32) || (c =? 160) || (c =? 5760)
   || (8192 <=? c) && (c <=? 8202) || (c =? 8232) || (c =? 8233)
   || (c =? 8239) || (c =? 8287) || (c =? 12288) || (c =? 65279))%N.

Fixpoint trimStart (s : jsstring) : jsstring :=
  match s with
  | [] => []
  | c :: s' => if isWhiteSpace c then trimStart s' else s
  end.

Fixpoint trimEnd (s : jsstring) : jsstring :=
  match s with
  | [] => []
  | c :: s' =>
      match trimEnd s' with
      | [] => if isWhiteSpace c then [] else [c]
      | t => c :: t
      end
  end.

(** [s.trim()] *)
Definition trim (s : jsstring) : jsstring := trimEnd (trimStart s).

(** [s.split(sep)] for a separator of one code unit; never empty:
    [''.split('\n')] is [['']]. *)
Fixpoint split (sep : N) (s : jsstring) : list jsstring :=
  match s with
  | [] => [[]]
  | c :: s' =>
      if (c =? sep)%N then [] :: split sep s'
      else match split sep s' with
           | l :: ls => (c :: l) :: ls
           | [] => [[c]]
           end
  end.

(** [parts.join(sep)] *)
Fixpoint join (sep : jsstring) (parts : list jsstring) : jsstring :=
  match parts with
  | [] => []
  | [p] => p
  | p :: ps => p ++ sep ++ join sep ps
  end.

(** [s.substring(0, n)] *)
Definition substring0 (n : nat) (s : jsstring) : jsstring := take n s.

(** [s.endsWith(suffix)] *)
Definition endsWith (s suffix : jsstring) : bool :=
  bool_decide (drop (length s - length suffix) s = suffix).

(** A non-empty string is truthy. *)
Definition truthy (s : jsstring) : bool :=
  match s with [] => false | _ => true end.

End JsString.
Import JsString.

(** ** Types of the route *)

(** [interface TextChunk] *)
Record TextChunk := mkTextChunk {
  text : jsstring;
  source : jsstring;
  embedding : option (list float)
}.

(** [interface CachedEmbeddings] *)
Record CachedEmbeddings := mkCachedEmbeddings {
  chunks : list TextChunk;
  timestamp : Z
}.

(** ** The chunker: the loop over the lines of one file in
    [loadAndChunkFiles] *)

Section Chunker.

(** The bound written in the source. *)
Definition maxChunk : nat := 800.

(** One turn of [for (const line of lines)]: the state is the array
    [chunks] and the accumulator [currentChunk]. *)
Definition chunkLine (file : jsstring)
    (st : list TextChunk * jsstring) (line : jsstring)
    : list TextChunk * jsstring :=
  let '(acc, currentChunk) := st in
  if maxChunk <? length currentChunk + length line then
    ((if truthy (trim currentChunk)
      then acc ++ [mkTextChunk (trim currentChunk) file None]
      else acc),
     line)
  else (acc, currentChunk ++ [LF] ++ line).

(** The push after the loop. *)
Definition flushChunk (file : jsstring)
    (st : list TextChunk * jsstring) : list TextChunk :=
  let '(acc, currentChunk) := st in
  if truthy (trim currentChunk)
  then acc ++ [mkTextChunk (trim currentChunk) file None]
  else acc.

(** The body of [for (const file of files)], on the content read:
    it extends the array [acc] that is shared by all files. *)
Definition chunkFileInto (acc : list TextChunk) (file content : jsstring)
    : list TextChunk :=
  flushChunk file (foldl (chunkLine file) (acc, []) (split LF content)).

(** The chunks of one document. *)
Definition chunkFile (file content : jsstring) : list TextChunk :=
  chunkFileInto [] file content.

End Chunker.

(** The text that counts "modulo line-boundary whitespace": the lines of
    the text, each without its leading and trailing whitespace, put end to
    end (the line breaks go too). Whitespace inside a line stays. *)
Definition normalize (s : jsstring) : jsstring :=
  concat (map trim (split LF s)).

(** ** Numbers: [cosineSimilarity] *)

Section Cosine.
Local Open Scope float_scope.

(** [arr.reduce((acc, val, i) => f(acc, val, i), init)] *)
Fixpoint reduceFrom {A B : Type} (f : B → A → nat → B)
    (i : nat) (arr : list A) (acc : B) : B :=
  match arr with
  | [] => acc
  | val :: arr' => reduceFrom f (S i) arr' (f acc val i)
  end.

Definition reduce {A B : Type} (f : B → A → nat → B)
    (arr : list A) (init : B) : B :=
  reduceFrom f 0 arr init.

(** [b[i]] inside an arithmetic expression: past the end it is
    [undefined], which arithmetic turns into [NaN]. *)
Definition at_index (b : list float) (i : nat) : float :=
  default nan (b !! i).

Definition dotProduct (a b : list float) : float :=
  reduce (λ sum val i, sum + val * at_index b i) a 0.

Definition magnitude (a : list float) : float :=
  sqrt (reduce (λ sum val _, sum + val * val) a 0).

Definition cosineSimilarity (a b : list float) : float :=
  let magnitudeA := magnitude a in
  let magnitudeB := magnitude b in
  dotProduct a b / (magnitudeA * magnitudeB).

(** The values that a division cannot bring back to a score: a zero
    of either sign, or [NaN]. *)
Definition zeroOrNaN (x : float) : bool := is_zero x || is_nan x.

End Cosine.

(** ** Effects: exceptions, the remote services, the file system, the
    clock, [Math.random], the console and the module variable *)

Inductive JsError :=
  | TypeError                      (** a property read on [undefined] *)
  | ServiceError (code : N)        (** a rejected call of the OpenAI client *)
  | FsError (path : jsstring)      (** [readdirSync] or [readFileSync] *)
  | SyntaxError.                   (** [req.json()] on a malformed body *)

Inductive Completion (A : Type) :=
  | Normal (a : A)
  | Throw (e : JsError).
Arguments Normal {A} a.
Arguments Throw {A} e.

(** The response types of the OpenAI client that the route reads. *)
Module OpenAI.
Record Embedding := { embedding : list float }.
Record CreateEmbeddingResponse := { data : list Embedding }.
Record ChatMessage := { role : jsstring; content : jsstring }.
Record ChatRequest := {
  model : jsstring;
  messages : list ChatMessage;
  temperature : float;
  max_tokens : nat
}.
Record Choice := { message_content : option jsstring }.
Record ChatCompletion := { choices : list Choice }.
End OpenAI.

(** What is written to the console: which statement of the source wrote,
    with the values it interpolates. *)
Inductive LogMessage :=
  | LogGenerating (n : nat)
  | LogEmbeddingDone (i n : nat)
  | LogCacheHit
  | LogLoading
  | ErrEmbedding (i : nat) (e : JsError)
  | ErrQuestionEmbedding (e : JsError)
  | ErrAnswer (e : JsError).

Inductive Event :=
  | EvConsole (m : LogMessage)
  | EvReaddir
  | EvReadFile (file : jsstring)
  | EvEmbeddingsCreate (input : jsstring)
  | EvChatCreate (req : OpenAI.ChatRequest)
  | EvDateNow
  | EvMathRandom.

(** What the outside answers: the n-th reading of the clock, the n-th
    draw of [Math.random], the n-th call of each service, the directory
    [data] and its files. *)
Record Env := {
  clock : nat → Z;
  random : nat → float;
  embeddingService : nat → jsstring → Completion OpenAI.CreateEmbeddingResponse;
  chatService : nat → OpenAI.ChatRequest → Completion OpenAI.ChatCompletion;
  readdir : Completion (list jsstring);
  readFile : jsstring → Completion jsstring
}.

Record World := {
  env : Env;
  cachedData : option CachedEmbeddings;  (** [let cachedData] of the module *)
  clockReads : nat;
  randomDraws : nat;
  embeddingCalls : nat;
  chatCalls : nat;
  trace : list Event                     (** oldest first *)
}.

(** A computation may read and change the world, and ends normally or by
    throwing. *)
Definition M (A : Type) : Type := World → Completion A * World.

#[export] Instance M_ret : MRet M := λ A a w, (Normal a, w).
#[export] Instance M_bind : MBind M := λ A B f m w,
  match m w with
  | (Normal a, w') => f a w'
  | (Throw e, w') => (Throw e, w')
  end.

Definition throw {A : Type} (e : JsError) : M A := λ w, (Throw e, w).

(** [try { body } catch (error) { handler }] *)
Definition tryCatch {A : Type} (body : M A) (handler : JsError → M A) : M A :=
  λ w, match body w with
       | (Normal a, w') => (Normal a, w')
       | (Throw e, w') => handler e w'
       end.

Definition emit (ev : Event) (w : World) : World :=
  {| env := env w; cachedData := cachedData w; clockReads := clockReads w;
     randomDraws := randomDraws w; embeddingCalls := embeddingCalls w;
     chatCalls := chatCalls w; trace := trace w ++ [ev] |}.

Definition console (m : LogMessage) : M () :=
  λ w, (Normal (), emit (EvConsole m) w).

Definition Date_now : M Z := λ w,
  (Normal (clock (env w) (clockReads w)),
   emit EvDateNow
     {| env := env w; cachedData := cachedData w;
        clockReads := S (clockReads w); randomDraws := randomDraws w;
        embeddingCalls := embeddingCalls w; chatCalls := chatCalls w;
        trace := trace w |}).

Definition Math_random : M float := λ w,
  (Normal (random (env w) (randomDraws w)),
   emit EvMathRandom
     {| env := env w; cachedData := cachedData w;
        clockReads := clockReads w; randomDraws := S (randomDraws w);
        embeddingCalls := embeddingCalls w; chatCalls := chatCalls w;
        trace := trace w |}).

(** [await client.embeddings.create({ model: 'nomic-embed-text', input })] *)
Definition embeddings_create (input : jsstring)
    : M OpenAI.CreateEmbeddingResponse := λ w,
  (embeddingService (env w) (embeddingCalls w) input,
   emit (EvEmbeddingsCreate input)
     {| env := env w; cachedData := cachedData w;
        clockReads := clockReads w; randomDraws := randomDraws w;
        embeddingCalls := S (embeddingCalls w); chatCalls := chatCalls w;
        trace := trace w |}).

(** [await client.chat.completions.create(req)] *)
Definition chat_completions_create (req : OpenAI.ChatRequest)
    : M OpenAI.ChatCompletion := λ w,
  (chatService (env w) (chatCalls w) req,
   emit (EvChatCreate req)
     {| env := env w; cachedData := cachedData w;
        clockReads := clockReads w; randomDraws := randomDraws w;
        embeddingCalls := embeddingCalls w; chatCalls := S (chatCalls w);
        trace := trace w |}).

Definition fs_readdirSync : M (list jsstring) := λ w,
  (readdir (env w), emit EvReaddir w).

Definition fs_readFileSync (file : jsstring) : M jsstring := λ w,
  (readFile (env w) file, emit (EvReadFile file) w).

Definition read_cachedData : M (option CachedEmbeddings) := λ w,
  (Normal (cachedData w), w).

Definition write_cachedData (c : CachedEmbeddings) : M () := λ w,
  (Normal (),
   {| env := env w; cachedData := Some c; clockReads := clockReads w;
      randomDraws := randomDraws w; embeddingCalls := embeddingCalls w;
      chatCalls := chatCalls w; trace := trace w |}).

(** [for (const x of xs) { acc = body(acc, x) }] *)
Fixpoint forOf {A B : Type} (body : B → A → M B) (xs : list A) (acc : B) : M B :=
  match xs with
  | [] => mret acc
  | x :: xs' => acc' ← body acc x; forOf body xs' acc'
  end.

(** ** [loadAndChunkFiles] *)

Definition isKnowledgeFile (f : jsstring) : bool :=
  endsWith f (js ".txt") || endsWith f (js ".md").

Definition loadAndChunkFiles : M (list TextChunk) :=
  names ← fs_readdirSync;
  let files := List.filter isKnowledgeFile names in
  forOf (λ acc file,
           content ← fs_readFileSync file;
           mret (chunkFileInto acc file content))
        files [].

(** ** [generateEmbeddings] *)

(** The length of the dummy vector. *)
Definition fallbackLength : nat := 768.

(** [Array(768).fill(0).map(() => Math.random())] *)
Definition fallbackEmbedding : M (list float) :=
  mapM (λ _ : float, Math_random) (replicate fallbackLength 0%float).

(** [chunks[i].embedding = v] *)
Definition setEmbedding (i : nat) (v : list float) (arr : list TextChunk)
    : M (list TextChunk) :=
  match arr !! i with
  | Some c => mret (<[i := mkTextChunk (text c) (source c) (Some v)]> arr)
  | None => throw TypeError
  end.

(** [response.data[0].embedding] *)
Definition firstEmbedding (response : OpenAI.CreateEmbeddingResponse)
    : M (list float) :=
  match OpenAI.data response with
  | e :: _ => mret (OpenAI.embedding e)
  | [] => throw TypeError
  end.

(** The body of the loop of [generateEmbeddings] at index [i]. *)
Definition embedChunk (arr : list TextChunk) (i : nat) : M (list TextChunk) :=
  tryCatch
    (input ← match arr !! i with
             | Some c => mret (text c)
             | None => throw TypeError
             end;
     response ← embeddings_create input;
     v ← firstEmbedding response;
     arr' ← setEmbedding i v arr;
     _ ← console (LogEmbeddingDone (i + 1) (length arr'));
     mret arr')
    (λ error,
       _ ← console (ErrEmbedding i error);
       v ← fallbackEmbedding;
       setEmbedding i v arr).

(** [for (let i = 0; i < chunks.length; i++)]: no turn changes the length
    of the array, so the indices are those below the length at entry. *)
Definition generateEmbeddings (arr : list TextChunk) : M (list TextChunk) :=
  _ ← console (LogGenerating (length arr));
  forOf embedChunk (seq 0 (length arr)) arr.

(** ** [getEmbeddings] *)

(** The freshness window, in milliseconds. *)
Definition freshness : Z := 3600000.

(** The path of [getEmbeddings] past the test of the snapshot. The source
    updates the array of chunks in place and stores that same array in
    [cachedData]; nothing writes to it afterwards ([POST] copies every chunk
    it scores), so the model keeps one value per state. *)
Definition rebuild : M (list TextChunk) :=
  _ ← console LogLoading;
  loaded ← loadAndChunkFiles;
  chunksWithEmbeddings ← generateEmbeddings loaded;
  now ← Date_now;
  _ ← write_cachedData (mkCachedEmbeddings chunksWithEmbeddings now);
  mret chunksWithEmbeddings.

Definition getEmbeddings : M (list TextChunk) :=
  cached ← read_cachedData;
  match cached with
  | None => rebuild
  | Some c =>
      now ← Date_now;
      if (now - timestamp c <? freshness)%Z
      then _ ← console LogCacheHit; mret (chunks c)
      else rebuild
  end.

(** ** The ranking of [POST] *)

(** [{ ...chunk, score }] *)
Record ScoredChunk := mkScoredChunk {
  chunk : TextChunk;
  score : float
}.

(** The callback of [chunks.map]: [chunk.embedding!] is not checked, and
    [cosineSimilarity] reads [b.reduce] of what it finds. *)
Definition scoreChunk (questionEmbedding : list float) (c : TextChunk)
    : M ScoredChunk :=
  match embedding c with
  | Some e => mret (mkScoredChunk c (cosineSimilarity questionEmbedding e))
  | None => throw TypeError
  end.

(** [(a, b) => b.score - a.score] *)
Definition byScoreDescending (a b : ScoredChunk) : float :=
  (score b - score a)%float.

(** [Array.prototype.sort(comparefn)]. ECMAScript fixes the result for a
    consistent comparator: the stable sorted permutation. The model is the
    stable insertion sort: an element moves behind [y] only when
    [comparefn(x, y) > 0]; a result [NaN] counts as [+0], as in
    [SortCompare]. For a comparator that is not consistent on the elements
    (here: as soon as a score is [NaN]) ECMAScript leaves the order to the
    engine: the order of the model is then one of those permitted, not
    that of every engine, and what is stated of such inputs uses of the
    sort only that it returns a permutation. *)
Fixpoint insertSorted {A : Type} (comparefn : A → A → float)
    (x : A) (sorted : list A) : list A :=
  match sorted with
  | [] => [x]
  | y :: rest =>
      if (0 <? comparefn x y)%float
      then y :: insertSorted comparefn x rest
      else x :: sorted
  end.

Definition Array_sort {A : Type} (comparefn : A → A → float)
    (arr : list A) : list A :=
  foldr (insertSorted comparefn) [] arr.

(** The number of chunks kept. *)
Definition topK : nat := 3.

(** [chunks.map(...).sort(...).slice(0, 3)] *)
Definition rank (questionEmbedding : list float) (arr : list TextChunk)
    : M (list ScoredChunk) :=
  scored ← mapM (scoreChunk questionEmbedding) arr;
  mret (take topK (Array_sort byScoreDescending scored)).

(** ** Citations and sources *)

Record Citation := mkCitation {
  citation_source : jsstring;
  citation_text : jsstring;
  relevance : float
}.

(** The length of the excerpt. *)
Definition previewLength : nat := 200.

(** ['...'] *)
Definition ellipsis : jsstring := js "...".

Definition citation (c : ScoredChunk) : Citation :=
  mkCitation (source (chunk c))
             (substring0 previewLength (text (chunk c)) ++ ellipsis)
             (score c).

Definition citations (scored : list ScoredChunk) : list Citation :=
  map citation scored.

(** [[...new Set(xs)]]: the distinct values, in the order of their first
    occurrence. *)
Definition distinct (xs : list jsstring) : list jsstring :=
  foldl (λ seen x, if bool_decide (x ∈ seen) then seen else seen ++ [x]) [] xs.

(** ** The handler *)

(** The values a field of the request body may hold; [JsOther] is any
    array or object. *)
Inductive JsValue :=
  | JsUndefined
  | JsNull
  | JsBoolean (b : bool)
  | JsNumber (x : float)
  | JsString (s : jsstring)
  | JsOther.

(** The parsed body: an object with its fields, or another value. *)
Inductive JsBody :=
  | BodyObject (fields : list (jsstring * JsValue))
  | BodyValue (v : JsValue).

(** [const { question } = body] *)
Definition destructureQuestion (parsed : JsBody) : M JsValue :=
  match parsed with
  | BodyValue (JsUndefined | JsNull) => throw TypeError
  | BodyValue _ => mret JsUndefined
  | BodyObject fields =>
      mret (default JsUndefined
              (snd <$> List.find (λ kv, bool_decide (fst kv = js "question")) fields))
  end.

(** [!question || typeof question !== 'string'] is false exactly on a
    non-empty string. *)
Definition validQuestion (question : JsValue) : option jsstring :=
  match question with
  | JsString s => if truthy s then Some s else None
  | _ => None
  end.

Inductive ResponseBody :=
  | AnswerBody (answer : option jsstring) (cites : list Citation)
               (sources : list jsstring)
  | ErrorBody (error : jsstring) (details : option JsError).

Record NextResponse := mkResponse {
  body : ResponseBody;
  status : nat
}.

(** ['Se requiere una pregunta válida'] *)
Definition msgInvalid : jsstring :=
  js "Se requiere una pregunta v" ++ [225%N] ++ js "lida".

Definition msgFailed : jsstring := js "Error procesando la pregunta".

Definition embeddingModel : jsstring := js "nomic-embed-text".
Definition chatModel : jsstring := js "llama-3.3-70b-versatile".

(** The embedding of the question, with the same fallback as a chunk. *)
Definition embedQuestion (question : jsstring) : M (list float) :=
  tryCatch
    (response ← embeddings_create question;
     firstEmbedding response)
    (λ error,
       _ ← console (ErrQuestionEmbedding error);
       fallbackEmbedding).

(** [completion.choices[0].message.content] *)
Definition firstAnswer (completion : OpenAI.ChatCompletion)
    : M (option jsstring) :=
  match OpenAI.choices completion with
  | c :: _ => mret (OpenAI.message_content c)
  | [] => throw TypeError
  end.

(** The two copies of the handler differ in the context they build and in
    the request they send; the rest is this. [req] is the outcome of
    [await req.json()]. *)
Definition handle
    (context : list ScoredChunk → jsstring)
    (request : jsstring → jsstring → OpenAI.ChatRequest)
    (req : Completion JsBody) : M NextResponse :=
  tryCatch
    (parsed ← (λ w, (req, w)) : M JsBody;
     question ← destructureQuestion parsed;
     match validQuestion question with
     | None => mret (mkResponse (ErrorBody msgInvalid None) 400)
     | Some question =>
         arr ← getEmbeddings;
         questionEmbedding ← embedQuestion question;
         scoredChunks ← rank questionEmbedding arr;
         completion ← chat_completions_create
                        (request (context scoredChunks) question);
         answer ← firstAnswer completion;
         mret (mkResponse
                 (AnswerBody answer (citations scoredChunks)
                    (distinct (map (λ c, source (chunk c)) scoredChunks)))
                 200)
     end)
    (λ error,
       _ ← console (ErrAnswer error);
       mret (mkResponse (ErrorBody msgFailed (Some error)) 500)).

Definition systemRole : jsstring := js "system".
Definition userRole : jsstring := js "user".

(** The first copy of the file (lines 1-199): every chunk is labelled with
    its source. *)
Module Labelled.

(** [`[Fuente ${i + 1}: ${chunk.source}]\n${chunk.text}`] *)
Definition labelled (i : nat) (c : ScoredChunk) : jsstring :=
  js "[Fuente " ++ js (pretty (i + 1)) ++ js ": " ++ source (chunk c)
     ++ js "]" ++ [LF] ++ text (chunk c).

Definition separator : jsstring := [LF; LF] ++ js "---" ++ [LF; LF].

Definition context (scoredChunks : list ScoredChunk) : jsstring :=
  join separator (imap labelled scoredChunks).

Definition systemPrompt : jsstring :=
  js "Eres un asistente " ++ [250%N] ++ js "til que responde preguntas bas"
     ++ [225%N] ++ js "ndose " ++ [250%N]
     ++ js "nicamente en el contexto proporcionado. " ++ [LF]
     ++ js "Debes incluir citas espec" ++ [237%N]
     ++ js "ficas del texto entre comillas cuando sea relevante. " ++ [LF]
     ++ js "Si la informaci" ++ [243%N]
     ++ js "n no est" ++ [225%N]
     ++ js " en el contexto, di que no tienes esa informaci" ++ [243%N]
     ++ js "n.".

Definition userPrompt (context question : jsstring) : jsstring :=
  js "Contexto:" ++ [LF] ++ context ++ [LF; LF] ++ js "Pregunta: "
     ++ question ++ [LF; LF] ++ js "Responde bas" ++ [225%N]
     ++ js "ndote solo en el contexto anterior e incluye citas textuales relevantes.".

Definition request (context question : jsstring) : OpenAI.ChatRequest :=
  {| OpenAI.model := chatModel;
     OpenAI.messages :=
       [ {| OpenAI.role := systemRole; OpenAI.content := systemPrompt |};
         {| OpenAI.role := userRole;
            OpenAI.content := userPrompt context question |} ];
     OpenAI.temperature := 0x1.3333333333333p-2%float;
     OpenAI.max_tokens := 500 |}.

Definition POST : Completion JsBody → M NextResponse :=
  handle context request.

End Labelled.

(** The second copy of the file (lines 199-397): the context is the bare
    text of the chunks. *)
Module Natural.

Definition separator : jsstring := [LF; LF].

Definition context (scoredChunks : list ScoredChunk) : jsstring :=
  join separator (map (λ c, text (chunk c)) scoredChunks).

Definition systemPrompt : jsstring :=
  js "Eres un asistente experto y amigable. Responde las preguntas de "
    ++ js "forma natural y conversacional, como si estuvieras hablando con "
    ++ js "un amigo." ++ [LF; LF]
    ++ js "Usa la informaci" ++ [243%N]
    ++ js "n que se te proporciona para dar respuestas precisas y "
    ++ [250%N] ++ js "tiles. No menciones que est" ++ [225%N]
    ++ js "s consultando archivos o documentos - simplemente responde con "
    ++ js "confianza bas" ++ [225%N] ++ js "ndote en lo que sabes."
    ++ [LF; LF]
    ++ js "Si incluyes informaci" ++ [243%N] ++ js "n espec" ++ [237%N]
    ++ js "fica como precios, caracter" ++ [237%N]
    ++ js "sticas o detalles t" ++ [233%N]
    ++ js "cnicos, hazlo de forma fluida dentro de tu respuesta."
    ++ [LF; LF]
    ++ js "Si no tienes informaci" ++ [243%N]
    ++ js "n suficiente para responder, dilo de forma amable y sugiere c"
    ++ [243%N] ++ js "mo podr" ++ [237%N] ++ js "as ayudar de otra manera.".

Definition userPrompt (context question : jsstring) : jsstring :=
  js "Informaci" ++ [243%N] ++ js "n disponible:" ++ [LF] ++ context
     ++ [LF; LF] ++ js "Pregunta del usuario: " ++ question ++ [LF; LF]
     ++ js "Responde de forma natural y conversacional.".

Definition request (context question : jsstring) : OpenAI.ChatRequest :=
  {| OpenAI.model := chatModel;
     OpenAI.messages :=
       [ {| OpenAI.role := systemRole; OpenAI.content := systemPrompt |};
         {| OpenAI.role := userRole;
            OpenAI.content := userPrompt context question |} ];
     OpenAI.temperature := 0x1.6666666666666p-1%float;
     OpenAI.max_tokens := 500 |}.

Definition POST : Completion JsBody → M NextResponse :=
  handle context request.

End Natural.

(** ** The page: [handleSubmit] of [src/app/page.tsx] *)

Module Page.

(** A number as JSON carries it: [NextResponse.json] writes [NaN] and
    the infinities as [null], and a zero of either sign as [0]. *)
Definition jsonNumber (x : float) : option float :=
  if is_nan x || is_infinity x then None
  else if is_zero x then Some 0%float
  else Some x.

(** [interface Citation] of the page. *)
Record Citation := {
  source : jsstring;
  text : jsstring;
  relevance : option float
}.

(** What [await res.json()] gives: the answer ([interface ApiResponse])
    or the object of an error response. *)
Inductive Data :=
  | AnswerData (answer : option jsstring) (citations : list Citation)
               (sources : list jsstring)
  | ErrorData (error : jsstring) (details : option JsError).

Definition fromCitation c : Citation :=
  let '(mkCitation s t r) := c in
  {| source := s; text := t; relevance := jsonNumber r |}.

Definition json (b : ResponseBody) : Data :=
  match b with
  | AnswerBody answer cites sources =>
      AnswerData answer (map fromCitation cites) sources
  | ErrorBody error details => ErrorData error details
  end.

(** What the [catch] of the page gets. *)
Inductive Caught :=
  | NotOk                    (** [new Error('Error al obtener respuesta')] *)
  | Rejected (e : JsError).  (** what [fetch] rejected with *)

(** The four [useState] cells of [Home], and what [console.error]
    wrote in the browser. *)
Record State := mkState {
  question : jsstring;
  response : option Data;
  loading : bool;
  error : jsstring;
  consoleErrors : list Caught
}.

Definition setResponse (r : option Data) (s : State) : State :=
  mkState (question s) r (loading s) (error s) (consoleErrors s).

Definition setLoading (b : bool) (s : State) : State :=
  mkState (question s) (response s) b (error s) (consoleErrors s).

Definition setError (e : jsstring) (s : State) : State :=
  mkState (question s) (response s) (loading s) e (consoleErrors s).

Definition console_error (c : Caught) (s : State) : State :=
  mkState (question s) (response s) (loading s) (error s)
          (consoleErrors s ++ [c]).

(** ['Por favor escribe una pregunta'] *)
Definition msgEmpty : jsstring := js "Por favor escribe una pregunta".

(** ['Ocurrió un error. Por favor intenta de nuevo.'] *)
Definition msgRetry : jsstring :=
  js "Ocurri" ++ [243%N] ++ js " un error. Por favor intenta de nuevo.".

(** [res.ok]: the status is in the range 200-299. *)
Definition ok (res : NextResponse) : bool :=
  (200 <=? status res) && (status res <=? 299).

(** [JSON.stringify({ question })], as [req.json()] reads it. *)
Definition requestBody (question : jsstring) : JsBody :=
  BodyObject [(js "question", JsString question)].

(** The body of [catch (err)]. *)
Definition caught (err : Caught) (s : State) : State :=
  console_error err (setError msgRetry s).

(** [handleSubmit]. [fetch] is the request to [/api/answer] with the
    body given; it ends normally with the response or throws when the
    request is rejected. The [throw] inside the [try] goes to the
    [catch] of the same statement. *)
Definition handleSubmit (fetch : JsBody → M NextResponse) (s : State)
    : M State :=
  if negb (truthy (trim (question s))) then mret (setError msgEmpty s)
  else
    let s := setResponse None (setError [] (setLoading true s)) in
    s ← tryCatch
          (res ← fetch (requestBody (question s));
           if negb (ok res) then mret (caught NotOk s)
           else mret (setResponse (Some (json (body res))) s))
          (λ err, mret (caught (Rejected err) s));
    mret (setLoading false s).

(** [fetch] against the route: what [POST] gets from [req.json()] is
    the body sent. *)
Definition fetchFrom (POST : Completion JsBody → M NextResponse)
    (b : JsBody) : M NextResponse :=
  POST (Normal b).

End Page.

(** ** Notions the statements use *)

(** The world after [n] draws of [Math.random]. *)
Definition afterDraws (n : nat) (w : World) : World :=
  {| env := env w; cachedData := cachedData w; clockReads := clockReads w;
     randomDraws := n + randomDraws w; embeddingCalls := embeddingCalls w;
     chatCalls := chatCalls w;
     trace := trace w ++ replicate n EvMathRandom |}.

(** The vector the embedding service gives at its [n]-th call, when the
    call succeeds and the response holds one. *)
Definition serviceVector (e : Env) (n : nat) (input : jsstring)
    : option (list float) :=
  match embeddingService e n input with
  | Normal r =>
      match OpenAI.data r with
      | x :: _ => Some (OpenAI.embedding x)
      | [] => None
      end
  | Throw _ => None
  end.

(** The next [fallbackLength] draws of [Math.random]. *)
Definition nextDraws (w : World) : list float :=
  map (random (env w)) (seq (randomDraws w) fallbackLength).

(** The inputs sent to the embedding service, oldest first. *)
Definition embeddingRequests (events : list Event) : list jsstring :=
  omap (λ ev, match ev with EvEmbeddingsCreate input => Some input | _ => None end)
       events.

(** The events that reach the file system or a remote service. *)
Definition isIO (ev : Event) : bool :=
  match ev with
  | EvReaddir | EvReadFile _ | EvEmbeddingsCreate _ | EvChatCreate _ => true
  | _ => false
  end.

(** A chunk has its embedding. *)
Definition embedded (c : TextChunk) : Prop := is_Some (embedding c).

(** The worlds the module can be in: [cachedData] starts as [null]; the
    handlers change it only through [getEmbeddings]; between two calls
    anything else may change. *)
Inductive reachable : World → Prop :=
  | reachable_start w : cachedData w = None → reachable w
  | reachable_getEmbeddings w : reachable w → reachable (getEmbeddings w).2
  | reachable_Labelled_POST req w :
      reachable w → reachable (Labelled.POST req w).2
  | reachable_Natural_POST req w :
      reachable w → reachable (Natural.POST req w).2
  | reachable_outside w w' :
      reachable w → cachedData w' = cachedData w → reachable w'.

(** Descending order of scores, and the chunks that tie at a score. *)
Definition ranksNoLower (a b : ScoredChunk) : Prop :=
  (score b <=? score a)%float = true.

Definition tiesAt (v : float) (s : ScoredChunk) : bool :=
  (score s =? v)%float.

(** A chunk is within the bound plus one separator, or it is one line. *)
Definition withinBound (t : jsstring) : Prop :=
  length t ≤ maxChunk + 1 ∨ LF ∉ t.

(** What the loop of the chunker keeps about the lines read so far: the
    chunks closed and the accumulator hold their text, and every chunk is
    trimmed. *)
Definition holds (acc : list TextChunk) (cur : jsstring)
    (normalized : jsstring) : Prop :=
  concat (map (λ c, normalize (text c)) acc) ++ normalize cur = normalized
  ∧ Forall (λ c, trimStart (text c) = text c ∧ trimEnd (text c) = text c) acc.

(** A step keeps what the outside answers, the module variable and the
    readings of the clock, and only adds to the trace. *)
Definition keeps (w w' : World) : Prop :=
  env w' = env w ∧ cachedData w' = cachedData w
  ∧ clockReads w' = clockReads w
  ∧ ∃ events, trace w' = trace w ++ events.

(** What chunk [c], embedded at the call [n] of the service, becomes. *)
Definition embeddedBy (e : Env) (n : nat) (c c' : TextChunk) : Prop :=
  ∃ v, c' = mkTextChunk (text c) (source c) (Some v)
       ∧ match serviceVector e n (text c) with
         | Some u => v = u
         | None => length v = fallbackLength
         end.

(** [getEmbeddings] answered from the snapshot [c]: the module variable
    is as before, and the trace grew by the reading of the clock and the
    message of the console only. *)
Definition servedFromCache (w : World) (c : CachedEmbeddings) : Prop :=
  ∃ w',
    getEmbeddings w = (Normal (chunks c), w')
    ∧ cachedData w' = Some c
    ∧ env w' = env w
    ∧ trace w' = trace w ++ [EvDateNow; EvConsole LogCacheHit].

(** Every chunk of the snapshot, if there is one, has its embedding. *)
Definition cacheEmbedded (w : World) : Prop :=
  ∀ c, cachedData w = Some c → Forall embedded (chunks c).

(** The chunks with their scores, in corpus order: what [chunks.map]
    builds when every chunk has its embedding. *)
Definition scoreList (questionEmbedding : list float) (arr : list TextChunk)
    : list ScoredChunk :=
  map (λ c, mkScoredChunk c
              (cosineSimilarity questionEmbedding (default [] (embedding c))))
      arr.

(** The score is a number. *)
Definition isNumber (s : ScoredChunk) : Prop := is_nan (score s) = false.

(** A computation keeps the snapshot embedded. *)
Definition keepsEmbedded {A : Type} (m : M A) : Prop :=
  ∀ w, cacheEmbedded w → cacheEmbedded (m w).2.

(** ** Worlds and inputs of the examples *)

Section Samples.
Local Open Scope float_scope.

(** A response of the embedding service that holds the vector [v]. *)
Definition vectorResponse (v : list float)
    : Completion OpenAI.CreateEmbeddingResponse :=
  Normal {| OpenAI.data := [ {| OpenAI.embedding := v |} ] |}.

(** A completion with one choice. *)
Definition answerResponse (answer : jsstring)
    : Completion OpenAI.ChatCompletion :=
  Normal {| OpenAI.choices := [ {| OpenAI.message_content := Some answer |} ] |}.

(** The directory holds one file, [precio.txt], with the text of
    scenario A; the clock advances one second per reading; the n-th draw
    of [Math.random] is [n / 1024]; both services answer. *)
Definition sampleEnv : Env :=
  {| clock := λ n, (1000 * Z.of_nat n)%Z;
     random := λ n, of_uint63 (Uint63.of_Z (Z.of_nat n)) / 1024;
     embeddingService := λ _ _, vectorResponse [1; 0];
     chatService := λ _ _, answerResponse (js "$999");
     readdir := Normal [js "precio.txt"];
     readFile := λ _, Normal (js "Price: $999") |}.

(** The same, with an embedding service that rejects every call. *)
Definition failingEnv : Env :=
  {| clock := clock sampleEnv;
     random := random sampleEnv;
     embeddingService := λ _ _, Throw (ServiceError 503);
     chatService := chatService sampleEnv;
     readdir := readdir sampleEnv;
     readFile := readFile sampleEnv |}.

(** The module as loaded: no snapshot, nothing done yet. *)
Definition startWorld (e : Env) : World :=
  {| env := e; cachedData := None; clockReads := 0; randomDraws := 0;
     embeddingCalls := 0; chatCalls := 0; trace := [] |}.

Definition sampleQuestion : jsstring := js "What is the price?".

Definition sampleBody : JsBody :=
  BodyObject [(js "question", JsString sampleQuestion)].

(** The chunk of [precio.txt], embedded. *)
Definition sampleChunk : TextChunk :=
  mkTextChunk (js "Price: $999") (js "precio.txt") (Some [1; 0]).

(** Three embedded chunks: the second has the zero vector. *)
Definition degenerateChunks : list TextChunk :=
  [ mkTextChunk (js "uno") (js "a.txt") (Some [1; 1]);
    mkTextChunk (js "dos") (js "a.txt") (Some [0; 0]);
    mkTextChunk (js "tres") (js "b.txt") (Some [1; 0]) ].

(** Four embedded chunks with four different scores against [1; 0]. *)
Definition fourChunks : list TextChunk :=
  [ mkTextChunk (js "uno") (js "a.txt") (Some [1; 1]);
    mkTextChunk (js "dos") (js "a.txt") (Some [1; 0]);
    mkTextChunk (js "tres") (js "b.txt") (Some [0; 1]);
    mkTextChunk (js "cuatro") (js "b.txt") (Some [2; 0.5]) ].

(** A document of three lines of 500, 400 and 400 characters. *)
Definition threeLines : jsstring :=
  replicate 500 120%N ++ [LF] ++ replicate 400 97%N ++ [LF]
    ++ replicate 400 98%N.

End Samples.

(** ** Notions of the further properties *)

(** The text of a chunk made of the lines [g]. *)
Definition groupText (g : list jsstring) : jsstring := trim (join [LF] g).

(** The chunks of a file whose lines are grouped as [groups]: one for
    every group that is not blank. *)
Definition chunksOfGroups (file : jsstring) (groups : list (list jsstring))
    : list TextChunk :=
  map (λ t, mkTextChunk t file None)
      (List.filter truthy (map groupText groups)).

(** A group the chunker may close: one line, or several lines that with
    their separators stay within the bound plus one. *)
Definition closable (g : list jsstring) : Prop :=
  g ≠ [] ∧ (length g = 1 ∨ length (join [LF] g) ≤ maxChunk + 1).

(** What the loop of the chunker keeps, in terms of whole lines: the
    chunks closed are those of the groups [closed], and the accumulator is
    the join of the open group [g], behind a line feed when it started
    from the empty accumulator. *)
Definition grouped (file : jsstring) (acc : list TextChunk) (cur : jsstring)
    (closed : list (list jsstring)) (g : list jsstring) : Prop :=
  acc = chunksOfGroups file closed
  ∧ Forall closable closed
  ∧ ((g = [] ∧ cur = [])
     ∨ (g ≠ []
        ∧ (cur = join [LF] g ∨ cur = LF :: join [LF] g)
        ∧ (length g = 1 ∨ length cur ≤ maxChunk + 1))).

(** The world [w] after the events [events], nothing else changed. *)
Definition logged (events : list Event) (w : World) : World :=
  {| env := env w; cachedData := cachedData w; clockReads := clockReads w;
     randomDraws := randomDraws w; embeddingCalls := embeddingCalls w;
     chatCalls := chatCalls w; trace := trace w ++ events |}.

(** The question holds nothing but whitespace. *)
Definition blank (s : jsstring) : Prop :=
  Forall (λ c, isWhiteSpace c = true) s.

(** The file [file] can be read and holds [content]. *)
Definition holdsContent (e : Env) (file content : jsstring) : Prop :=
  readFile e file = Normal content.

(** Of a list of events, those that reach the file system or a remote
    service, in order. *)
Definition ioEvents (events : list Event) : list Event :=
  List.filter isIO events.

(** [getEmbeddings] rebuilds, [reading] being the number of the reading
    of the clock that stamps the snapshot. When the directory is listed
    and its text and Markdown files are read, the chunks returned are
    those of these files, in the order of the directory, each embedded by
    one call of the service at its turn; they replace the snapshot; and
    the directory was listed once, each file read once and each chunk
    sent once to the embedding service, in that order. When the listing
    or a file fails, the call throws that error and the snapshot stays. *)
Definition rebuilds (w : World) (reading : nat) : Prop :=
  match readdir (env w) with
  | Normal names =>
      let files := List.filter isKnowledgeFile names in
      (∀ contents,
         Forall2 (holdsContent (env w)) files contents →
         let loaded := concat (zip_with chunkFile files contents) in
         ∃ cs w' events,
           getEmbeddings w = (Normal cs, w')
           ∧ length cs = length loaded
           ∧ (∀ j c, loaded !! j = Some c →
                ∃ c', cs !! j = Some c'
                      ∧ embeddedBy (env w) (embeddingCalls w + j) c c')
           ∧ cachedData w'
             = Some (mkCachedEmbeddings cs (clock (env w) reading))
           ∧ clockReads w' = S reading
           ∧ trace w' = trace w ++ events
           ∧ ioEvents events
             = EvReaddir :: map EvReadFile files
                 ++ map EvEmbeddingsCreate (map text loaded))
      ∧ (∀ pre file post contents e,
           files = pre ++ file :: post →
           Forall2 (holdsContent (env w)) pre contents →
           readFile (env w) file = Throw e →
           ∃ w', getEmbeddings w = (Throw e, w')
                 ∧ cachedData w' = cachedData w)
  | Throw e =>
      ∃ w', getEmbeddings w = (Throw e, w') ∧ cachedData w' = cachedData w
  end.

(** A computation leaves what the outside answers and the count of the
    calls of the generation service as they are. *)
Definition keepsCalls {A : Type} (m : M A) : Prop :=
  ∀ w, env (m w).2 = env w ∧ chatCalls (m w).2 = chatCalls w.

(** ** Further sample inputs *)

Section MoreSamples.

(** A document whose second line has 801 characters. *)
Definition longDocument : jsstring :=
  js "intro" ++ [LF] ++ replicate 801 120%N ++ [LF] ++ js "fin".

(** A directory of four entries, one of them no knowledge file; the
    file [b.md] cannot be read. *)
Definition brokenEnv : Env :=
  {| clock := clock sampleEnv;
     random := random sampleEnv;
     embeddingService := embeddingService sampleEnv;
     chatService := chatService sampleEnv;
     readdir := Normal [js "a.txt"; js "notes.pdf"; js "b.md"; js "c.txt"];
     readFile := λ file,
       if bool_decide (file = js "b.md") then Throw (FsError file)
       else Normal (js "uno") |}.

(** Scenario A with a generation service that rejects every call. *)
Definition silentEnv : Env :=
  {| clock := clock sampleEnv;
     random := random sampleEnv;
     embeddingService := embeddingService sampleEnv;
     chatService := λ _ _, Throw (ServiceError 500);
     readdir := readdir sampleEnv;
     readFile := readFile sampleEnv |}.

(** Scenario A without the directory [data]. *)
Definition emptyEnv : Env :=
  {| clock := clock sampleEnv;
     random := random sampleEnv;
     embeddingService := embeddingService sampleEnv;
     chatService := chatService sampleEnv;
     readdir := Throw (FsError (js "data"));
     readFile := readFile sampleEnv |}.

(** The module with a snapshot taken at time 0, an hour later, and
    no directory [data] any more. *)
Definition staleWorld : World :=
  {| env := emptyEnv;
     cachedData := Some (mkCachedEmbeddings [sampleChunk] 0);
     clockReads := 3600; randomDraws := 0;
     embeddingCalls := 0; chatCalls := 0; trace := [] |}.

(** The same directory, every file readable. *)
Definition mixedEnv : Env :=
  {| clock := clock sampleEnv;
     random := random sampleEnv;
     embeddingService := embeddingService sampleEnv;
     chatService := chatService sampleEnv;
     readdir := readdir brokenEnv;
     readFile := λ file, Normal (js "texto de " ++ file) |}.

End MoreSamples.

(** * Proofs *)

#[local] Arguments trim : simpl never.
#[local] Arguments normalize : simpl never.
#[local] Arguments chunkLine : simpl never.
#[local] Arguments fallbackEmbedding : simpl never.
#[local] Arguments nextDraws : simpl never.
#[local] Arguments fallbackLength : simpl never.
#[local] Arguments afterDraws : simpl never.

(** ** Strings *)

Section StringFacts.
Implicit Types (s t l : jsstring) (c d : N).

Lemma LF_isWhiteSpace : isWhiteSpace LF = true.
Proof. reflexivity. Qed.

Lemma length_trimStart s : length (trimStart s) ≤ length s.
Proof. induction s as [|c s IH]; simpl; [lia|]. destruct (isWhiteSpace c); simpl; lia. Qed.

Lemma length_trimEnd s : length (trimEnd s) ≤ length s.
Proof.
  induction s as [|c s IH]; simpl; [lia|].
  destruct (trimEnd s); [destruct (isWhiteSpace c)|]; simpl in *; lia.
Qed.

Lemma length_trim s : length (trim s) ≤ length s.
Proof.
  unfold trim. pose proof (length_trimEnd (trimStart s)).
  pose proof (length_trimStart s). lia.
Qed.

Lemma trimEnd_snoc s c :
  trimEnd (s ++ [c]) = if isWhiteSpace c then trimEnd s else s ++ [c].
Proof.
  induction s as [|d s IH]; simpl.
  - by destruct (isWhiteSpace c).
  - rewrite IH. destruct (isWhiteSpace c); [done|].
    by destruct s.
Qed.

Lemma trimStart_fixed_head c s :
  isWhiteSpace c = false → trimStart (c :: s) = c :: s.
Proof. simpl. by intros ->. Qed.

Lemma trimEnd_cons_nws c s :
  isWhiteSpace c = false → ∃ t, trimEnd (c :: s) = c :: t.
Proof. simpl. intros ->. destruct (trimEnd s); eauto. Qed.

Lemma trim_comm s : trimStart (trimEnd s) = trimEnd (trimStart s).
Proof.
  induction s as [|c s IH]; [done|].
  destruct (isWhiteSpace c) eqn:Hc.
  - simpl. rewrite Hc, <- IH.
    destruct (trimEnd s) eqn:E; [done|]. simpl. by rewrite Hc.
  - rewrite (trimStart_fixed_head c s Hc).
    destruct (trimEnd_cons_nws c s Hc) as [t ->].
    by apply trimStart_fixed_head.
Qed.

Lemma trimStart_idem s : trimStart (trimStart s) = trimStart s.
Proof.
  induction s as [|c s IH]; [done|]. simpl.
  destruct (isWhiteSpace c) eqn:Hc; [done|]. simpl. by rewrite Hc.
Qed.

Lemma trimEnd_idem s : trimEnd (trimEnd s) = trimEnd s.
Proof.
  induction s as [|c s IH]; [done|]. simpl.
  destruct (trimEnd s) as [|d t] eqn:E.
  - destruct (isWhiteSpace c) eqn:Hc; [done|]. simpl. by rewrite Hc.
  - change (trimEnd (c :: d :: t)) with
      (match trimEnd (d :: t) with
       | [] => if isWhiteSpace c then [] else [c]
       | u => c :: u end).
    by rewrite IH.
Qed.

Lemma trimStart_trim s : trimStart (trim s) = trim s.
Proof. unfold trim. by rewrite trim_comm, trimStart_idem. Qed.

Lemma trimEnd_trim s : trimEnd (trim s) = trim s.
Proof. unfold trim. by rewrite trimEnd_idem. Qed.

Lemma trim_ws_cons c s : isWhiteSpace c = true → trim (c :: s) = trim s.
Proof. unfold trim. simpl. by intros ->. Qed.

Lemma trim_ws_snoc s c : isWhiteSpace c = true → trim (s ++ [c]) = trim s.
Proof.
  intros Hc. unfold trim. rewrite <- !trim_comm, trimEnd_snoc. by rewrite Hc.
Qed.

Lemma trimEnd_fixed_last s :
  trimEnd s = s → s = [] ∨ ∃ t c, s = t ++ [c] ∧ isWhiteSpace c = false.
Proof.
  destruct s as [|d s] using rev_ind; [by left|]. intros E. right.
  rewrite trimEnd_snoc in E. destruct (isWhiteSpace d) eqn:Hd; [|eauto].
  pose proof (length_trimEnd s) as Hl.
  rewrite E, length_app in Hl. simpl in Hl. lia.
Qed.

Lemma trimStart_fixed_first s :
  trimStart s = s → s = [] ∨ ∃ c t, s = c :: t ∧ isWhiteSpace c = false.
Proof.
  destruct s as [|c s]; [by left|]. intros E. right. simpl in E.
  destruct (isWhiteSpace c) eqn:Hc; [|eauto].
  pose proof (length_trimStart s) as Hl.
  rewrite E in Hl. simpl in Hl. lia.
Qed.

Lemma trimStart_app_nws s c t :
  isWhiteSpace c = false →
  trimStart (s ++ c :: t) = trimStart (s ++ [c]) ++ t.
Proof.
  intros Hc. induction s as [|d s IH]; simpl.
  - by rewrite Hc.
  - destruct (isWhiteSpace d); [done|]. simpl. f_equal. by rewrite <- app_assoc.
Qed.

Lemma trimEnd_app_nws s c t :
  isWhiteSpace c = false →
  trimEnd (s ++ c :: t) = s ++ trimEnd (c :: t).
Proof.
  intros Hc. induction s as [|d s IH]; [done|].
  change ((d :: s) ++ c :: t) with (d :: (s ++ c :: t)).
  change (trimEnd (d :: (s ++ c :: t))) with
    (match trimEnd (s ++ c :: t) with
     | [] => if isWhiteSpace d then [] else [d]
     | u => d :: u end).
  rewrite IH. destruct (trimEnd_cons_nws c t Hc) as [u ->].
  by destruct s.
Qed.

(** Two pieces that meet at characters that are not whitespace are
    trimmed apart. *)
Lemma trim_app_tight s c d t :
  isWhiteSpace c = false → isWhiteSpace d = false →
  trim ((s ++ [c]) ++ d :: t) = trim (s ++ [c]) ++ trim (d :: t).
Proof.
  intros Hc Hd. unfold trim at 1.
  rewrite <- app_assoc. simpl ((_ :: _) ++ _); simpl ([] ++ _).
  rewrite (trimStart_app_nws s c (d :: t) Hc).
  rewrite (trimEnd_app_nws _ d t Hd).
  f_equal.
  - unfold trim. rewrite <- trim_comm, trimEnd_snoc. by rewrite Hc.
  - unfold trim. by rewrite (trimStart_fixed_head d t Hd).
Qed.

(** *** [split] *)

Lemma split_nonempty c s : split c s ≠ [].
Proof.
  destruct s as [|d s]; simpl; [done|].
  destruct (d =? c)%N; [done|]. by destruct (split c s).
Qed.

Lemma split_app_sep c s t :
  split c (s ++ c :: t) = split c s ++ split c t.
Proof.
  induction s as [|d s IH]; simpl.
  - by rewrite N.eqb_refl.
  - destruct (d =? c)%N; [by rewrite IH|].
    rewrite IH. destruct (split c s) eqn:E; [|done].
    by destruct (split_nonempty c s).
Qed.

Lemma split_no_sep c s : c ∉ s → split c s = [s].
Proof.
  induction s as [|d s IH]; [done|]. intros Hn.
  apply not_elem_of_cons in Hn as [Hd Hs]. simpl.
  destruct (N.eqb_spec d c); [congruence|]. by rewrite (IH Hs).
Qed.

Lemma split_lines c s l : l ∈ split c s → c ∉ l.
Proof.
  revert l. induction s as [|d s IH]; simpl; intros l Hl.
  - apply list_elem_of_singleton in Hl as ->. apply not_elem_of_nil.
  - destruct (N.eqb_spec d c) as [->|Hd].
    + apply elem_of_cons in Hl as [->|Hl]; [apply not_elem_of_nil|by apply IH].
    + destruct (split c s) as [|l0 ls] eqn:E.
      * by destruct (split_nonempty c s).
      * apply elem_of_cons in Hl as [->|Hl].
        -- apply not_elem_of_cons. split; [done|]. apply IH. by left.
        -- apply IH. by right.
Qed.

(** The lines of [s ++ t]: the last line of [s] and the first line of [t]
    become one. *)
Lemma snoc_cases {A : Type} (xs : list A) :
  xs = [] ∨ ∃ ys y, xs = ys ++ [y].
Proof. destruct xs as [|y ys _] using rev_ind; eauto. Qed.

Lemma split_app c s t ls l h ts :
  split c s = ls ++ [l] → split c t = h :: ts →
  split c (s ++ t) = ls ++ [l ++ h] ++ ts.
Proof.
  intros Hs Ht. revert ls l Hs.
  induction s as [|d s IH]; intros ls l Hs.
  - simpl in Hs. destruct ls as [|? [|? ?]]; simplify_eq/=. done.
  - simpl in Hs. simpl ((d :: s) ++ t). simpl.
    destruct (snoc_cases (split c s)) as [E|(ls0 & l0 & E)];
      [by destruct (split_nonempty c s)|].
    rewrite (IH _ _ E). rewrite E in Hs.
    destruct (d =? c)%N.
    + change ([] :: ls0 ++ [l0]) with (([] :: ls0) ++ [l0]) in Hs.
      apply app_inj_tail in Hs as [<- <-]. done.
    + destruct ls0 as [|x ls0]; simpl in *.
      * change [d :: l0] with ([] ++ [d :: l0]) in Hs.
        apply app_inj_tail in Hs as [<- <-]. done.
      * change ((d :: x) :: ls0 ++ [l0]) with (((d :: x) :: ls0) ++ [l0]) in Hs.
        apply app_inj_tail in Hs as [<- <-]. done.
Qed.

Lemma split_last_snoc c s d ls l :
  split c (s ++ [d]) = ls ++ [l] → d ≠ c → ∃ l0, l = l0 ++ [d].
Proof.
  intros Hs Hd.
  destruct (split c s) as [|x xs] eqn:E using rev_ind;
    [by destruct (split_nonempty c s)|].
  clear IHxs.
  assert (split c [d] = [d] :: []) as Hd'.
  { simpl. by destruct (N.eqb_spec d c). }
  rewrite (split_app c s [d] _ _ _ _ E Hd') in Hs.
  simpl in Hs. apply app_inj_tail in Hs as [_ <-]. eauto.
Qed.

End StringFacts.

(** ** The text modulo line-boundary whitespace *)

Section Normalize.
Implicit Types (s t l : jsstring) (c d : N).

Lemma normalize_nil : normalize [] = [].
Proof. reflexivity. Qed.

Lemma normalize_line l : LF ∉ l → normalize l = trim l.
Proof.
  intros Hl. unfold normalize. rewrite (split_no_sep _ _ Hl). simpl.
  by rewrite app_nil_r.
Qed.

Lemma normalize_app_LF s t :
  normalize (s ++ LF :: t) = normalize s ++ normalize t.
Proof. unfold normalize. by rewrite split_app_sep, map_app, concat_app. Qed.

Lemma normalize_ws_cons c s :
  isWhiteSpace c = true → normalize (c :: s) = normalize s.
Proof.
  intros Hc. unfold normalize. simpl.
  destruct (c =? LF)%N; [done|].
  destruct (split LF s) as [|l ls] eqn:E; [by destruct (split_nonempty LF s)|].
  simpl. by rewrite (trim_ws_cons c l Hc).
Qed.

Lemma normalize_ws_snoc s c :
  isWhiteSpace c = true → normalize (s ++ [c]) = normalize s.
Proof.
  intros Hc. destruct (N.eqb_spec c LF) as [->|Hn].
  - rewrite normalize_app_LF, normalize_nil. by rewrite app_nil_r.
  - unfold normalize.
    destruct (snoc_cases (split LF s)) as [E|(ls & l & E)];
      [by destruct (split_nonempty LF s)|].
    assert (split LF [c] = [c] :: []) as Hc'.
    { simpl. by destruct (N.eqb_spec c LF). }
    rewrite (split_app LF s [c] _ _ _ _ E Hc'), E.
    rewrite !map_app, !concat_app. simpl.
    by rewrite (trim_ws_snoc l c Hc), !app_nil_r.
Qed.

Lemma normalize_trimStart s : normalize (trimStart s) = normalize s.
Proof.
  induction s as [|c s IH]; [done|]. simpl.
  destruct (isWhiteSpace c) eqn:Hc; [|done].
  by rewrite IH, (normalize_ws_cons c s Hc).
Qed.

Lemma normalize_trimEnd s : normalize (trimEnd s) = normalize s.
Proof.
  induction s as [|c s IH] using rev_ind; [done|].
  rewrite trimEnd_snoc. destruct (isWhiteSpace c) eqn:Hc; [|done].
  by rewrite IH, (normalize_ws_snoc s c Hc).
Qed.

Lemma normalize_trim s : normalize (trim s) = normalize s.
Proof. unfold trim. by rewrite normalize_trimEnd, normalize_trimStart. Qed.

Lemma trim_nil_normalize s : trim s = [] → normalize s = [].
Proof. intros E. by rewrite <- normalize_trim, E. Qed.

(** Two texts that meet at characters that are not whitespace are
    normalized apart. *)
Lemma normalize_app s t :
  trimEnd s = s → trimStart t = t →
  normalize (s ++ t) = normalize s ++ normalize t.
Proof.
  intros Hs Ht.
  destruct (trimEnd_fixed_last s Hs) as [->|(s0 & c & -> & Hc)]; [done|].
  destruct (trimStart_fixed_first t Ht) as [->|(d & t0 & -> & Hd)].
  { by rewrite !app_nil_r. }
  assert (c ≠ LF) as HcLF by (intros ->; done).
  assert (d ≠ LF) as HdLF by (intros ->; done).
  unfold normalize.
  destruct (snoc_cases (split LF (s0 ++ [c]))) as [E|(ls & l & E)];
    [by destruct (split_nonempty LF (s0 ++ [c]))|].
  destruct (split_last_snoc LF s0 c ls l E HcLF) as [l0 ->].
  assert (∃ h ts, split LF (d :: t0) = (d :: h) :: ts) as (h & ts & E2).
  { simpl. destruct (N.eqb_spec d LF); [done|].
    destruct (split LF t0); eauto. }
  rewrite (split_app LF _ _ _ _ _ _ E E2), E, E2.
  rewrite !map_app, !concat_app. simpl.
  rewrite (trim_app_tight l0 c d h Hc Hd).
  by rewrite !app_nil_r, <- !app_assoc.
Qed.

Lemma trimStart_concat (ts : list jsstring) :
  Forall (λ t, trimStart t = t) ts → trimStart (concat ts) = concat ts.
Proof.
  induction 1 as [|t ts Ht _ IH]; [done|]. simpl.
  destruct (trimStart_fixed_first t Ht) as [->|(c & t0 & -> & Hc)]; [done|].
  simpl. by rewrite Hc.
Qed.

Lemma normalize_concat (ts : list jsstring) :
  Forall (λ t, trimStart t = t ∧ trimEnd t = t) ts →
  normalize (concat ts) = concat (map normalize ts).
Proof.
  induction 1 as [|t ts [H1 H2] Hts IH]; [done|]. simpl.
  rewrite normalize_app, IH; [done..|].
  apply trimStart_concat. eapply Forall_impl; [exact Hts|]. by intros ? [? _].
Qed.

End Normalize.

(** ** The chunker *)

Section ChunkerFacts.
Implicit Types (file content cur line : jsstring) (acc : list TextChunk).

Lemma truthy_false (s : jsstring) : truthy s = false → s = [].
Proof. by destruct s. Qed.

Lemma holds_push acc cur file n :
  holds acc cur n →
  holds (if truthy (trim cur)
         then acc ++ [mkTextChunk (trim cur) file None] else acc) [] n.
Proof.
  intros [<- Ht]. destruct (truthy (trim cur)) eqn:E; split.
  - rewrite map_app, concat_app. simpl.
    by rewrite normalize_trim, !app_nil_r.
  - apply Forall_app. split; [done|]. constructor; [|done]. simpl.
    split; [apply trimStart_trim|apply trimEnd_trim].
  - rewrite (trim_nil_normalize cur (truthy_false _ E)). done.
  - done.
Qed.

Lemma chunkLine_holds file acc cur line n :
  LF ∉ line → holds acc cur n →
  holds (chunkLine file (acc, cur) line).1 (chunkLine file (acc, cur) line).2
        (n ++ trim line).
Proof.
  intros Hl [Hn Ht]. unfold chunkLine.
  destruct (maxChunk <? length cur + length line).
  - simpl. pose proof (holds_push acc cur file n (conj Hn Ht)) as [Hn' Ht'].
    split; [|done]. rewrite normalize_nil, app_nil_r in Hn'.
    by rewrite Hn', (normalize_line line Hl).
  - simpl. split; [|done].
    change ([LF] ++ line) with (LF :: line).
    by rewrite normalize_app_LF, (normalize_line line Hl), app_assoc, Hn.
Qed.

Lemma foldl_chunkLine_holds file lines acc cur n :
  Forall (λ l, LF ∉ l) lines → holds acc cur n →
  holds (foldl (chunkLine file) (acc, cur) lines).1
        (foldl (chunkLine file) (acc, cur) lines).2
        (n ++ concat (map trim lines)).
Proof.
  intros Hl. revert acc cur n.
  induction Hl as [|line lines Hline _ IH]; intros acc cur n H.
  - simpl. by rewrite app_nil_r.
  - simpl. pose proof (chunkLine_holds file acc cur line n Hline H) as H'.
    destruct (chunkLine file (acc, cur) line) as [acc' cur'].
    rewrite app_assoc. by apply IH.
Qed.

End ChunkerFacts.

(** *** The bound on a chunk *)

Section ChunkBound.
Implicit Types (file content cur line : jsstring) (acc : list TextChunk).

Lemma elem_of_trimStart (x : N) (s : jsstring) : x ∈ trimStart s → x ∈ s.
Proof.
  induction s as [|c s IH]; [done|]. simpl.
  destruct (isWhiteSpace c); [|done]. intros. right. by apply IH.
Qed.

Lemma elem_of_trimEnd (x : N) (s : jsstring) : x ∈ trimEnd s → x ∈ s.
Proof.
  induction s as [|c s IH]; [done|]. simpl.
  destruct (trimEnd s) as [|d t].
  - destruct (isWhiteSpace c); [by intros ?%elem_of_nil|].
    intros ->%list_elem_of_singleton. by left.
  - intros [->|H]%elem_of_cons; [by left|]. right. by apply IH.
Qed.

Lemma elem_of_trim (x : N) (s : jsstring) : x ∈ trim s → x ∈ s.
Proof. intros H. by apply elem_of_trimStart, elem_of_trimEnd. Qed.

Lemma withinBound_trim (s : jsstring) : withinBound s → withinBound (trim s).
Proof.
  intros [H|H]; [left|right].
  - pose proof (length_trim s). lia.
  - intros H'. by apply H, elem_of_trim.
Qed.

Lemma chunkLine_withinBound file acc cur line :
  LF ∉ line → Forall (λ c, withinBound (text c)) acc → withinBound cur →
  Forall (λ c, withinBound (text c)) (chunkLine file (acc, cur) line).1
  ∧ withinBound (chunkLine file (acc, cur) line).2.
Proof.
  intros Hl Hacc Hcur. unfold chunkLine.
  destruct (Nat.ltb_spec maxChunk (length cur + length line)); simpl.
  - split; [|by right]. destruct (truthy (trim cur)); [|done].
    apply Forall_app. split; [done|]. constructor; [|done].
    by apply withinBound_trim.
  - split; [done|]. left. rewrite !length_app. cbn [length]. lia.
Qed.

Lemma chunkFileInto_withinBound file content acc :
  Forall (λ c, withinBound (text c)) acc →
  Forall (λ c, withinBound (text c)) (chunkFileInto acc file content).
Proof.
  intros Hacc. unfold chunkFileInto.
  assert (Forall (λ l, LF ∉ l) (split LF content)) as Hl.
  { apply Forall_forall. intros l. apply split_lines. }
  assert (withinBound []) as Hcur by (left; cbn [length]; lia).
  revert Hacc Hcur. generalize (@nil N) as cur. revert acc.
  induction Hl as [|line lines Hline _ IH]; intros acc cur Hacc Hcur.
  - simpl. destruct (truthy (trim cur)); [|done].
    apply Forall_app. split; [done|]. constructor; [|done].
    by apply withinBound_trim.
  - simpl.
    destruct (chunkLine_withinBound file acc cur line Hline Hacc Hcur) as [H1 H2].
    destruct (chunkLine file (acc, cur) line) as [acc' cur'].
    by apply IH.
Qed.

Lemma chunkFile_withinBound file content c :
  c ∈ chunkFile file content →
  length (text c) ≤ maxChunk + 1 ∨ LF ∉ text c.
Proof.
  intros Hc.
  pose proof (chunkFileInto_withinBound file content [] (Forall_nil_2 _)) as H.
  rewrite Forall_forall in H. by apply H.
Qed.

(** The chunks of a file are added behind those of the files before. *)
Lemma chunkLine_app file pre acc cur line :
  chunkLine file (pre ++ acc, cur) line
  = (pre ++ (chunkLine file (acc, cur) line).1,
     (chunkLine file (acc, cur) line).2).
Proof.
  unfold chunkLine. destruct (maxChunk <? length cur + length line); [|done].
  destruct (truthy (trim cur)); [|done]. cbn. by rewrite app_assoc.
Qed.

Lemma chunkFileInto_app file content pre :
  chunkFileInto pre file content = pre ++ chunkFile file content.
Proof.
  unfold chunkFile, chunkFileInto.
  rewrite <- (app_nil_r pre) at 1.
  generalize (@nil TextChunk) as acc. generalize (@nil N) as cur.
  induction (split LF content) as [|line lines IH]; intros cur acc.
  - cbn. destruct (truthy (trim cur)); [|done]. by rewrite app_assoc.
  - cbn [foldl]. rewrite chunkLine_app.
    destruct (chunkLine file (acc, cur) line) as [acc' cur']. apply IH.
Qed.

End ChunkBound.

(** ** Floating-point facts *)

Section FloatFacts.
Local Open Scope float_scope.
Implicit Types x y : float.

(** The value of a float, as the specification of IEEE 754 sees it. *)
Lemma SFcompare_refl (X : spec_float) :
  X ≠ S754_nan → SFcompare X X = Some Eq.
Proof.
  destruct X as [[]|[]| |[] m e]; simpl; try done;
    rewrite Z.compare_refl, Pos.compare_cont_refl; done.
Qed.

Lemma is_nan_spec x :
  is_nan x = match Prim2SF x with S754_nan => true | _ => false end.
Proof.
  unfold is_nan. rewrite FloatAxioms.eqb_spec. unfold SFeqb.
  destruct (Prim2SF x) as [[]|[]| |s m e] eqn:E; try done.
  by rewrite SFcompare_refl.
Qed.

Lemma is_zero_spec x :
  is_zero x = match Prim2SF x with S754_zero _ => true | _ => false end.
Proof.
  unfold is_zero. rewrite FloatAxioms.eqb_spec.
  change (Prim2SF zero) with (S754_zero false). unfold SFeqb.
  by destruct (Prim2SF x) as [[]|[]| |[] m e].
Qed.

Lemma is_infinity_spec x :
  is_infinity x = match Prim2SF x with S754_infinity _ => true | _ => false end.
Proof.
  unfold is_infinity. rewrite FloatAxioms.eqb_spec, abs_spec.
  change (Prim2SF infinity) with (S754_infinity false). unfold SFeqb.
  by destruct (Prim2SF x) as [[]|[]| |[] m e].
Qed.

Lemma zeroOrNaN_spec x :
  zeroOrNaN x = match Prim2SF x with
                | S754_zero _ | S754_nan => true
                | _ => false
                end.
Proof.
  unfold zeroOrNaN. rewrite is_zero_spec, is_nan_spec.
  by destruct (Prim2SF x).
Qed.

Lemma zeroOrNaN_mul_l x y : zeroOrNaN x = true → zeroOrNaN (x * y) = true.
Proof.
  rewrite !zeroOrNaN_spec, mul_spec.
  by destruct (Prim2SF x), (Prim2SF y).
Qed.

Lemma zeroOrNaN_mul_r x y : zeroOrNaN y = true → zeroOrNaN (x * y) = true.
Proof.
  rewrite !zeroOrNaN_spec, mul_spec.
  by destruct (Prim2SF x), (Prim2SF y).
Qed.

Lemma zeroOrNaN_add x y :
  zeroOrNaN x = true → zeroOrNaN y = true → zeroOrNaN (x + y) = true.
Proof.
  rewrite !zeroOrNaN_spec, add_spec.
  by destruct (Prim2SF x) as [[]|[]| |[] ? ?], (Prim2SF y) as [[]|[]| |[] ? ?].
Qed.

Lemma zeroOrNaN_sqrt x : zeroOrNaN x = true → zeroOrNaN (sqrt x) = true.
Proof.
  rewrite !zeroOrNaN_spec, sqrt_spec.
  by destruct (Prim2SF x) as [[]|[]| |[] ? ?].
Qed.

Lemma div_zeroOrNaN x y :
  zeroOrNaN x = true → zeroOrNaN y = true → is_nan (x / y) = true.
Proof.
  rewrite !zeroOrNaN_spec, is_nan_spec, div_spec.
  by destruct (Prim2SF x) as [[]|[]| |[] ? ?], (Prim2SF y) as [[]|[]| |[] ? ?].
Qed.

Lemma div_by_zeroOrNaN x y :
  zeroOrNaN y = true →
  is_nan (x / y) = true ∨ is_infinity (x / y) = true.
Proof.
  rewrite !zeroOrNaN_spec, is_nan_spec, is_infinity_spec, div_spec.
  destruct (Prim2SF x) as [[]|[]| |[] ? ?], (Prim2SF y) as [[]|[]| |[] ? ?];
    simpl; intros ?; try done; auto.
Qed.

Lemma is_zero_zeroOrNaN x : is_zero x = true → zeroOrNaN x = true.
Proof. unfold zeroOrNaN. by intros ->. Qed.

Lemma zeroOrNaN_zero : zeroOrNaN 0 = true.
Proof. reflexivity. Qed.

Lemma zeroOrNaN_nan : zeroOrNaN nan = true.
Proof. reflexivity. Qed.

End FloatFacts.

(** ** [cosineSimilarity] *)

Section CosineFacts.
Local Open Scope float_scope.
Implicit Types a b : list float.

Lemma reduceFrom_zeroOrNaN {A : Type} (f : float → A → nat → float)
    (P : A → Prop) (arr : list A) (i : nat) (acc : float) :
  (∀ s v j, zeroOrNaN s = true → P v → zeroOrNaN (f s v j) = true) →
  Forall P arr → zeroOrNaN acc = true →
  zeroOrNaN (reduceFrom f i arr acc) = true.
Proof.
  intros Hf Harr. revert i acc.
  induction Harr as [|v arr Hv _ IH]; intros i acc Hacc; simpl; [done|].
  apply IH. by apply Hf.
Qed.

Lemma magnitude_zero_vector a :
  Forall (λ v, is_zero v = true) a → zeroOrNaN (magnitude a) = true.
Proof.
  intros Ha. unfold magnitude, reduce. apply zeroOrNaN_sqrt.
  apply (reduceFrom_zeroOrNaN _ (λ v, is_zero v = true)); [|done..].
  intros s v _ Hs Hv. apply zeroOrNaN_add; [done|].
  by apply zeroOrNaN_mul_l, is_zero_zeroOrNaN.
Qed.

Lemma dotProduct_zero_l a b :
  Forall (λ v, is_zero v = true) a → zeroOrNaN (dotProduct a b) = true.
Proof.
  intros Ha. unfold dotProduct, reduce.
  apply (reduceFrom_zeroOrNaN _ (λ v, is_zero v = true)); [|done..].
  intros s v j Hs Hv. apply zeroOrNaN_add; [done|].
  by apply zeroOrNaN_mul_l, is_zero_zeroOrNaN.
Qed.

Lemma at_index_zero b i :
  Forall (λ v, is_zero v = true) b → zeroOrNaN (at_index b i) = true.
Proof.
  intros Hb. unfold at_index. destruct (b !! i) as [v|] eqn:E; simpl.
  - apply is_zero_zeroOrNaN. rewrite Forall_forall in Hb.
    apply Hb. by eapply list_elem_of_lookup_2.
  - reflexivity.
Qed.

Lemma dotProduct_zero_r a b :
  Forall (λ v, is_zero v = true) b → zeroOrNaN (dotProduct a b) = true.
Proof.
  intros Hb. unfold dotProduct, reduce.
  apply (reduceFrom_zeroOrNaN _ (λ _, True)); [|by apply Forall_true|done].
  intros s v j Hs _. apply zeroOrNaN_add; [done|].
  by apply zeroOrNaN_mul_r, at_index_zero.
Qed.

(** A vector of zeros, on either side, gives [NaN]. *)
Lemma cosineSimilarity_zero_vector a b :
  Forall (λ v, is_zero v = true) a ∨ Forall (λ v, is_zero v = true) b →
  is_nan (cosineSimilarity a b) = true.
Proof.
  intros [H|H]; unfold cosineSimilarity; apply div_zeroOrNaN.
  - by apply dotProduct_zero_l.
  - by apply zeroOrNaN_mul_l, magnitude_zero_vector.
  - by apply dotProduct_zero_r.
  - by apply zeroOrNaN_mul_r, magnitude_zero_vector.
Qed.

End CosineFacts.

(** ** The sign of a difference of two floats *)

Section Rounding.
Local Open Scope Z_scope.

Lemma digits2_pos_bounds (m : positive) :
  2 ^ (Z.pos (digits2_pos m) - 1) ≤ Z.pos m < 2 ^ Z.pos (digits2_pos m).
Proof.
  induction m as [m IH|m IH|]; simpl digits2_pos.
  - rewrite Pos2Z.inj_succ.
    replace (Z.succ (Z.pos (digits2_pos m)) - 1) with (Z.succ (Z.pos (digits2_pos m) - 1)) by lia.
    rewrite !Z.pow_succ_r by lia. lia.
  - rewrite Pos2Z.inj_succ.
    replace (Z.succ (Z.pos (digits2_pos m)) - 1) with (Z.succ (Z.pos (digits2_pos m) - 1)) by lia.
    rewrite !Z.pow_succ_r by lia. lia.
  - simpl. lia.
Qed.

Lemma shr_m_shr_1 (mrs : shr_record) k :
  0 ≤ k → 2 ^ (k + 1) ≤ shr_m mrs → 2 ^ k ≤ shr_m (shr_1 mrs).
Proof.
  intros Hk. rewrite Z.pow_add_r by lia. change (2 ^ 1) with 2.
  pose proof (Z.pow_pos_nonneg 2 k) as Hp.
  destruct mrs as [[|[m|m|]|m] r s]; simpl; lia.
Qed.

Lemma shr_m_iter_pos (p : positive) : ∀ (mrs : shr_record) k,
  0 ≤ k → 2 ^ (k + Z.pos p) ≤ shr_m mrs →
  2 ^ k ≤ shr_m (SpecFloat.iter_pos shr_1 p mrs).
Proof.
  induction p as [p IH|p IH|]; intros mrs k Hk H; simpl.
  - apply IH; [done|]. apply IH; [lia|]. apply shr_m_shr_1; [lia|].
    replace (k + Z.pos p + Z.pos p + 1) with (k + Z.pos p~1) by lia. done.
  - apply IH; [done|]. apply IH; [lia|].
    replace (k + Z.pos p + Z.pos p) with (k + Z.pos p~0) by lia. done.
  - by apply shr_m_shr_1.
Qed.

Lemma shr_m_shr_record_of_loc m l : shr_m (shr_record_of_loc m l) = m.
Proof. by destruct l as [|[]]. Qed.

Local Abbreviation fexp := (SpecFloat.fexp prec emax).

(** Rounding a positive mantissa at an exponent that is not below the
    least one leaves it positive. *)
Lemma shr_fexp_pos (m : positive) e l :
  emin ≤ e →
  0 < shr_m (shr_fexp prec emax (Z.pos m) e l).1
  ∧ emin ≤ (shr_fexp prec emax (Z.pos m) e l).2.
Proof.
  intros He. unfold shr_fexp, shr.
  pose proof (digits2_pos_bounds m) as [Hlo _].
  unfold Zdigits2.
  destruct (fexp (Z.pos (digits2_pos m) + e) - e) as [|p|p] eqn:En; simpl;
    rewrite ?shr_m_shr_record_of_loc; try (split; lia).
  unfold SpecFloat.fexp, SpecFloat.emin, prec, emax in *.
  split; [|lia].
  assert (2 ^ 0 ≤ shr_m (SpecFloat.iter_pos shr_1 p (shr_record_of_loc (Z.pos m) l))); [|simpl in *; lia].
  apply shr_m_iter_pos; [done|]. rewrite shr_m_shr_record_of_loc.
  etrans; [|exact Hlo]. apply Z.pow_le_mono_r; lia.
Qed.

Lemma round_nearest_even_pos m l : 0 < m → 0 < round_nearest_even m l.
Proof. intros. destruct l as [|[]]; simpl; try lia. destruct (Z.even m); lia. Qed.

Lemma binary_round_aux_sign s (m : positive) e l :
  emin ≤ e →
  match binary_round_aux prec emax s (Z.pos m) e l with
  | S754_finite s' _ _ | S754_infinity s' => s' = s
  | _ => False
  end.
Proof.
  intros He. unfold binary_round_aux.
  pose proof (shr_fexp_pos m e l He) as [H1 H2].
  destruct (shr_fexp prec emax (Z.pos m) e l) as [mrs' e'].
  simpl in H1, H2.
  pose proof (round_nearest_even_pos _ (loc_of_shr_record mrs') H1) as H3.
  destruct (round_nearest_even (shr_m mrs') (loc_of_shr_record mrs')) as [|m1|m1];
    try lia.
  pose proof (shr_fexp_pos m1 e' loc_Exact H2) as [H4 _].
  destruct (shr_fexp prec emax (Z.pos m1) e' loc_Exact) as [mrs'' e''].
  simpl in H4. destruct (shr_m mrs''); try lia.
  by destruct (e'' <=? emax - prec).
Qed.

Lemma binary_round_sign s (m : positive) e :
  emin ≤ e →
  match binary_round prec emax s m e with
  | S754_finite s' _ _ | S754_infinity s' => s' = s
  | _ => False
  end.
Proof.
  intros He. unfold binary_round.
  destruct (shl_align m e (fexp (Z.pos (digits2_pos m) + e))) as [mz ez] eqn:E.
  apply binary_round_aux_sign.
  unfold shl_align in E.
  destruct (fexp (Z.pos (digits2_pos m) + e) - e) eqn:E2; simplify_eq; try done.
  unfold SpecFloat.fexp, SpecFloat.emin, prec, emax in *. lia.
Qed.

(** The sign of [binary_normalize] is the sign of the integer. *)
Lemma binary_normalize_positive d e :
  emin ≤ e →
  SFltb (S754_zero false) (binary_normalize prec emax d e false) = (0 <? d).
Proof.
  intros He. unfold binary_normalize. destruct d as [|m|m]; [done|..].
  - pose proof (binary_round_sign false m e He) as H.
    by destruct (binary_round prec emax false m e) as [|[]| |[] ? ?].
  - pose proof (binary_round_sign true m e He) as H.
    by destruct (binary_round prec emax true m e) as [|[]| |[] ? ?].
Qed.

End Rounding.

Section Difference.
Local Open Scope Z_scope.

Lemma shl_align_value (m : positive) e e' :
  e' ≤ e → Z.pos (shl_align m e e').1 = Z.pos m * 2 ^ (e - e').
Proof.
  intros He. unfold shl_align.
  destruct (e' - e) as [|d|d] eqn:E; simpl; try lia.
  - replace (e - e') with 0 by lia. lia.
  - change (Pos.iter xO m d) with (shift_pos d m).
    rewrite shift_pos_correct, Z.pow_pos_fold.
    replace (e - e') with (Z.pos d) by lia. lia.
Qed.

Lemma bounded_canonical (m : positive) e :
  SpecFloat.bounded prec emax m e = true →
  emin ≤ e ∧ Z.pos (digits2_pos m) ≤ prec
  ∧ (emin < e → Z.pos (digits2_pos m) = prec).
Proof.
  unfold SpecFloat.bounded, canonical_mantissa, fexp, SpecFloat.emin, prec, emax.
  intros [H _]%andb_prop. apply Z.eqb_eq in H. lia.
Qed.

(** Of two valid positive floats, the one with the larger exponent is the
    larger. *)
Lemma canonical_exponent_lt (m1 m2 : positive) e1 e2 :
  SpecFloat.bounded prec emax m1 e1 = true →
  SpecFloat.bounded prec emax m2 e2 = true →
  e1 < e2 → Z.pos m1 < Z.pos m2 * 2 ^ (e2 - e1).
Proof.
  intros (He1 & Hd1 & _)%bounded_canonical (He2 & _ & Hd2)%bounded_canonical Hlt.
  pose proof (digits2_pos_bounds m1) as [_ Hu].
  pose proof (digits2_pos_bounds m2) as [Hl _].
  rewrite Hd2 in Hl by lia.
  assert (Z.pos m1 < 2 ^ prec) as Hu'.
  { eapply Z.lt_le_trans; [exact Hu|]. apply Z.pow_le_mono_r; lia. }
  assert (2 ^ 1 ≤ 2 ^ (e2 - e1)) as Hk by (apply Z.pow_le_mono_r; lia).
  change (2 ^ 1) with 2 in Hk.
  change (2 ^ prec) with (2 * 2 ^ (prec - 1)) in Hu'.
  nia.
Qed.

Lemma SFsub_finite_positive sx mx ex sy my ey :
  SpecFloat.bounded prec emax mx ex = true →
  SpecFloat.bounded prec emax my ey = true →
  SFltb (S754_zero false)
    (SFsub prec emax (S754_finite sy my ey) (S754_finite sx mx ex))
  = SFltb (S754_finite sx mx ex) (S754_finite sy my ey).
Proof.
  intros Hx Hy.
  pose proof (bounded_canonical _ _ Hx) as (Hex & _ & _).
  pose proof (bounded_canonical _ _ Hy) as (Hey & _ & _).
  unfold SFsub. rewrite binary_normalize_positive by lia.
  rewrite !shl_align_value by lia.
  unfold SFltb, SFcompare.
  pose proof (Pos2Z.is_pos mx). pose proof (Pos2Z.is_pos my).
  assert (0 < 2 ^ (ex - ey `min` ex)) by (apply Z.pow_pos_nonneg; lia).
  assert (0 < 2 ^ (ey - ey `min` ex)) by (apply Z.pow_pos_nonneg; lia).
  destruct (Z.compare_spec ex ey) as [->|Hlt|Hgt].
  - rewrite Z.min_id, Z.sub_diag, !Z.mul_1_r.
    change (Pos.compare_cont Eq mx my) with (Pos.compare mx my).
    destruct sx, sy; simpl cond_Zopp;
      destruct (Pos.compare_spec mx my); simpl; lia.
  - pose proof (canonical_exponent_lt _ _ _ _ Hx Hy Hlt).
    rewrite (Z.min_r ey ex), Z.sub_diag, Z.mul_1_r by lia.
    destruct sx, sy; simpl; nia.
  - pose proof (canonical_exponent_lt _ _ _ _ Hy Hx Hgt).
    rewrite (Z.min_l ey ex), Z.sub_diag, Z.mul_1_r by lia.
    destruct sx, sy; simpl; nia.
Qed.

Lemma SFsub_positive (X Y : spec_float) :
  valid_binary X = true → valid_binary Y = true →
  X ≠ S754_nan → Y ≠ S754_nan →
  SFltb (S754_zero false) (SF64sub Y X) = SFltb X Y.
Proof.
  intros HX HY HnX HnY. unfold SF64sub.
  destruct X as [sx|sx| |sx mx ex], Y as [sy|sy| |sy my ey]; try done;
    try (by destruct sx, sy); try (by destruct sx); try (by destruct sy).
  by apply SFsub_finite_positive.
Qed.

End Difference.

Section FloatOrder.
Local Open Scope float_scope.
Implicit Types x y z : float.

Lemma Prim2SF_not_nan x : is_nan x = false → Prim2SF x ≠ S754_nan.
Proof. rewrite is_nan_spec. by destruct (Prim2SF x). Qed.

(** For scores that are numbers, the comparator [b.score - a.score] is
    positive exactly when [a.score < b.score]. *)
Lemma sub_positive x y :
  is_nan x = false → is_nan y = false → (0 <? y - x) = (x <? y).
Proof.
  intros Hx Hy. rewrite !ltb_spec, sub_spec.
  change (Prim2SF 0) with (S754_zero false).
  apply SFsub_positive; auto using Prim2SF_valid, Prim2SF_not_nan.
Qed.

End FloatOrder.

Section SpecOrder.

Ltac compare_cases :=
  repeat match goal with
    | |- context [Pos.compare_cont Eq ?a ?b] =>
        change (Pos.compare_cont Eq a b) with (Pos.compare a b)
    | |- context [Z.compare ?a ?b] => destruct (Z.compare_spec a b)
    | |- context [Pos.compare ?a ?b] => destruct (Pos.compare_spec a b)
    end;
  simpl; try done; try lia.

Lemma SFltb_SFleb X Y : SFltb X Y = true → SFleb X Y = true.
Proof. unfold SFltb, SFleb. by destruct (SFcompare X Y) as [[]|]. Qed.

Lemma SFcompare_opp X Y :
  SFcompare Y X = CompOpp <$> SFcompare X Y.
Proof.
  destruct X as [[]|[]| |[] m1 e1], Y as [[]|[]| |[] m2 e2]; simpl; try done;
    rewrite (Z.compare_antisym e1 e2);
    change (Pos.compare_cont Eq m2 m1) with (Pos.compare m2 m1);
    change (Pos.compare_cont Eq m1 m2) with (Pos.compare m1 m2);
    rewrite (Pos.compare_antisym m1 m2);
    destruct (e1 ?= e2)%Z; simpl; try done;
    by destruct (m1 ?= m2)%positive.
Qed.

Lemma SFleb_total X Y :
  X ≠ S754_nan → Y ≠ S754_nan → SFltb X Y = false → SFleb Y X = true.
Proof.
  intros HX HY. unfold SFltb, SFleb. rewrite (SFcompare_opp X Y).
  destruct X as [[]|[]| |[] m1 e1], Y as [[]|[]| |[] m2 e2]; simpl; try done;
    by destruct (match (e1 ?= e2)%Z with Lt => _ | _ => _ end).
Qed.

Lemma SFleb_trans X Y Z :
  SFleb X Y = true → SFleb Y Z = true → SFleb X Z = true.
Proof.
  unfold SFleb.
  destruct X as [[]|[]| |[] m1 e1], Y as [[]|[]| |[] m2 e2],
           Z as [[]|[]| |[] m3 e3]; simpl; try done; compare_cases.
Qed.

Lemma SFeqb_SFltb X Y V :
  SFeqb X V = true → SFeqb Y V = true → SFltb X Y = false.
Proof.
  unfold SFeqb, SFltb.
  destruct X as [[]|[]| |[] m1 e1], Y as [[]|[]| |[] m2 e2],
           V as [[]|[]| |[] m3 e3]; simpl; try done; compare_cases.
Qed.

End SpecOrder.

Section FloatOrder2.
Local Open Scope float_scope.
Implicit Types x y z v : float.

Lemma ltb_leb x y : (x <? y) = true → (x <=? y) = true.
Proof. rewrite ltb_spec, leb_spec. apply SFltb_SFleb. Qed.

Lemma leb_total x y :
  is_nan x = false → is_nan y = false → (x <? y) = false → (y <=? x) = true.
Proof.
  intros Hx Hy. rewrite ltb_spec, leb_spec.
  apply SFleb_total; by apply Prim2SF_not_nan.
Qed.

Lemma leb_trans x y z :
  (x <=? y) = true → (y <=? z) = true → (x <=? z) = true.
Proof. rewrite !leb_spec. apply SFleb_trans. Qed.

Lemma eqb_ltb x y v :
  (x =? v) = true → (y =? v) = true → (x <? y) = false.
Proof. rewrite !FloatAxioms.eqb_spec, ltb_spec. apply SFeqb_SFltb. Qed.

End FloatOrder2.

(** ** Running a computation *)

Section Running.

Lemma run_bind {A B : Type} (m : M A) (f : A → M B) (w : World) :
  (m ≫= f) w = match m w with
               | (Normal a, w') => f a w'
               | (Throw e, w') => (Throw e, w')
               end.
Proof. reflexivity. Qed.

Lemma run_ret {A : Type} (a : A) (w : World) : (mret a : M A) w = (Normal a, w).
Proof. reflexivity. Qed.

Lemma run_tryCatch {A : Type} (body : M A) (handler : JsError → M A) w :
  tryCatch body handler w = match body w with
                            | (Normal a, w') => (Normal a, w')
                            | (Throw e, w') => handler e w'
                            end.
Proof. reflexivity. Qed.

Lemma run_console (m : LogMessage) (w : World) :
  console m w = (Normal (), emit (EvConsole m) w).
Proof. reflexivity. Qed.

Lemma keeps_refl w : keeps w w.
Proof. repeat split. exists []. by rewrite app_nil_r. Qed.

Lemma keeps_trans w1 w2 w3 : keeps w1 w2 → keeps w2 w3 → keeps w1 w3.
Proof.
  intros (? & ? & ? & ev1 & Ht1) (? & ? & ? & ev2 & Ht2).
  repeat split; try congruence.
  exists (ev1 ++ ev2). by rewrite Ht2, Ht1, app_assoc.
Qed.

Lemma keeps_emit ev w : keeps w (emit ev w).
Proof. repeat split. by exists [ev]. Qed.

Lemma keeps_afterDraws n w : keeps w (afterDraws n w).
Proof. repeat split. by eexists. Qed.

Lemma keeps_embeddingCalls w n :
  keeps w {| env := env w; cachedData := cachedData w;
             clockReads := clockReads w; randomDraws := randomDraws w;
             embeddingCalls := n; chatCalls := chatCalls w;
             trace := trace w |}.
Proof. repeat split. exists []. cbn. by rewrite app_nil_r. Qed.

Lemma keeps_chatCalls w n :
  keeps w {| env := env w; cachedData := cachedData w;
             clockReads := clockReads w; randomDraws := randomDraws w;
             embeddingCalls := embeddingCalls w; chatCalls := n;
             trace := trace w |}.
Proof. repeat split. exists []. cbn. by rewrite app_nil_r. Qed.

End Running.

(** Closes a goal [keeps w w'] where [w'] is [w] after some of the
    primitive steps. *)
Ltac keeps_steps :=
  repeat first
    [ apply keeps_refl
    | eapply keeps_trans; [|apply keeps_emit]
    | eapply keeps_trans; [|apply keeps_afterDraws]
    | apply keeps_embeddingCalls
    | apply keeps_chatCalls ].

(** ** The fallback vector *)

Section Fallback.

Lemma afterDraws_S n w : afterDraws n (afterDraws 1 w) = afterDraws (S n) w.
Proof.
  unfold afterDraws. simpl. f_equal; [lia|]. by rewrite <- app_assoc.
Qed.

Lemma mapM_random (l : list float) (w : World) :
  mapM (λ _ : float, Math_random) l w
  = (Normal (map (random (env w)) (seq (randomDraws w) (length l))),
     afterDraws (length l) w).
Proof.
  revert w. induction l as [|x l IH]; intros w.
  - simpl. unfold afterDraws. simpl. rewrite app_nil_r. by destruct w.
  - cbn [mapM]. rewrite run_bind.
    change (Math_random w)
      with (Normal (random (env w) (randomDraws w)), afterDraws 1 w).
    cbn iota beta. rewrite run_bind, IH. cbn iota beta.
    rewrite run_ret, afterDraws_S. done.
Qed.

Lemma run_fallbackEmbedding (w : World) :
  fallbackEmbedding w = (Normal (nextDraws w), afterDraws fallbackLength w).
Proof.
  unfold fallbackEmbedding. rewrite mapM_random.
  by rewrite length_replicate.
Qed.

Lemma length_nextDraws w : length (nextDraws w) = fallbackLength.
Proof. unfold nextDraws. by rewrite length_map, length_seq. Qed.

End Fallback.

(** ** [generateEmbeddings] *)

Section Generate.
Implicit Types (arr : list TextChunk) (c : TextChunk) (w : World).

Lemma embeddingRequests_app (t1 t2 : list Event) :
  embeddingRequests (t1 ++ t2) = embeddingRequests t1 ++ embeddingRequests t2.
Proof. unfold embeddingRequests. apply omap_app. Qed.

Lemma embeddingRequests_draws n :
  embeddingRequests (replicate n EvMathRandom) = [].
Proof. induction n; [done|]. simpl. done. Qed.

Lemma run_setEmbedding i v arr c w :
  arr !! i = Some c →
  setEmbedding i v arr w
  = (Normal (<[i := mkTextChunk (text c) (source c) (Some v)]> arr), w).
Proof. intros H. unfold setEmbedding. by rewrite H. Qed.

(** One turn of the loop: it ends normally whatever the service does, and
    the chunk gets the vector of the service or, failing that, the next
    draws of [Math.random]. *)
Lemma run_embedChunk arr i c w :
  arr !! i = Some c →
  ∃ w',
    embedChunk arr i w
    = (Normal (<[i := mkTextChunk (text c) (source c)
                       (Some (default (nextDraws w)
                                (serviceVector (env w) (embeddingCalls w) (text c))))]>
                 arr), w')
    ∧ keeps w w'
    ∧ embeddingCalls w' = S (embeddingCalls w)
    ∧ embeddingRequests (trace w')
      = embeddingRequests (trace w) ++ [text c].
Proof.
  intros Hc. unfold embedChunk. rewrite run_tryCatch, Hc.
  rewrite run_bind, run_ret. cbn iota beta. rewrite run_bind.
  unfold serviceVector, embeddings_create at 1.
  destruct (embeddingService (env w) (embeddingCalls w) (text c))
    as [[[|x data]]|e] eqn:Es; cbn iota beta.
  - (* a response without data *)
    rewrite run_bind. unfold firstEmbedding at 1. cbn.
    rewrite run_bind, run_console. cbn iota beta.
    rewrite run_bind, run_fallbackEmbedding. cbn iota beta.
    rewrite (run_setEmbedding _ _ _ _ _ Hc).
    eexists. split; [reflexivity|]. split; [keeps_steps|]. split; [done|].
    unfold afterDraws, emit; cbn [trace].
    rewrite !embeddingRequests_app, embeddingRequests_draws.
    cbn. by rewrite !app_nil_r.
  - rewrite run_bind. unfold firstEmbedding at 1. cbn.
    rewrite run_bind, (run_setEmbedding _ _ _ _ _ Hc). cbn iota beta.
    rewrite run_bind, run_console. cbn iota beta. rewrite run_ret.
    eexists. split; [reflexivity|]. split; [keeps_steps|]. split; [done|].
    unfold emit; cbn [trace].
    rewrite !embeddingRequests_app. cbn. by rewrite !app_nil_r.
  - rewrite run_bind, run_console. cbn iota beta.
    rewrite run_bind, run_fallbackEmbedding. cbn iota beta.
    rewrite (run_setEmbedding _ _ _ _ _ Hc).
    eexists. split; [reflexivity|]. split; [keeps_steps|]. split; [done|].
    unfold afterDraws, emit; cbn [trace].
    rewrite !embeddingRequests_app, embeddingRequests_draws.
    cbn. by rewrite !app_nil_r.
Qed.

Lemma forOf_embedChunk n : ∀ i arr w,
  i + n = length arr →
  ∃ out w',
    forOf embedChunk (seq i n) arr w = (Normal out, w')
    ∧ keeps w w'
    ∧ embeddingCalls w' = n + embeddingCalls w
    ∧ length out = length arr
    ∧ (∀ j, j < i → out !! j = arr !! j)
    ∧ (∀ j c, i ≤ j → arr !! j = Some c →
         ∃ c', out !! j = Some c'
               ∧ embeddedBy (env w) (embeddingCalls w + (j - i)) c c')
    ∧ embeddingRequests (trace w')
      = embeddingRequests (trace w) ++ map text (drop i arr).
Proof.
  induction n as [|n IH]; intros i arr w Hn.
  - exists arr, w. cbn [seq forOf]. rewrite run_ret.
    split; [done|]. split; [apply keeps_refl|]. split; [done|].
    split; [done|]. split; [done|]. split.
    + intros j c Hj Hc. apply lookup_lt_Some in Hc. lia.
    + rewrite drop_ge by lia. cbn. by rewrite app_nil_r.
  - destruct (lookup_lt_is_Some_2 arr i ltac:(lia)) as [c Hc].
    destruct (run_embedChunk arr i c w Hc) as (w1 & Hrun & Hk & Hcalls & Hreq).
    set (c1 := mkTextChunk (text c) (source c) _) in Hrun.
    destruct (IH (S i) (<[i := c1]> arr) w1) as
      (out & w' & Hloop & Hk' & Hcalls' & Hlen & Hlow & Hhigh & Hreq').
    { rewrite length_insert. lia. }
    exists out, w'. cbn [seq forOf]. rewrite run_bind, Hrun. cbn iota beta.
    split; [done|]. split; [by eapply keeps_trans|]. split; [lia|].
    split; [by rewrite Hlen, length_insert|].
    destruct Hk as (Henv & _).
    split; [|split].
    + intros j Hj. rewrite Hlow by lia. apply list_lookup_insert_ne. lia.
    + intros j d Hj Hd. destruct (decide (j = i)) as [->|Hne].
      * exists c1. split.
        -- rewrite Hlow by lia. apply list_lookup_insert_eq.
           by eapply lookup_lt_Some.
        -- assert (d = c) as -> by congruence.
           rewrite Nat.sub_diag, Nat.add_0_r. subst c1.
           eexists. split; [reflexivity|].
           destruct (serviceVector _ _ _); cbn; [done|]. apply length_nextDraws.
      * destruct (Hhigh j d) as (c' & Hout & Hby); [lia| |].
        { rewrite list_lookup_insert_ne by lia. done. }
        exists c'. split; [done|].
        rewrite Henv, Hcalls in Hby.
        by replace (embeddingCalls w + (j - i))
          with (S (embeddingCalls w) + (j - S i)) by lia.
    + rewrite Hreq', Hreq, <- app_assoc. f_equal.
      rewrite (drop_S arr c i Hc). cbn. f_equal.
      by rewrite drop_insert_lt by lia.
Qed.

Lemma run_generateEmbeddings arr w :
  ∃ out w',
    generateEmbeddings arr w = (Normal out, w')
    ∧ keeps w w'
    ∧ length out = length arr
    ∧ (∀ j c, arr !! j = Some c →
         ∃ c', out !! j = Some c'
               ∧ embeddedBy (env w) (embeddingCalls w + j) c c')
    ∧ embeddingRequests (trace w')
      = embeddingRequests (trace w) ++ map text arr.
Proof.
  unfold generateEmbeddings. rewrite run_bind, run_console. cbn iota beta.
  destruct (forOf_embedChunk (length arr) 0 arr
              (emit (EvConsole (LogGenerating (length arr))) w) eq_refl)
    as (out & w' & Hloop & Hk & _ & Hlen & _ & Hhigh & Hreq).
  exists out, w'. split; [done|]. split.
  { eapply keeps_trans; [apply keeps_emit|done]. }
  split; [done|]. split.
  - intros j c Hc. destruct (Hhigh j c ltac:(lia) Hc) as (c' & ? & Hby).
    exists c'. split; [done|]. by rewrite Nat.sub_0_r in Hby.
  - rewrite Hreq. unfold emit; cbn [trace].
    rewrite embeddingRequests_app. cbn. by rewrite app_nil_r.
Qed.

Lemma run_embedQuestion question w :
  ∃ w',
    embedQuestion question w
    = (Normal (default (nextDraws w)
                 (serviceVector (env w) (embeddingCalls w) question)), w')
    ∧ keeps w w'.
Proof.
  unfold embedQuestion. rewrite run_tryCatch, run_bind.
  unfold serviceVector, embeddings_create at 1.
  destruct (embeddingService (env w) (embeddingCalls w) question)
    as [[[|x data]]|e] eqn:Es; cbn iota beta.
  - unfold firstEmbedding at 1. cbn.
    rewrite run_bind, run_console. cbn iota beta.
    rewrite run_fallbackEmbedding. eexists. split; [reflexivity|]. keeps_steps.
  - unfold firstEmbedding at 1. cbn. eexists. split; [reflexivity|]. keeps_steps.
  - rewrite run_bind, run_console. cbn iota beta.
    rewrite run_fallbackEmbedding. eexists. split; [reflexivity|]. keeps_steps.
Qed.

End Generate.

(** ** [loadAndChunkFiles] and [getEmbeddings] *)

Section Cache.
Implicit Types (arr : list TextChunk) (c : TextChunk) (w : World).

Lemma forOf_readFiles files : ∀ acc w,
  ∃ r w',
    forOf (λ acc file,
             content ← fs_readFileSync file;
             mret (chunkFileInto acc file content)) files acc w = (r, w')
    ∧ keeps w w'
    ∧ ∀ e, r = Throw e → ∃ file, readFile (env w) file = Throw e.
Proof.
  induction files as [|file files IH]; intros acc w.
  - exists (Normal acc), w. split; [done|]. split; [apply keeps_refl|done].
  - cbn [forOf]. rewrite run_bind, run_bind. unfold fs_readFileSync at 1.
    destruct (readFile (env w) file) as [content|e] eqn:Er; cbn iota beta.
    + rewrite run_ret. cbn iota beta.
      destruct (IH (chunkFileInto acc file content)
                  (emit (EvReadFile file) w)) as (r & w' & -> & Hk & He).
      exists r, w'. split; [done|]. split; [|exact He].
      eapply keeps_trans; [apply keeps_emit|done].
    + eexists _, _. split; [done|]. split; [apply keeps_emit|].
      intros ? [= <-]. eauto.
Qed.

(** Where every file can be read, the chunks are those of the files, one
    file after the other. *)
Lemma forOf_readFiles_Normal files : ∀ contents acc w,
  Forall2 (λ file content, readFile (env w) file = Normal content)
          files contents →
  ∃ w',
    forOf (λ acc file,
             content ← fs_readFileSync file;
             mret (chunkFileInto acc file content)) files acc w
    = (Normal (acc ++ concat (zip_with chunkFile files contents)), w').
Proof.
  induction files as [|file files IH]; intros contents acc w Hall.
  - apply Forall2_nil_inv_l in Hall as ->. exists w. cbn.
    by rewrite app_nil_r.
  - apply Forall2_cons_inv_l in Hall as (content & contents' & Hr & Hall & ->).
    cbn [forOf]. rewrite run_bind, run_bind. unfold fs_readFileSync at 1.
    rewrite Hr. cbn iota beta. rewrite run_ret. cbn iota beta.
    destruct (IH contents' (chunkFileInto acc file content)
                (emit (EvReadFile file) w) Hall) as (w' & ->).
    exists w'. cbn [zip_with concat].
    by rewrite chunkFileInto_app, <- app_assoc.
Qed.

Lemma run_loadAndChunkFiles w :
  ∃ r w' events,
    loadAndChunkFiles w = (r, w')
    ∧ keeps w w'
    ∧ trace w' = trace w ++ EvReaddir :: events
    ∧ ∀ e, r = Throw e →
           readdir (env w) = Throw e
           ∨ ∃ file, readFile (env w) file = Throw e.
Proof.
  unfold loadAndChunkFiles. rewrite run_bind. unfold fs_readdirSync at 1.
  destruct (readdir (env w)) as [names|e]; cbn iota beta.
  - destruct (forOf_readFiles (List.filter isKnowledgeFile names) []
                (emit EvReaddir w)) as (r & w' & -> & Hk & He).
    pose proof Hk as (_ & _ & _ & events & Ht).
    exists r, w', events. split; [done|]. split; [|split].
    + eapply keeps_trans; [apply keeps_emit|done].
    + rewrite Ht. unfold emit; cbn [trace]. by rewrite <- app_assoc.
    + intros e Hr. right. by apply He.
  - exists (Throw e), (emit EvReaddir w), []. split; [done|].
    split; [apply keeps_emit|]. split; [done|].
    intros ? [= <-]. by left.
Qed.

Lemma run_loadAndChunkFiles_Normal w names contents :
  readdir (env w) = Normal names →
  Forall2 (λ file content, readFile (env w) file = Normal content)
          (List.filter isKnowledgeFile names) contents →
  ∃ w',
    loadAndChunkFiles w
    = (Normal (concat (zip_with chunkFile
                         (List.filter isKnowledgeFile names) contents)), w').
Proof.
  intros Hd Hall. unfold loadAndChunkFiles. rewrite run_bind.
  unfold fs_readdirSync at 1. rewrite Hd. cbn iota beta.
  by apply (forOf_readFiles_Normal _ contents [] (emit EvReaddir w)).
Qed.

Lemma generateEmbeddings_embedded arr w out w' :
  generateEmbeddings arr w = (Normal out, w') → Forall embedded out.
Proof.
  intros Hrun.
  destruct (run_generateEmbeddings arr w)
    as (out' & w'' & Hrun' & _ & Hlen & Hall & _).
  rewrite Hrun in Hrun'. simplify_eq.
  apply Forall_lookup. intros j c' Hc'.
  destruct (lookup_lt_is_Some_2 arr j) as [c Hc].
  { rewrite <- Hlen. by eapply lookup_lt_Some. }
  destruct (Hall j c Hc) as (c'' & Hc'' & v & -> & _).
  rewrite Hc' in Hc''. simplify_eq. by eexists.
Qed.

Lemma run_rebuild w :
  ∃ r w' events,
    rebuild w = (r, w')
    ∧ env w' = env w
    ∧ trace w' = trace w ++ events
    ∧ EvReaddir ∈ events
    ∧ match r with
      | Normal cs =>
          cachedData w'
          = Some (mkCachedEmbeddings cs (clock (env w) (clockReads w)))
          ∧ clockReads w' = S (clockReads w)
          ∧ Forall embedded cs
      | Throw e =>
          cachedData w' = cachedData w
          ∧ (readdir (env w) = Throw e
             ∨ ∃ file, readFile (env w) file = Throw e)
      end.
Proof.
  unfold rebuild. rewrite run_bind, run_console. cbn iota beta.
  rewrite run_bind.
  destruct (run_loadAndChunkFiles (emit (EvConsole LogLoading) w))
    as (r & w1 & ev1 & -> & (Henv1 & Hc1 & Hk1 & _) & Ht1 & Hthrow).
  destruct r as [loaded|e]; cbn iota beta.
  - rewrite run_bind.
    destruct (run_generateEmbeddings loaded w1)
      as (cs & w2 & Hgen & (Henv2 & Hc2 & Hk2 & ev2 & Ht2) & _).
    rewrite Hgen. cbn iota beta.
    eexists _, _, _. split; [reflexivity|]. cbn.
    split; [by rewrite Henv2, Henv1|].
    split.
    { rewrite Ht2, Ht1. unfold emit; cbn [trace].
      rewrite <- !app_assoc. reflexivity. }
    split.
    { cbn. apply list_elem_of_further, list_elem_of_here. }
    split; [by rewrite Henv2, Henv1, Hk2, Hk1|].
    split; [by rewrite Hk2, Hk1|].
    by eapply generateEmbeddings_embedded.
  - eexists _, _, _. split; [reflexivity|].
    split; [by rewrite Henv1|].
    split.
    { rewrite Ht1. unfold emit; cbn [trace].
      rewrite <- !app_assoc. reflexivity. }
    split.
    { cbn. apply list_elem_of_further, list_elem_of_here. }
    split; [by rewrite Hc1|]. by apply Hthrow.
Qed.

(** The world after the reading of the clock that [getEmbeddings] makes
    when there is a snapshot. *)
Lemma run_Date_now w :
  ∃ w', Date_now w = (Normal (clock (env w) (clockReads w)), w')
        ∧ env w' = env w ∧ cachedData w' = cachedData w
        ∧ clockReads w' = S (clockReads w)
        ∧ trace w' = trace w ++ [EvDateNow].
Proof. eexists. split; [reflexivity|]. done. Qed.

Lemma run_getEmbeddings w :
  getEmbeddings w
  = match cachedData w with
    | Some c =>
        if (clock (env w) (clockReads w) - timestamp c <? freshness)%Z
        then (Normal (chunks c), emit (EvConsole LogCacheHit) (Date_now w).2)
        else rebuild (Date_now w).2
    | None => rebuild w
    end.
Proof.
  unfold getEmbeddings. rewrite run_bind. unfold read_cachedData at 1.
  cbn iota beta. destruct (cachedData w) as [c|]; [|done].
  rewrite run_bind. unfold Date_now at 1. cbn iota beta.
  by destruct (clock (env w) (clockReads w) - timestamp c <? freshness)%Z.
Qed.

(** [getEmbeddings] throws only what the reading of the files throws. *)
Lemma getEmbeddings_result w :
  ∃ r w',
    getEmbeddings w = (r, w')
    ∧ env w' = env w
    ∧ ∀ e, r = Throw e →
           readdir (env w) = Throw e
           ∨ ∃ file, readFile (env w) file = Throw e.
Proof.
  rewrite run_getEmbeddings.
  assert (∀ w0, env w0 = env w →
            ∃ r w', rebuild w0 = (r, w') ∧ env w' = env w
                    ∧ ∀ e, r = Throw e →
                           readdir (env w) = Throw e
                           ∨ ∃ file, readFile (env w) file = Throw e) as Hre.
  { intros w0 H0.
    destruct (run_rebuild w0) as (r & w' & events & -> & He & _ & _ & Hr).
    exists r, w'. split; [done|]. split; [by rewrite He|].
    intros e ->. destruct Hr as [_ Hr]. by rewrite <- H0. }
  destruct (cachedData w) as [c|]; [|by apply Hre].
  destruct (run_Date_now w) as (w1 & Hnow & Henv & _).
  rewrite Hnow. cbn [snd].
  destruct (clock (env w) (clockReads w) - timestamp c <? freshness)%Z.
  - eexists _, _. split; [reflexivity|]. split; [exact Henv|]. done.
  - by apply Hre.
Qed.

(** [getEmbeddings] keeps the snapshot embedded, and returns embedded
    chunks. *)
Lemma getEmbeddings_embedded w :
  cacheEmbedded w →
  cacheEmbedded (getEmbeddings w).2
  ∧ ∀ cs, (getEmbeddings w).1 = Normal cs → Forall embedded cs.
Proof.
  intros Hw. rewrite run_getEmbeddings.
  assert (∀ w0, cachedData w0 = cachedData w →
            cacheEmbedded (rebuild w0).2
            ∧ ∀ cs, (rebuild w0).1 = Normal cs → Forall embedded cs) as Hre.
  { intros w0 H0.
    destruct (run_rebuild w0) as (r & w' & events & -> & _ & _ & _ & Hr).
    cbn. destruct r as [cs|e].
    - destruct Hr as (Hc & _ & Hall). split.
      + intros c. rewrite Hc. by intros [= <-].
      + by intros ? [= <-].
    - destruct Hr as [Hr _]. split; [|done].
      intros c. rewrite Hr, H0. apply Hw. }
  destruct (cachedData w) as [c|] eqn:Ec; [|by apply Hre].
  destruct (run_Date_now w) as (w1 & Hnow & Henv & Hc & Hk & Ht).
  rewrite Hnow. cbn [snd].
  destruct (clock (env w) (clockReads w) - timestamp c <? freshness)%Z.
  - unfold cacheEmbedded. cbn. split.
    + intros c'. rewrite Hc, Ec. rewrite <- Ec. apply Hw.
    + intros ? [= <-]. by apply Hw.
  - apply Hre. by rewrite Hc.
Qed.

End Cache.

(** ** The ranking *)

Section Sorting.
Local Open Scope float_scope.
Implicit Types (x y s : ScoredChunk) (l : list ScoredChunk).

Lemma insertSorted_Permutation {A : Type} (cmp : A → A → float) (a : A) (l : list A) :
  insertSorted cmp a l ≡ₚ a :: l.
Proof.
  induction l as [|b l IH]; simpl; [done|].
  destruct (0 <? cmp a b); [|done].
  rewrite IH. apply Permutation_swap.
Qed.

Lemma Array_sort_Permutation {A : Type} (cmp : A → A → float) (l : list A) :
  Array_sort cmp l ≡ₚ l.
Proof.
  induction l as [|a l IH]; simpl; [done|].
  by rewrite insertSorted_Permutation, IH.
Qed.

Lemma length_Array_sort {A : Type} (cmp : A → A → float) (l : list A) :
  length (Array_sort cmp l) = length l.
Proof. apply Permutation_length, Array_sort_Permutation. Qed.

(** On scores that are numbers, the comparator sends [x] behind [y]
    exactly when the score of [x] is the smaller. *)
Lemma byScoreDescending_positive x y :
  isNumber x → isNumber y →
  (0 <? byScoreDescending x y) = (score x <? score y).
Proof. intros. unfold byScoreDescending. by apply sub_positive. Qed.

Lemma insertSorted_sorted x l :
  isNumber x → Forall isNumber l →
  StronglySorted ranksNoLower l →
  StronglySorted ranksNoLower (insertSorted byScoreDescending x l).
Proof.
  intros Hx Hl Hs. induction Hs as [|y l Hs IH Hy]; simpl.
  - by repeat constructor.
  - apply Forall_cons in Hl as [Hny Hl].
    rewrite (byScoreDescending_positive x y Hx Hny).
    destruct (score x <? score y) eqn:E.
    + constructor; [by apply IH|].
      rewrite insertSorted_Permutation. constructor; [|done].
      by apply ltb_leb.
    + assert (ranksNoLower x y) as Hxy by (by apply leb_total).
      constructor; [by constructor|]. constructor; [done|].
      eapply Forall_impl; [exact Hy|]. intros z Hz.
      unfold ranksNoLower in *. by eapply leb_trans.
Qed.

Lemma Array_sort_sorted l :
  Forall isNumber l →
  StronglySorted ranksNoLower (Array_sort byScoreDescending l).
Proof.
  induction 1 as [|x l Hx Hl IH]; simpl; [constructor|].
  apply insertSorted_sorted; [done| |done].
  by rewrite Array_sort_Permutation.
Qed.

Lemma insertSorted_stable v x l :
  isNumber x → Forall isNumber l →
  List.filter (tiesAt v) (insertSorted byScoreDescending x l)
  = List.filter (tiesAt v) (x :: l).
Proof.
  intros Hx Hl. induction Hl as [|y l Hy Hl IH]; [done|].
  cbn [insertSorted]. rewrite (byScoreDescending_positive x y Hx Hy).
  destruct (score x <? score y) eqn:E; [|done].
  cbn [List.filter] in *. rewrite IH.
  destruct (tiesAt v x) eqn:Ex, (tiesAt v y) eqn:Ey; try done.
  unfold tiesAt in *. by rewrite (eqb_ltb _ _ _ Ex Ey) in E.
Qed.

Lemma Array_sort_stable v l :
  Forall isNumber l →
  List.filter (tiesAt v) (Array_sort byScoreDescending l)
  = List.filter (tiesAt v) l.
Proof.
  induction 1 as [|x l Hx Hl IH]; [done|]. cbn [Array_sort foldr].
  fold (Array_sort byScoreDescending l).
  rewrite insertSorted_stable; [|done|by rewrite Array_sort_Permutation].
  cbn [List.filter]. by rewrite IH.
Qed.

End Sorting.

Section Rank.
Implicit Types (arr : list TextChunk) (w : World).

Lemma run_scoreChunks q arr w :
  Forall embedded arr →
  mapM (scoreChunk q) arr w = (Normal (scoreList q arr), w).
Proof.
  induction 1 as [|c arr [e He] _ IH]; [done|].
  cbn [mapM]. rewrite run_bind. unfold scoreChunk at 1. rewrite He.
  rewrite run_ret. cbn iota beta. rewrite run_bind, IH. cbn iota beta.
  rewrite run_ret. cbn [scoreList map]. by rewrite He.
Qed.

Lemma run_rank q arr w :
  Forall embedded arr →
  rank q arr w
  = (Normal (take topK (Array_sort byScoreDescending (scoreList q arr))), w).
Proof.
  intros H. unfold rank. rewrite run_bind, run_scoreChunks by done. done.
Qed.

End Rank.

(** ** The handler *)

Section Handler.
Implicit Types (arr : list TextChunk) (w : World).

Lemma keepsEmbedded_bind {A B : Type} (m : M A) (f : A → M B) :
  keepsEmbedded m → (∀ a, keepsEmbedded (f a)) → keepsEmbedded (m ≫= f).
Proof.
  intros Hm Hf w Hw. rewrite run_bind. specialize (Hm w Hw).
  destruct (m w) as [[a|e] w1]; cbn in *; [by apply Hf|done].
Qed.

Lemma keepsEmbedded_tryCatch {A : Type} (body : M A) (handler : JsError → M A) :
  keepsEmbedded body → (∀ e, keepsEmbedded (handler e)) →
  keepsEmbedded (tryCatch body handler).
Proof.
  intros Hm Hf w Hw. rewrite run_tryCatch. specialize (Hm w Hw).
  destruct (body w) as [[a|e] w1]; cbn in *; [done|by apply Hf].
Qed.

Lemma keepsEmbedded_keeps {A : Type} (m : M A) :
  (∀ w, keeps w (m w).2) → keepsEmbedded m.
Proof.
  intros Hk w Hw c. destruct (Hk w) as (_ & -> & _). apply Hw.
Qed.

Lemma keepsEmbedded_pure {A : Type} (m : M A) :
  (∀ w, (m w).2 = w) → keepsEmbedded m.
Proof. intros H w Hw. by rewrite H. Qed.

Lemma keepsEmbedded_getEmbeddings : keepsEmbedded getEmbeddings.
Proof. intros w Hw. by apply getEmbeddings_embedded. Qed.

Lemma mapM_scoreChunk_world q arr w : (mapM (scoreChunk q) arr w).2 = w.
Proof.
  induction arr as [|c arr IH]; [done|]. cbn [mapM]. rewrite run_bind.
  unfold scoreChunk at 1. destruct (embedding c); [|done].
  rewrite run_ret. cbn iota beta. rewrite run_bind.
  destruct (mapM (scoreChunk q) arr w) as [[scored|e] w'];
    cbn in *; by subst.
Qed.

Lemma rank_world q arr w : (rank q arr w).2 = w.
Proof.
  unfold rank. rewrite run_bind.
  pose proof (mapM_scoreChunk_world q arr w) as H.
  destruct (mapM (scoreChunk q) arr w) as [[scored|e] w']; cbn in *; by subst.
Qed.

Lemma keepsEmbedded_handle context request req :
  keepsEmbedded (handle context request req).
Proof.
  unfold handle. apply keepsEmbedded_tryCatch.
  - apply keepsEmbedded_bind; [by apply keepsEmbedded_pure|]. intros parsed.
    apply keepsEmbedded_bind.
    { apply keepsEmbedded_pure. intros w. by destruct parsed as [|[]]. }
    intros question. destruct (validQuestion question) as [q|].
    + apply keepsEmbedded_bind; [apply keepsEmbedded_getEmbeddings|].
      intros arr. apply keepsEmbedded_bind.
      { apply keepsEmbedded_keeps. intros w.
        by destruct (run_embedQuestion q w) as (w' & -> & Hk). }
      intros qe. apply keepsEmbedded_bind.
      { apply keepsEmbedded_pure. apply rank_world. }
      intros scored. apply keepsEmbedded_bind.
      { intros w Hw. exact Hw. }
      intros completion. apply keepsEmbedded_bind.
      { apply keepsEmbedded_pure. intros w. unfold firstAnswer.
        by destruct (OpenAI.choices completion). }
      intros answer. by apply keepsEmbedded_pure.
    + by apply keepsEmbedded_pure.
  - intros e. apply keepsEmbedded_bind; [|intros; by apply keepsEmbedded_pure].
    intros w Hw. exact Hw.
Qed.

(** In every world the module can be in, the snapshot is embedded. *)
Lemma reachable_cacheEmbedded w : reachable w → cacheEmbedded w.
Proof.
  induction 1 as [w H|w _ IH|req w _ IH|req w _ IH|w w' _ IH H].
  - intros c. by rewrite H.
  - by apply getEmbeddings_embedded.
  - by apply keepsEmbedded_handle.
  - by apply keepsEmbedded_handle.
  - intros c. rewrite H. apply IH.
Qed.

End Handler.

Section Sends.
Implicit Types (arr : list TextChunk) (w : World).

(** A valid question, once the chunks are there: the handler embeds the
    question, ranks, and sends the request built from the context of
    the ranked chunks; when the service answers, the response carries
    the citations of the same chunks. *)
Lemma handle_sends context request body question w arr w1 :
  destructureQuestion body w = (Normal (JsString question), w) →
  truthy question = true →
  getEmbeddings w = (Normal arr, w1) →
  Forall embedded arr →
  ∃ qe ranked w2 r w' events,
    embedQuestion question w1 = (Normal qe, w2)
    ∧ env w2 = env w1
    ∧ rank qe arr w2 = (Normal ranked, w2)
    ∧ handle context request (Normal body) w = (r, w')
    ∧ trace w'
      = trace w2 ++ EvChatCreate (request (context ranked) question) :: events
    ∧ ∀ answer rest,
        chatService (env w2) (chatCalls w2) (request (context ranked) question)
        = Normal {| OpenAI.choices := {| OpenAI.message_content := answer |} :: rest |} →
        r = Normal (mkResponse
                      (AnswerBody answer (citations ranked)
                         (distinct (map (λ c, source (chunk c)) ranked)))
                      200).
Proof.
  intros Hq Ht Hget Hemb.
  destruct (run_embedQuestion question w1) as (w2 & Hqe & Henv & _).
  set (qe := default _ _) in Hqe.
  pose proof (run_rank qe arr w2 Hemb) as Hrank.
  set (ranked := take topK _) in Hrank.
  exists qe, ranked, w2.
  unfold handle. rewrite run_tryCatch, run_bind. cbn iota beta.
  rewrite run_bind, Hq. cbn iota beta.
  unfold validQuestion. rewrite Ht.
  rewrite run_bind, Hget. cbn iota beta.
  rewrite run_bind, Hqe. cbn iota beta.
  rewrite run_bind, Hrank. cbn iota beta.
  rewrite run_bind. unfold chat_completions_create at 1.
  destruct (chatService (env w2) (chatCalls w2)
              (request (context ranked) question))
    as [[[|[answer] rest]]|e] eqn:Ec; cbn iota beta.
  - rewrite run_bind. unfold firstAnswer at 1. cbn.
    eexists _, _, _. split; [reflexivity|]. split; [exact Henv|]. do 2 (split; [reflexivity|]).
    split; [unfold emit; cbn [trace]; by rewrite <- app_assoc|].
    intros ? ? [=].
  - rewrite run_bind. unfold firstAnswer at 1. cbn.
    eexists _, _, []. split; [reflexivity|]. split; [exact Henv|]. do 2 (split; [reflexivity|]).
    split; [done|]. intros ? ? [= <- <-]. done.
  - rewrite run_bind, run_console. cbn iota beta.
    eexists _, _, _. split; [reflexivity|]. split; [exact Henv|]. do 2 (split; [reflexivity|]).
    split; [unfold emit; cbn [trace]; by rewrite <- app_assoc|].
    intros ? ? [=].
Qed.

(** Whatever the embedding service does: when the files can be read and
    the generation service answers, a valid question gets its answer,
    with status 200. *)
Lemma handle_answers context request body question w :
  destructureQuestion body w = (Normal (JsString question), w) →
  truthy question = true →
  (∃ names, readdir (env w) = Normal names) →
  (∀ file, ∃ content, readFile (env w) file = Normal content) →
  (∀ n rq, ∃ answer rest,
     chatService (env w) n rq
     = Normal {| OpenAI.choices :=
                   {| OpenAI.message_content := answer |} :: rest |}) →
  reachable w →
  ∃ answer cites sources w',
    handle context request (Normal body) w
    = (Normal (mkResponse (AnswerBody answer cites sources) 200), w').
Proof.
  intros Hq Ht [names Hdir] Hfiles Hchat Hw.
  destruct (getEmbeddings_result w) as (r0 & w1 & Hget & Henv1 & Hthrow).
  destruct r0 as [arr|e].
  2: { destruct (Hthrow e eq_refl) as [Hr|[file Hr]]; [congruence|].
       destruct (Hfiles file) as [content Hc]. congruence. }
  assert (Forall embedded arr) as Hemb.
  { pose proof (getEmbeddings_embedded w (reachable_cacheEmbedded w Hw)) as [_ H].
    apply H. by rewrite Hget. }
  destruct (handle_sends context request body question w arr w1 Hq Ht Hget Hemb)
    as (qe & ranked & w2 & r & w' & events & _ & Henv2 & _ & Hrun & _ & Hr).
  destruct (Hchat (chatCalls w2) (request (context ranked) question))
    as (answer & rest & Hc).
  rewrite <- Henv1, <- Henv2 in Hc.
  rewrite (Hr answer rest Hc) in Hrun. eauto.
Qed.

End Sends.

(** ** Scenarios *)

Section Scenarios.
Local Open Scope float_scope.

Example split_lines_example :
  split LF (js "ab" ++ [LF; LF] ++ js "c") = [js "ab"; []; js "c"].
Proof. reflexivity. Qed.

Example trim_example : trim (js "  hola " ++ [LF]) = js "hola".
Proof. reflexivity. Qed.

Example normalize_example :
  normalize (js " uno  " ++ [LF; LF] ++ js "dos tres ") = js "unodos tres".
Proof. reflexivity. Qed.

Example cosineSimilarity_same : cosineSimilarity [1; 0] [1; 0] = 1.
Proof. reflexivity. Qed.

(** Scenario A: one document, one citation of it. *)
Example scenario_A :
  (Natural.POST (Normal sampleBody) (startWorld sampleEnv)).1
  = Normal (mkResponse
              (AnswerBody (Some (js "$999"))
                 [mkCitation (js "precio.txt") (js "Price: $999...") 1]
                 [js "precio.txt"])
              200).
Proof. vm_compute. reflexivity. Qed.

(** Scenario B: an empty question is rejected, and nothing is read. *)
Lemma scenario_B context request (w : World) :
  handle context request
    (Normal (BodyObject [(js "question", JsString [])])) w
  = (Normal (mkResponse (ErrorBody msgInvalid None) 400), w).
Proof. reflexivity. Qed.

(** Scenario C: an empty directory gives no chunk and no citation. *)
Example scenario_C :
  let e := {| clock := clock sampleEnv; random := random sampleEnv;
              embeddingService := embeddingService sampleEnv;
              chatService := chatService sampleEnv;
              readdir := Normal [];
              readFile := readFile sampleEnv |} in
  (getEmbeddings (startWorld e)).1 = Normal []
  ∧ (Natural.POST (Normal sampleBody) (startWorld e)).1
    = Normal (mkResponse (AnswerBody (Some (js "$999")) [] []) 200).
Proof. split; vm_compute; reflexivity. Qed.

End Scenarios.

(** ** The rebuild, event by event *)

Section Loading.
Implicit Types (w : World) (file content : jsstring)
  (files names : list jsstring) (acc : list TextChunk).

Lemma logged_nil w : logged [] w = w.
Proof. destruct w. unfold logged; cbn. by rewrite app_nil_r. Qed.

Lemma logged_logged ev1 ev2 w : logged ev2 (logged ev1 w) = logged (ev1 ++ ev2) w.
Proof. unfold logged; cbn. by rewrite app_assoc. Qed.

Lemma emit_logged ev w : emit ev w = logged [ev] w.
Proof. done. Qed.

(** The loop over the files, as far as the files can be read. *)
Lemma forOf_read_prefix pre : ∀ contents rest acc w,
  Forall2 (holdsContent (env w)) pre contents →
  forOf (λ acc file,
           content ← fs_readFileSync file;
           mret (chunkFileInto acc file content)) (pre ++ rest) acc w
  = forOf (λ acc file,
             content ← fs_readFileSync file;
             mret (chunkFileInto acc file content)) rest
      (acc ++ concat (zip_with chunkFile pre contents))
      (logged (map EvReadFile pre) w).
Proof.
  induction pre as [|file pre IH]; intros contents rest acc w Hall.
  - apply Forall2_nil_inv_l in Hall as ->. cbn [zip_with concat map app].
    by rewrite app_nil_r, logged_nil.
  - apply Forall2_cons_inv_l in Hall as (content & contents' & Hr & Hall & ->).
    cbn [app forOf]. rewrite run_bind, run_bind. unfold fs_readFileSync at 1.
    unfold holdsContent in Hr. rewrite Hr. cbn iota beta.
    rewrite run_ret. cbn iota beta.
    rewrite (IH contents' rest _ (emit (EvReadFile file) w)) by exact Hall.
    rewrite emit_logged, logged_logged. cbn [zip_with concat map app].
    by rewrite chunkFileInto_app, <- app_assoc.
Qed.

Lemma run_loadAndChunkFiles_readable w names contents :
  readdir (env w) = Normal names →
  Forall2 (holdsContent (env w)) (List.filter isKnowledgeFile names) contents →
  loadAndChunkFiles w
  = (Normal (concat (zip_with chunkFile
                       (List.filter isKnowledgeFile names) contents)),
     logged (EvReaddir :: map EvReadFile (List.filter isKnowledgeFile names)) w).
Proof.
  intros Hd Hall. unfold loadAndChunkFiles. rewrite run_bind.
  unfold fs_readdirSync at 1. rewrite Hd. cbn iota beta.
  rewrite <- (app_nil_r (List.filter isKnowledgeFile names)) at 1.
  rewrite (forOf_read_prefix _ contents [] [] (emit EvReaddir w)) by exact Hall.
  cbn [forOf]. by rewrite run_ret, emit_logged, logged_logged.
Qed.

Lemma run_loadAndChunkFiles_unreadable w names pre file post contents e :
  readdir (env w) = Normal names →
  List.filter isKnowledgeFile names = pre ++ file :: post →
  Forall2 (holdsContent (env w)) pre contents →
  readFile (env w) file = Throw e →
  loadAndChunkFiles w
  = (Throw e, logged (EvReaddir :: map EvReadFile (pre ++ [file])) w).
Proof.
  intros Hd Hf Hall He. unfold loadAndChunkFiles. rewrite run_bind.
  unfold fs_readdirSync at 1. rewrite Hd, Hf. cbn iota beta.
  rewrite (forOf_read_prefix _ contents _ [] (emit EvReaddir w)) by exact Hall.
  cbn [forOf]. rewrite run_bind, run_bind. unfold fs_readFileSync at 1.
  cbn [env logged emit]. rewrite He. cbn iota beta.
  rewrite !emit_logged, !logged_logged.
  by rewrite map_app.
Qed.

(** When the directory cannot be listed, [loadAndChunkFiles] throws that
    error and opens no file. *)
Lemma loadAndChunkFiles_no_directory w e :
  readdir (env w) = Throw e →
  loadAndChunkFiles w = (Throw e, logged [EvReaddir] w).
Proof.
  intros Hd. unfold loadAndChunkFiles. rewrite run_bind.
  unfold fs_readdirSync at 1. by rewrite Hd.
Qed.

End Loading.

Section InputOutput.
Implicit Types (arr : list TextChunk) (c : TextChunk) (w : World).

Lemma ioEvents_app (t1 t2 : list Event) :
  ioEvents (t1 ++ t2) = ioEvents t1 ++ ioEvents t2.
Proof. apply List.filter_app. Qed.

Lemma ioEvents_draws n : ioEvents (replicate n EvMathRandom) = [].
Proof. induction n; [done|]. simpl. done. Qed.

Lemma ioEvents_reads (files : list jsstring) :
  ioEvents (map EvReadFile files) = map EvReadFile files.
Proof. induction files as [|f files IH]; [done|]. cbn. by f_equal. Qed.

Lemma run_embedChunk_io arr i c w :
  arr !! i = Some c →
  ioEvents (trace (embedChunk arr i w).2)
  = ioEvents (trace w) ++ [EvEmbeddingsCreate (text c)].
Proof.
  intros Hc. unfold embedChunk. rewrite run_tryCatch, Hc.
  rewrite run_bind, run_ret. cbn iota beta. rewrite run_bind.
  unfold embeddings_create at 1.
  destruct (embeddingService (env w) (embeddingCalls w) (text c))
    as [[[|x data]]|e] eqn:Es; cbn iota beta.
  - rewrite run_bind. unfold firstEmbedding at 1. cbn.
    rewrite run_bind, run_console. cbn iota beta.
    rewrite run_bind, run_fallbackEmbedding. cbn iota beta.
    rewrite (run_setEmbedding _ _ _ _ _ Hc).
    unfold afterDraws, emit; cbn [trace snd].
    rewrite !ioEvents_app, ioEvents_draws. cbn. by rewrite !app_nil_r.
  - rewrite run_bind. unfold firstEmbedding at 1. cbn.
    rewrite run_bind, (run_setEmbedding _ _ _ _ _ Hc). cbn iota beta.
    rewrite run_bind, run_console. cbn iota beta. rewrite run_ret.
    unfold emit; cbn [trace snd].
    rewrite !ioEvents_app. cbn. by rewrite !app_nil_r.
  - rewrite run_bind, run_console. cbn iota beta.
    rewrite run_bind, run_fallbackEmbedding. cbn iota beta.
    rewrite (run_setEmbedding _ _ _ _ _ Hc).
    unfold afterDraws, emit; cbn [trace snd].
    rewrite !ioEvents_app, ioEvents_draws. cbn. by rewrite !app_nil_r.
Qed.

Lemma forOf_embedChunk_io n : ∀ i arr w,
  i + n = length arr →
  ioEvents (trace (forOf embedChunk (seq i n) arr w).2)
  = ioEvents (trace w) ++ map EvEmbeddingsCreate (map text (drop i arr)).
Proof.
  induction n as [|n IH]; intros i arr w Hn.
  - cbn [seq forOf]. rewrite run_ret. cbn [snd].
    rewrite drop_ge by lia. cbn. by rewrite app_nil_r.
  - destruct (lookup_lt_is_Some_2 arr i ltac:(lia)) as [c Hc].
    pose proof (run_embedChunk_io arr i c w Hc) as Hio.
    destruct (run_embedChunk arr i c w Hc) as (w1 & Hrun & _).
    rewrite Hrun in Hio. cbn [snd] in Hio.
    cbn [seq forOf]. rewrite run_bind, Hrun. cbn iota beta.
    rewrite IH by (rewrite length_insert; lia).
    rewrite Hio, <- app_assoc. f_equal.
    rewrite (drop_S arr c i Hc). cbn. f_equal.
    by rewrite drop_insert_lt by lia.
Qed.

(** [generateEmbeddings] reaches the outside by one call of the embedding
    service for every chunk, in order, and by nothing else. *)
Lemma generateEmbeddings_io arr w :
  ioEvents (trace (generateEmbeddings arr w).2)
  = ioEvents (trace w) ++ map EvEmbeddingsCreate (map text arr).
Proof.
  unfold generateEmbeddings. rewrite run_bind, run_console. cbn iota beta.
  rewrite (forOf_embedChunk_io (length arr) 0 arr) by done.
  unfold emit; cbn [trace]. rewrite ioEvents_app. cbn.
  by rewrite app_nil_r.
Qed.

(** The rebuild when the directory and its files can be read. *)
Lemma run_rebuild_readable w names contents :
  readdir (env w) = Normal names →
  Forall2 (holdsContent (env w)) (List.filter isKnowledgeFile names) contents →
  ∃ cs w' events,
    rebuild w = (Normal cs, w')
    ∧ length cs
      = length (concat (zip_with chunkFile
                          (List.filter isKnowledgeFile names) contents))
    ∧ (∀ j c,
         concat (zip_with chunkFile
                   (List.filter isKnowledgeFile names) contents) !! j = Some c →
         ∃ c', cs !! j = Some c'
               ∧ embeddedBy (env w) (embeddingCalls w + j) c c')
    ∧ cachedData w'
      = Some (mkCachedEmbeddings cs (clock (env w) (clockReads w)))
    ∧ clockReads w' = S (clockReads w)
    ∧ trace w' = trace w ++ events
    ∧ ioEvents events
      = EvReaddir :: map EvReadFile (List.filter isKnowledgeFile names)
          ++ map EvEmbeddingsCreate
               (map text (concat (zip_with chunkFile
                                    (List.filter isKnowledgeFile names)
                                    contents))).
Proof.
  intros Hd Hall. unfold rebuild. rewrite run_bind, run_console.
  cbn iota beta. rewrite run_bind.
  rewrite (run_loadAndChunkFiles_readable (emit (EvConsole LogLoading) w)
             names contents Hd Hall).
  cbn iota beta. rewrite run_bind.
  set (files := List.filter isKnowledgeFile names).
  set (loaded := concat (zip_with chunkFile files contents)).
  set (w1 := logged (EvReaddir :: map EvReadFile files)
               (emit (EvConsole LogLoading) w)).
  pose proof (generateEmbeddings_io loaded w1) as Hio.
  destruct (run_generateEmbeddings loaded w1)
    as (cs & w2 & Hgen & (Henv2 & Hc2 & Hk2 & ev2 & Ht2) & Hlen & Hby & _).
  rewrite Hgen in Hio |- *. cbn [snd] in Hio. cbn iota beta.
  eexists cs, _, ([EvConsole LogLoading] ++ (EvReaddir :: map EvReadFile files)
                   ++ ev2 ++ [EvDateNow]).
  split; [reflexivity|]. split; [exact Hlen|]. split; [exact Hby|].
  cbn [cachedData clockReads trace emit]. rewrite Henv2, Hk2.
  split; [done|]. split; [done|]. split.
  - rewrite Ht2. unfold w1, logged, emit; cbn [trace].
    by rewrite <- !app_assoc.
  - rewrite Ht2, ioEvents_app in Hio. apply app_inv_head in Hio.
    rewrite !ioEvents_app, Hio. cbn. rewrite ioEvents_reads.
    by rewrite app_nil_r.
Qed.

(** The rebuild when the listing of the directory or a file fails. *)
Lemma run_rebuild_throws w e w1 :
  loadAndChunkFiles (emit (EvConsole LogLoading) w) = (Throw e, w1) →
  rebuild w = (Throw e, w1).
Proof.
  intros H. unfold rebuild. rewrite run_bind, run_console. cbn iota beta.
  by rewrite run_bind, H.
Qed.

End InputOutput.

(** ** Scores that are not numbers *)

Section NotANumber.
Local Open Scope float_scope.

Lemma leb_nan_l x y : is_nan x = true → (x <=? y) = false.
Proof.
  rewrite is_nan_spec, leb_spec. unfold SFleb.
  by destruct (Prim2SF x), (Prim2SF y).
Qed.

Lemma leb_nan_r x y : is_nan y = true → (x <=? y) = false.
Proof.
  rewrite is_nan_spec, leb_spec. unfold SFleb.
  by destruct (Prim2SF x) as [[]|[]| |[] ? ?], (Prim2SF y).
Qed.

(** A list in which a score is [NaN] is in descending order only if it
    holds nothing else. *)
Lemma StronglySorted_NaN (l : list ScoredChunk) (s : ScoredChunk) :
  StronglySorted ranksNoLower l → s ∈ l → is_nan (score s) = true →
  l = [s].
Proof.
  intros Hs Hin Hnan. induction Hs as [|a l Hs IH Ha]; [by apply elem_of_nil in Hin|].
  rewrite Forall_forall in Ha.
  apply elem_of_cons in Hin as [->|Hin].
  - destruct l as [|b l]; [done|].
    specialize (Ha b ltac:(left)). unfold ranksNoLower in Ha.
    by rewrite leb_nan_r in Ha.
  - specialize (Ha s Hin). unfold ranksNoLower in Ha.
    by rewrite leb_nan_l in Ha.
Qed.

End NotANumber.

(** ** What leaves the generation service alone *)

Section KeepsCalls.

Lemma keepsCalls_ret {A : Type} (a : A) : keepsCalls (mret a : M A).
Proof. done. Qed.

Lemma keepsCalls_throw {A : Type} (e : JsError) : keepsCalls (throw e : M A).
Proof. done. Qed.

Lemma keepsCalls_bind {A B : Type} (m : M A) (f : A → M B) :
  keepsCalls m → (∀ a, keepsCalls (f a)) → keepsCalls (m ≫= f).
Proof.
  intros Hm Hf w. rewrite run_bind. specialize (Hm w).
  destruct (m w) as [[a|e] w1]; cbn [snd] in *; [|done].
  destruct (Hf a w1) as [-> ->]. done.
Qed.

Lemma keepsCalls_tryCatch {A : Type} (body : M A) (handler : JsError → M A) :
  keepsCalls body → (∀ e, keepsCalls (handler e)) →
  keepsCalls (tryCatch body handler).
Proof.
  intros Hm Hf w. rewrite run_tryCatch. specialize (Hm w).
  destruct (body w) as [[a|e] w1]; cbn [snd] in *; [done|].
  destruct (Hf e w1) as [-> ->]. done.
Qed.

Lemma keepsCalls_forOf {A B : Type} (body : B → A → M B) (xs : list A) :
  (∀ acc x, keepsCalls (body acc x)) → ∀ acc, keepsCalls (forOf body xs acc).
Proof.
  intros Hb. induction xs as [|x xs IH]; intros acc; cbn [forOf].
  - apply keepsCalls_ret.
  - apply keepsCalls_bind; [apply Hb|apply IH].
Qed.

Lemma keepsCalls_mapM {A B : Type} (f : A → M B) (l : list A) :
  (∀ x, keepsCalls (f x)) → keepsCalls (mapM f l).
Proof.
  intros Hf. induction l as [|x l IH]; cbn [mapM].
  - apply keepsCalls_ret.
  - apply keepsCalls_bind; [apply Hf|]. intros y.
    apply keepsCalls_bind; [apply IH|]. intros k. apply keepsCalls_ret.
Qed.

Lemma keepsCalls_console m : keepsCalls (console m).
Proof. done. Qed.

Lemma keepsCalls_loadAndChunkFiles : keepsCalls loadAndChunkFiles.
Proof.
  unfold loadAndChunkFiles. apply keepsCalls_bind; [done|]. intros names.
  apply keepsCalls_forOf. intros acc file.
  apply keepsCalls_bind; [done|]. intros content. apply keepsCalls_ret.
Qed.

Lemma keepsCalls_fallbackEmbedding : keepsCalls fallbackEmbedding.
Proof. unfold fallbackEmbedding. apply keepsCalls_mapM. done. Qed.

Lemma keepsCalls_setEmbedding i v arr : keepsCalls (setEmbedding i v arr).
Proof. unfold setEmbedding. by destruct (arr !! i). Qed.

Lemma keepsCalls_firstEmbedding r : keepsCalls (firstEmbedding r).
Proof. unfold firstEmbedding. by destruct (OpenAI.data r). Qed.

Lemma keepsCalls_embedChunk arr i : keepsCalls (embedChunk arr i).
Proof.
  unfold embedChunk. apply keepsCalls_tryCatch.
  - apply keepsCalls_bind; [by destruct (arr !! i)|]. intros input.
    apply keepsCalls_bind; [done|]. intros response.
    apply keepsCalls_bind; [apply keepsCalls_firstEmbedding|]. intros v.
    apply keepsCalls_bind; [apply keepsCalls_setEmbedding|]. intros arr'.
    apply keepsCalls_bind; [done|]. intros _. apply keepsCalls_ret.
  - intros e. apply keepsCalls_bind; [done|]. intros _.
    apply keepsCalls_bind; [apply keepsCalls_fallbackEmbedding|]. intros v.
    apply keepsCalls_setEmbedding.
Qed.

Lemma keepsCalls_generateEmbeddings arr : keepsCalls (generateEmbeddings arr).
Proof.
  unfold generateEmbeddings. apply keepsCalls_bind; [done|]. intros _.
  apply keepsCalls_forOf. intros acc i. apply keepsCalls_embedChunk.
Qed.

Lemma keepsCalls_rebuild : keepsCalls rebuild.
Proof.
  unfold rebuild. apply keepsCalls_bind; [done|]. intros _.
  apply keepsCalls_bind; [apply keepsCalls_loadAndChunkFiles|]. intros loaded.
  apply keepsCalls_bind; [apply keepsCalls_generateEmbeddings|]. intros cs.
  apply keepsCalls_bind; [done|]. intros now.
  apply keepsCalls_bind; [done|]. intros _. apply keepsCalls_ret.
Qed.

Lemma keepsCalls_getEmbeddings : keepsCalls getEmbeddings.
Proof.
  unfold getEmbeddings. apply keepsCalls_bind; [done|]. intros [c|].
  - apply keepsCalls_bind; [done|]. intros now.
    destruct (now - timestamp c <? freshness)%Z; [|apply keepsCalls_rebuild].
    apply keepsCalls_bind; [done|]. intros _. apply keepsCalls_ret.
  - apply keepsCalls_rebuild.
Qed.

Lemma keepsCalls_embedQuestion question : keepsCalls (embedQuestion question).
Proof.
  unfold embedQuestion. apply keepsCalls_tryCatch.
  - apply keepsCalls_bind; [done|]. intros response.
    apply keepsCalls_firstEmbedding.
  - intros e. apply keepsCalls_bind; [done|]. intros _.
    apply keepsCalls_fallbackEmbedding.
Qed.

End KeepsCalls.

(** * The claims *)

Local Open Scope float_scope.

(** C1, as stated, fails: for the zero vector [0; 0] against [1; 2], of
    equal length, the norm is zero and [cosineSimilarity] returns [NaN],
    not a sentinel such as 0. *)
Lemma cosineSimilarity_zero_vector_NaN :
  length [0; 0] = length [1; 2]
  ∧ is_zero (magnitude [0; 0]) = true
  ∧ is_nan (cosineSimilarity [0; 0] [1; 2]) = true
  ∧ (cosineSimilarity [0; 0] [1; 2] =? 0) = false.
Proof. vm_compute. auto. Qed.

(** C1, amended: when the norm that [cosineSimilarity] computes for either
    vector is zero, the result is [NaN] or an infinity, never a finite
    score; it is [NaN] whenever the dot product is zero too, as it is for a
    vector of zeros, on either side. There is no sentinel. *)
Theorem cosineSimilarity_zero_norm (a b : list float) :
  is_zero (magnitude a) = true ∨ is_zero (magnitude b) = true →
  (is_nan (cosineSimilarity a b) = true
   ∨ is_infinity (cosineSimilarity a b) = true)
  ∧ (is_zero (dotProduct a b) = true → is_nan (cosineSimilarity a b) = true)
  ∧ (Forall (λ v, is_zero v = true) a ∨ Forall (λ v, is_zero v = true) b →
     is_nan (cosineSimilarity a b) = true).
Proof.
  intros H.
  assert (zeroOrNaN (magnitude a * magnitude b) = true) as Hd.
  { destruct H as [H|H].
    - by apply zeroOrNaN_mul_l, is_zero_zeroOrNaN.
    - by apply zeroOrNaN_mul_r, is_zero_zeroOrNaN. }
  split; [|split].
  - unfold cosineSimilarity. by apply div_by_zeroOrNaN.
  - intros Hz. unfold cosineSimilarity.
    apply div_zeroOrNaN; [by apply is_zero_zeroOrNaN|done].
  - apply cosineSimilarity_zero_vector.
Qed.

(** The zero vector [0; 0] against [1; 2]. *)
Lemma cosineSimilarity_zero_norm_witness :
  (is_zero (magnitude [0; 0]) = true ∨ is_zero (magnitude [1; 2]) = true)
  ∧ (is_nan (cosineSimilarity [0; 0] [1; 2]) = true
     ∨ is_infinity (cosineSimilarity [0; 0] [1; 2]) = true)
  ∧ (is_zero (dotProduct [0; 0] [1; 2]) = true →
     is_nan (cosineSimilarity [0; 0] [1; 2]) = true)
  ∧ (Forall (λ v, is_zero v = true) [0; 0]
     ∨ Forall (λ v, is_zero v = true) [1; 2] →
     is_nan (cosineSimilarity [0; 0] [1; 2]) = true).
Proof.
  split; [left; reflexivity|].
  apply (cosineSimilarity_zero_norm [0; 0] [1; 2]). left. reflexivity.
Defined.

Local Close Scope float_scope.




(** C3 fails on the code: the test of the chunker counts the accumulator
    and the line but not the separator it adds between them. The document
    [threeLines] gives a second chunk of 801 characters that is made of two
    lines of 400 characters. *)
Theorem chunk_exceeds_bound :
  let long := replicate 400 97%N ++ [LF] ++ replicate 400 98%N in
  chunkFile (js "doc.txt") threeLines
  = [ mkTextChunk (replicate 500 120%N) (js "doc.txt") None;
      mkTextChunk long (js "doc.txt") None ]
  ∧ length long = 801
  ∧ split LF long = [replicate 400 97%N; replicate 400 98%N].
Proof. vm_compute. auto. Qed.

(** C4, as stated, fails on the first copy of the handler: the context it
    sends for scenario A starts with the label of the source. *)
Lemma Labelled_context_names_source :
  last (trace (Labelled.POST (Normal sampleBody) (startWorld sampleEnv)).2)
  = Some (EvChatCreate
            (Labelled.request
               (js "[Fuente 1: precio.txt]" ++ [LF] ++ js "Price: $999")
               sampleQuestion))
  ∧ js "[Fuente 1: precio.txt]" ++ [LF] ++ js "Price: $999"
    ≠ js "Price: $999".
Proof. split; [vm_compute; reflexivity|]. vm_compute. discriminate. Qed.

(** C4, amended: for a valid question, once [getEmbeddings] has returned
    the chunks, the handler embeds the question, ranks, and sends a
    request to the generation service. In the second copy of the file the
    context of that request is the texts of the ranked chunks, in ranked
    order, joined by a blank line, with nothing of their sources. In the
    first copy every chunk is preceded by the line [[Fuente i: source]]
    and the chunks are joined by a rule between blank lines. *)
Theorem context_sent (body : JsBody) (question : jsstring) (w : World)
    (arr : list TextChunk) :
  reachable w →
  destructureQuestion body w = (Normal (JsString question), w) →
  truthy question = true →
  (getEmbeddings w).1 = Normal arr →
  ∃ qe ranked w2,
    embedQuestion question (getEmbeddings w).2 = (Normal qe, w2)
    ∧ rank qe arr w2 = (Normal ranked, w2)
    ∧ (∃ events,
         trace (Natural.POST (Normal body) w).2
         = trace w2
           ++ EvChatCreate
                (Natural.request
                   (join [LF; LF] (map (λ s, text (chunk s)) ranked))
                   question)
           :: events)
    ∧ (∃ events,
         trace (Labelled.POST (Normal body) w).2
         = trace w2
           ++ EvChatCreate
                (Labelled.request
                   (join ([LF; LF] ++ js "---" ++ [LF; LF])
                      (imap (λ i s, js "[Fuente " ++ js (pretty (i + 1))
                                      ++ js ": " ++ source (chunk s)
                                      ++ js "]" ++ [LF] ++ text (chunk s))
                            ranked))
                   question)
           :: events).
Proof.
  intros Hw Hq Ht Hget.
  destruct (getEmbeddings w) as [r w1] eqn:Eg. cbn [fst snd] in *. subst r.
  assert (Forall embedded arr) as Hemb.
  { pose proof (getEmbeddings_embedded w (reachable_cacheEmbedded w Hw)) as [_ H].
    apply H. by rewrite Eg. }
  destruct (handle_sends Natural.context Natural.request body question w arr w1
              Hq Ht Eg Hemb)
    as (qe & ranked & w2 & r & w' & events & Hqe & _ & Hrank & Hrun & Htr & _).
  destruct (handle_sends Labelled.context Labelled.request body question w arr w1
              Hq Ht Eg Hemb)
    as (qe' & ranked' & w2' & r' & w'' & events' & Hqe' & _ & Hrank' & Hrun' & Htr' & _).
  rewrite Hqe in Hqe'. injection Hqe' as <- <-.
  rewrite Hrank in Hrank'. injection Hrank' as <-.
  exists qe, ranked, w2. split; [exact Hqe|]. split; [exact Hrank|]. split.
  - exists events. unfold Natural.POST. rewrite Hrun. exact Htr.
  - exists events'. unfold Labelled.POST. rewrite Hrun'. exact Htr'.
Qed.

(** Scenario A, from the start of the module. *)
Lemma context_sent_witness :
  reachable (startWorld sampleEnv)
  ∧ destructureQuestion sampleBody (startWorld sampleEnv)
    = (Normal (JsString sampleQuestion), startWorld sampleEnv)
  ∧ truthy sampleQuestion = true
  ∧ (getEmbeddings (startWorld sampleEnv)).1 = Normal [sampleChunk]
  ∧ ∃ qe ranked w2,
      embedQuestion sampleQuestion (getEmbeddings (startWorld sampleEnv)).2
      = (Normal qe, w2)
      ∧ rank qe [sampleChunk] w2 = (Normal ranked, w2)
      ∧ (∃ events,
           trace (Natural.POST (Normal sampleBody) (startWorld sampleEnv)).2
           = trace w2
             ++ EvChatCreate
                  (Natural.request
                     (join [LF; LF] (map (λ s, text (chunk s)) ranked))
                     sampleQuestion)
             :: events)
      ∧ (∃ events,
           trace (Labelled.POST (Normal sampleBody) (startWorld sampleEnv)).2
           = trace w2
             ++ EvChatCreate
                  (Labelled.request
                     (join ([LF; LF] ++ js "---" ++ [LF; LF])
                        (imap (λ i s, js "[Fuente " ++ js (pretty (i + 1))
                                        ++ js ": " ++ source (chunk s)
                                        ++ js "]" ++ [LF] ++ text (chunk s))
                              ranked))
                     sampleQuestion)
             :: events).
Proof.
  assert (reachable (startWorld sampleEnv)) as H1
    by (apply reachable_start; reflexivity).
  assert (destructureQuestion sampleBody (startWorld sampleEnv)
          = (Normal (JsString sampleQuestion), startWorld sampleEnv)) as H2
    by reflexivity.
  assert (truthy sampleQuestion = true) as H3 by reflexivity.
  assert ((getEmbeddings (startWorld sampleEnv)).1 = Normal [sampleChunk]) as H4
    by (vm_compute; reflexivity).
  split; [exact H1|]. split; [exact H2|]. split; [exact H3|].
  split; [exact H4|].
  exact (context_sent sampleBody sampleQuestion (startWorld sampleEnv)
           [sampleChunk] H1 H2 H3 H4).
Defined.

Local Open Scope float_scope.

(** C5, as stated, fails: when a chunk has the zero vector its score is
    [NaN], every comparison with it gives [NaN], and the sort leaves the
    chunks as they are: the first has a smaller score than the third.
    Whatever an engine makes of such a comparator, no order of these three
    chunks is descending. *)
Lemma rank_unsorted_with_NaN :
  (rank [1; 0] degenerateChunks (startWorld sampleEnv)).1
  = Normal (scoreList [1; 0] degenerateChunks)
  ∧ map (λ s, is_nan (score s)) (scoreList [1; 0] degenerateChunks)
    = [false; true; false]
  ∧ ¬ StronglySorted ranksNoLower (scoreList [1; 0] degenerateChunks)
  ∧ ∀ l, l ≡ₚ scoreList [1; 0] degenerateChunks →
         ¬ StronglySorted ranksNoLower l.
Proof.
  split; [vm_compute; reflexivity|]. split; [vm_compute; reflexivity|].
  assert (∀ l, l ≡ₚ scoreList [1; 0] degenerateChunks →
               ¬ StronglySorted ranksNoLower l) as H.
  { intros l Hp Hs.
    set (s := mkScoredChunk (mkTextChunk (js "dos") (js "a.txt") (Some [0; 0]))
                (cosineSimilarity [1; 0] [0; 0])).
    assert (s ∈ l) as Hin.
    { rewrite Hp. apply list_elem_of_further, list_elem_of_here. }
    rewrite (StronglySorted_NaN l s Hs Hin eq_refl) in Hp.
    apply Permutation_length in Hp. discriminate. }
  split; [by apply H|exact H].
Qed.

(** C5, amended: for every query vector and every list of embedded
    chunks the ranker returns the first three of a permutation of the
    scored chunks, so [min 3 n] chunks, whether or not a score is [NaN];
    when the scores are all numbers (none is [NaN]) that permutation is
    sorted by descending score, the chunks of equal score in corpus
    order. *)
Theorem rank_sorted (q : list float) (arr : list TextChunk) (w : World) :
  Forall embedded arr →
  ∃ sorted,
    rank q arr w = (Normal (take 3 sorted), w)
    ∧ sorted ≡ₚ scoreList q arr
    ∧ length (take 3 sorted) = 3 `min` length arr
    ∧ (Forall isNumber (scoreList q arr) →
       StronglySorted ranksNoLower sorted
       ∧ ∀ v, List.filter (tiesAt v) sorted
              = List.filter (tiesAt v) (scoreList q arr)).
Proof.
  intros He. exists (Array_sort byScoreDescending (scoreList q arr)).
  split; [by apply run_rank|].
  split; [apply Array_sort_Permutation|].
  split.
  { rewrite length_take, length_Array_sort. unfold scoreList.
    by rewrite length_map. }
  intros Hn. split; [by apply Array_sort_sorted|].
  intros v. by apply Array_sort_stable.
Qed.

(** Four chunks with four scores against [1; 0]. *)
Lemma rank_sorted_witness :
  Forall embedded fourChunks
  ∧ Forall isNumber (scoreList [1; 0] fourChunks)
  ∧ ∃ sorted,
      rank [1; 0] fourChunks (startWorld sampleEnv)
      = (Normal (take 3 sorted), startWorld sampleEnv)
      ∧ sorted ≡ₚ scoreList [1; 0] fourChunks
      ∧ length (take 3 sorted) = 3 `min` length fourChunks
      ∧ StronglySorted ranksNoLower sorted
      ∧ (∀ v, List.filter (tiesAt v) sorted
              = List.filter (tiesAt v) (scoreList [1; 0] fourChunks)).
Proof.
  assert (Forall embedded fourChunks) as H1
    by (repeat constructor; eexists; reflexivity).
  assert (Forall isNumber (scoreList [1; 0] fourChunks)) as H2
    by (repeat constructor; vm_compute; reflexivity).
  split; [exact H1|]. split; [exact H2|].
  destruct (rank_sorted [1; 0] fourChunks (startWorld sampleEnv) H1)
    as (sorted & Hrun & Hp & Hlen & Hs).
  destruct (Hs H2) as [Hsorted Hties].
  exists sorted. split; [exact Hrun|]. split; [exact Hp|].
  split; [exact Hlen|]. split; [exact Hsorted|exact Hties].
Defined.

Local Close Scope float_scope.

(** C6, as stated, fails where the documents cannot be read: an hour
    after the snapshot was taken, and with no directory to list,
    [get_corpus] ([getEmbeddings]) throws, and the snapshot is the old
    one still, with its old timestamp; and with no snapshot at all none
    is made. *)
Lemma getEmbeddings_keeps_stale_snapshot :
  cachedData staleWorld = Some (mkCachedEmbeddings [sampleChunk] 0)
  ∧ (clock (env staleWorld) (clockReads staleWorld) - 0 <? 3600000)%Z = false
  ∧ (getEmbeddings staleWorld).1 = Throw (FsError (js "data"))
  ∧ cachedData (getEmbeddings staleWorld).2
    = Some (mkCachedEmbeddings [sampleChunk] 0)
  ∧ (getEmbeddings (startWorld emptyEnv)).1 = Throw (FsError (js "data"))
  ∧ cachedData (getEmbeddings (startWorld emptyEnv)).2 = None.
Proof. repeat split; vm_compute; reflexivity. Qed.

(** C6, amended: with a snapshot whose age is below 3600000 ms,
    [getEmbeddings] returns its chunks, leaves the module variable as it
    is and adds to the trace the reading of the clock and a console line
    only: no file is read and no service is called. With no snapshot, or
    one whose age is not below the window, it rebuilds: it lists the
    directory, reads its text and Markdown files, chunks them and sends
    every chunk once to the embedding service, in that order; the chunks
    it returns are those of the files, each with its embedding, and they
    replace the snapshot, stamped with the next reading of the clock. When
    the listing or the reading of a file fails, it throws that error and
    the snapshot stays as it was. *)
Theorem getEmbeddings_cache (w : World) :
  match cachedData w with
  | Some c =>
      if (clock (env w) (clockReads w) - timestamp c <? 3600000)%Z
      then servedFromCache w c
      else rebuilds w (S (clockReads w))
  | None => rebuilds w (clockReads w)
  end.
Proof.
  pose proof (run_getEmbeddings w) as Hrun.
  change 3600000%Z with freshness.
  (* the rebuild, from the world [w0] in which it starts *)
  assert (∀ w0 extra,
            getEmbeddings w = rebuild w0 →
            env w0 = env w → cachedData w0 = cachedData w →
            embeddingCalls w0 = embeddingCalls w →
            trace w0 = trace w ++ extra → ioEvents extra = [] →
            rebuilds w (clockReads w0)) as Hre.
  { intros w0 extra Hget Henv Hc Hcalls Ht Hextra. unfold rebuilds.
    destruct (readdir (env w)) as [names|e] eqn:Hd.
    - split.
      + intros contents Hall. cbn zeta.
        rewrite <- Henv in Hd, Hall.
        destruct (run_rebuild_readable w0 names contents Hd Hall)
          as (cs & w' & events & Hr & Hlen & Hby & Hsnap & Hreads & Htr & Hio).
        exists cs, w', (extra ++ events). rewrite Hget.
        split; [exact Hr|]. split; [exact Hlen|].
        split; [by rewrite <- Henv, <- Hcalls|].
        split; [by rewrite <- Henv|]. split; [exact Hreads|].
        split; [by rewrite Htr, Ht, <- app_assoc|].
        by rewrite ioEvents_app, Hextra, Hio.
      + intros pre file post contents e Hf Hall He.
        rewrite <- Henv in Hd, Hall, He.
        eexists. rewrite Hget. split.
        * apply run_rebuild_throws.
          by apply (run_loadAndChunkFiles_unreadable
                      (emit (EvConsole LogLoading) w0) names pre file post
                      contents e).
        * exact Hc.
    - rewrite <- Henv in Hd. eexists. rewrite Hget. split.
      + apply run_rebuild_throws.
        by apply (loadAndChunkFiles_no_directory
                    (emit (EvConsole LogLoading) w0) e).
      + exact Hc. }
  destruct (cachedData w) as [c|] eqn:Ec.
  - destruct (run_Date_now w) as (w1 & Hnow & Henv & Hc & Hk & Ht).
    rewrite Hnow in Hrun. cbn [snd] in Hrun.
    destruct (clock (env w) (clockReads w) - timestamp c <? freshness)%Z.
    + (* fresh: the chunks of the snapshot, and nothing read *)
      unfold servedFromCache.
      exists (emit (EvConsole LogCacheHit) w1). split; [exact Hrun|]. cbn.
      split; [by rewrite Hc|]. split; [done|].
      by rewrite Ht, <- app_assoc.
    + (* stale: rebuilt after the reading that found it stale *)
      rewrite <- Hk.
      apply (Hre w1 [EvDateNow]); try done.
      * by rewrite Hc.
      * by injection Hnow as <-.
  - (* no snapshot *)
    apply (Hre w []); try done. by rewrite app_nil_r.
Qed.

(** The first call in scenario A: one file, one chunk. *)
Lemma getEmbeddings_cache_witness :
  ∃ cs w' events,
    getEmbeddings (startWorld sampleEnv) = (Normal cs, w')
    ∧ length cs = 1
    ∧ cachedData w' = Some (mkCachedEmbeddings cs 0)
    ∧ trace w' = events
    ∧ ioEvents events
      = [EvReaddir; EvReadFile (js "precio.txt");
         EvEmbeddingsCreate (js "Price: $999")].
Proof.
  pose proof (getEmbeddings_cache (startWorld sampleEnv)) as H.
  cbn [cachedData startWorld] in H. unfold rebuilds in H.
  change (readdir (env (startWorld sampleEnv)))
    with (Normal (A:=list jsstring) [js "precio.txt"]) in H.
  destruct H as [H _].
  destruct (H [js "Price: $999"]) as (cs & w' & events & Hrun & Hlen & _ & Hc & _ & Ht & Hio).
  { repeat constructor. }
  exists cs, w', events. split; [exact Hrun|]. split; [exact Hlen|].
  split; [exact Hc|]. split; [exact Ht|exact Hio].
Defined.

(** C7: the texts of the chunks of a document, put end to end in output
    order, are the content of the document modulo line-boundary
    whitespace; and the empty document gives no chunk. *)
Theorem chunkFile_roundtrip (file content : jsstring) :
  normalize (concat (map text (chunkFile file content))) = normalize content
  ∧ chunkFile file [] = [].
Proof.
  split; [|reflexivity].
  unfold chunkFile, chunkFileInto.
  assert (Forall (λ l, LF ∉ l) (split LF content)) as Hl.
  { apply Forall_forall. intros l. apply split_lines. }
  assert (holds [] [] []) as H0 by (by split).
  pose proof (foldl_chunkLine_holds file _ [] [] [] Hl H0) as H.
  destruct (foldl (chunkLine file) ([], []) (split LF content)) as [acc cur].
  simpl in H. unfold flushChunk.
  pose proof (holds_push acc cur file _ H) as [Hn Ht].
  rewrite normalize_nil, app_nil_r in Hn.
  rewrite normalize_concat.
  - by rewrite map_map, Hn.
  - apply Forall_fmap. eapply Forall_impl; [exact Ht|]. done.
Qed.

(** C8: [generateEmbeddings] ends normally whatever the embedding service
    does; it calls the service once for every chunk, in order; every
    chunk keeps its text and source and gets the vector of the service
    or, where the call failed, a fallback of 768 numbers. The embedding of
    the question ends normally too. *)
Theorem generateEmbeddings_isolates_failures (arr : list TextChunk) (w : World) :
  (∃ out w',
     generateEmbeddings arr w = (Normal out, w')
     ∧ length out = length arr
     ∧ (∀ j c, arr !! j = Some c →
          ∃ c', out !! j = Some c'
                ∧ embeddedBy (env w) (embeddingCalls w + j) c c')
     ∧ embeddingRequests (trace w')
       = embeddingRequests (trace w) ++ map text arr)
  ∧ ∀ question, ∃ v w', embedQuestion question w = (Normal v, w').
Proof.
  split.
  - destruct (run_generateEmbeddings arr w)
      as (out & w' & Hrun & _ & Hlen & Hall & Hreq).
    by exists out, w'.
  - intros question.
    destruct (run_embedQuestion question w) as (w' & Hrun & _). eauto.
Qed.

(** C9, as stated, fails: the chunk of scenario A has 11 characters, and
    its citation carries the marker all the same. *)
Lemma short_chunk_gets_marker :
  length (text sampleChunk) = 11
  ∧ citation_text (citation (mkScoredChunk sampleChunk 1%float))
    = js "Price: $999...".
Proof. split; reflexivity. Qed.

(** C9, amended: the excerpt of every citation is the first 200
    characters of the text of the chunk followed by ['...'], whether or
    not the text is longer than 200 characters. *)
Theorem citation_excerpt (s : ScoredChunk) :
  citation_text (citation s) = take 200 (text (chunk s)) ++ js "..."
  ∧ length (citation_text (citation s))
    = 200 `min` length (text (chunk s)) + 3
  ∧ citation_source (citation s) = source (chunk s)
  ∧ relevance (citation s) = score s.
Proof.
  split; [reflexivity|]. split; [|done].
  cbn [citation citation_text]. unfold substring0, previewLength.
  by rewrite length_app, length_take.
Qed.

(** C10: in every world the module can be in, the chunks that
    [getEmbeddings] returns all have their embedding, so the ranking of
    [POST] never reads an absent one: it ends normally. *)
Theorem getEmbeddings_returns_embedded (w : World) :
  reachable w →
  match (getEmbeddings w).1 with
  | Normal cs =>
      Forall embedded cs
      ∧ ∀ q w1, ∃ ranked, rank q cs w1 = (Normal ranked, w1)
  | Throw _ => True
  end.
Proof.
  intros Hw.
  pose proof (getEmbeddings_embedded w (reachable_cacheEmbedded w Hw)) as [_ H].
  destruct (getEmbeddings w).1 as [cs|e]; [|done].
  specialize (H cs eq_refl). split; [done|].
  intros q w1. eexists. by apply run_rank.
Qed.

(** The second call of [getEmbeddings], after a first one in which every
    call of the embedding service was rejected. *)
Lemma getEmbeddings_returns_embedded_witness :
  reachable (getEmbeddings (startWorld failingEnv)).2
  ∧ match (getEmbeddings (getEmbeddings (startWorld failingEnv)).2).1 with
    | Normal cs =>
        Forall embedded cs
        ∧ ∀ q w1, ∃ ranked, rank q cs w1 = (Normal ranked, w1)
    | Throw _ => True
    end.
Proof.
  assert (reachable (getEmbeddings (startWorld failingEnv)).2) as H
    by (apply reachable_getEmbeddings, reachable_start; reflexivity).
  split; [exact H|].
  exact (getEmbeddings_returns_embedded _ H).
Defined.

(** * Further properties *)

(** ** Lines and groups of lines *)

Section Lines.
Implicit Types (s t l : jsstring) (c d : N) (g : list jsstring).

Lemma join_snoc sep g l :
  g ≠ [] → join sep (g ++ [l]) = join sep g ++ sep ++ l.
Proof.
  induction g as [|x g IH]; [done|]. intros _.
  destruct g as [|y g]; [done|].
  change (join sep ((x :: y :: g) ++ [l]))
    with (x ++ sep ++ join sep ((y :: g) ++ [l])).
  rewrite IH by done.
  change (join sep (x :: y :: g)) with (x ++ sep ++ join sep (y :: g)).
  by rewrite <- !app_assoc.
Qed.

(** [s.split('\n').join('\n')] is [s]. *)
Lemma join_split c s : join [c] (split c s) = s.
Proof.
  induction s as [|d s IH]; [done|]. simpl.
  pose proof (split_nonempty c s) as Hne.
  destruct (N.eqb_spec d c) as [->|Hd].
  - destruct (split c s) as [|l ls] eqn:E; [done|].
    change (join [c] ([] :: l :: ls)) with ([] ++ [c] ++ join [c] (l :: ls)).
    by rewrite IH.
  - destruct (split c s) as [|l ls] eqn:E; [done|].
    destruct ls as [|l' ls]; simpl in *; by rewrite <- IH.
Qed.

Lemma length_join_cons sep l g :
  g ≠ [] → length (join sep (l :: g)) = length l + length sep + length (join sep g).
Proof.
  destruct g as [|x g]; [done|]. intros _.
  change (join sep (l :: x :: g)) with (l ++ sep ++ join sep (x :: g)).
  rewrite !length_app. lia.
Qed.

(** A line of a group is shorter than the join of the group, by one
    separator at least when the group has another line. *)
Lemma length_join_elem sep g l :
  l ∈ g → length g ≠ 1 → length l + length sep ≤ length (join sep g).
Proof.
  induction g as [|x g IH]; [by intros ?%elem_of_nil|].
  intros Hl Hn. destruct g as [|y g]; [done|].
  rewrite length_join_cons by done.
  apply elem_of_cons in Hl as [->|Hl]; [lia|].
  destruct g as [|z g].
  - apply list_elem_of_singleton in Hl as ->. simpl. lia.
  - specialize (IH Hl ltac:(done)). lia.
Qed.

Lemma trimStart_nil_iff s :
  trimStart s = [] ↔ Forall (λ c, isWhiteSpace c = true) s.
Proof.
  induction s as [|c s IH]; simpl; [done|].
  destruct (isWhiteSpace c) eqn:Hc.
  - rewrite IH. split; [by constructor|]. by intros [_ ?]%Forall_cons.
  - split; [done|]. intros [? _]%Forall_cons. congruence.
Qed.

(** A text is blank for [trim] exactly when all of it is whitespace. *)
Lemma trim_nil_iff s :
  trim s = [] ↔ Forall (λ c, isWhiteSpace c = true) s.
Proof.
  rewrite <- trimStart_nil_iff. unfold trim. split.
  - intros H. destruct (trimStart s) as [|c t] eqn:E; [done|].
    assert (isWhiteSpace c = false) as Hc.
    { destruct (trimStart_fixed_first (c :: t)) as [?|(c' & t' & [= <- <-] & ?)];
        [by rewrite <- E, trimStart_idem|done..]. }
    by destruct (trimEnd_cons_nws c t Hc) as [u Hu]; rewrite Hu in H.
  - by intros ->.
Qed.

Lemma Forall_join_LF g :
  Forall (λ c, isWhiteSpace c = true) (join [LF] g)
  ↔ Forall (Forall (λ c, isWhiteSpace c = true)) g.
Proof.
  induction g as [|x g IH]; [by split; constructor|].
  destruct g as [|y g].
  - simpl. split; [by repeat constructor|]. by intros [? _]%Forall_cons.
  - change (join [LF] (x :: y :: g)) with (x ++ [LF] ++ join [LF] (y :: g)).
    rewrite !Forall_app, IH. split.
    + intros (? & _ & ?). by constructor.
    + intros [? ?]%Forall_cons. split; [done|]. split; [|done].
      by repeat constructor.
Qed.

Lemma groupText_nil_iff g :
  groupText g = [] ↔ Forall (Forall (λ c, isWhiteSpace c = true)) g.
Proof. unfold groupText. by rewrite trim_nil_iff, Forall_join_LF. Qed.

Lemma trim_trim s : trim (trim s) = trim s.
Proof. unfold trim at 1. by rewrite trimStart_trim, trimEnd_trim. Qed.

End Lines.

(** ** The chunker, in whole lines *)

Section WholeLines.
Implicit Types (file content cur line : jsstring) (acc : list TextChunk)
  (g : list jsstring) (closed : list (list jsstring)).

Lemma chunksOfGroups_snoc file closed g :
  chunksOfGroups file (closed ++ [g])
  = chunksOfGroups file closed
    ++ (if truthy (groupText g)
        then [mkTextChunk (groupText g) file None] else []).
Proof.
  unfold chunksOfGroups. rewrite map_app, List.filter_app, map_app. f_equal.
  cbn. by destruct (truthy (groupText g)).
Qed.

Lemma grouped_trim cur g :
  cur = join [LF] g ∨ cur = LF :: join [LF] g → trim cur = groupText g.
Proof. intros [->| ->]; [done|]. by apply trim_ws_cons. Qed.

Lemma grouped_length cur g :
  cur = join [LF] g ∨ cur = LF :: join [LF] g →
  length (join [LF] g) ≤ length cur.
Proof. intros [->| ->]; simpl; lia. Qed.

(** Closing the accumulator closes the open group. *)
Lemma grouped_push file acc cur closed g :
  grouped file acc cur closed g →
  ∃ closed',
    (if truthy (trim cur)
     then acc ++ [mkTextChunk (trim cur) file None] else acc)
    = chunksOfGroups file closed'
    ∧ Forall closable closed'
    ∧ concat closed' = concat closed ++ g.
Proof.
  intros (-> & Hcl & [[-> ->]|(Hg & Hcur & Hlen)]).
  - exists closed. cbn. by rewrite app_nil_r.
  - exists (closed ++ [g]). rewrite chunksOfGroups_snoc, (grouped_trim cur g Hcur).
    split; [by destruct (truthy (groupText g)); rewrite ?app_nil_r|].
    split; [|by rewrite concat_app; cbn; rewrite app_nil_r].
    apply Forall_app. split; [done|]. constructor; [|done].
    split; [done|]. destruct Hlen as [?|Hlen]; [by left|right].
    pose proof (grouped_length cur g Hcur). lia.
Qed.

Lemma chunkLine_grouped file acc cur closed g line :
  grouped file acc cur closed g →
  ∃ closed' g',
    grouped file (chunkLine file (acc, cur) line).1
                 (chunkLine file (acc, cur) line).2 closed' g'
    ∧ concat closed' ++ g' = (concat closed ++ g) ++ [line].
Proof.
  intros H. unfold chunkLine.
  destruct (Nat.ltb_spec maxChunk (length cur + length line)) as [Hgt|Hle];
    cbn [fst snd].
  - destruct (grouped_push file acc cur closed g H) as (closed' & -> & Hcl & Hc).
    exists closed', [line]. split; [|by rewrite Hc].
    split; [done|]. split; [done|]. right. split; [done|].
    split; by left.
  - destruct H as (-> & Hcl & [[-> ->]|(Hg & Hcur & Hlen)]).
    + exists closed, [line]. split; [|by rewrite !app_nil_r].
      split; [done|]. split; [done|]. right. split; [done|].
      split; [by right|by left].
    + exists closed, (g ++ [line]). split; [|by rewrite !app_assoc].
      split; [done|]. split; [done|]. right.
      split; [by destruct g|]. split.
      * rewrite join_snoc by done.
        destruct Hcur as [->| ->]; [by left|by right].
      * right. rewrite !length_app. cbn [length]. lia.
Qed.

Lemma foldl_chunkLine_grouped file lines : ∀ acc cur closed g,
  grouped file acc cur closed g →
  ∃ closed' g',
    grouped file (foldl (chunkLine file) (acc, cur) lines).1
                 (foldl (chunkLine file) (acc, cur) lines).2 closed' g'
    ∧ concat closed' ++ g' = (concat closed ++ g) ++ lines.
Proof.
  induction lines as [|line lines IH]; intros acc cur closed g H.
  - exists closed, g. by rewrite app_nil_r.
  - cbn [foldl].
    destruct (chunkLine_grouped file acc cur closed g line H)
      as (closed1 & g1 & H1 & Hc1).
    destruct (chunkLine file (acc, cur) line) as [acc1 cur1].
    destruct (IH acc1 cur1 closed1 g1 H1) as (closed2 & g2 & H2 & Hc2).
    exists closed2, g2. split; [done|].
    by rewrite Hc2, Hc1, <- app_assoc.
Qed.

Lemma chunkFile_grouped file content :
  ∃ groups,
    concat groups = split LF content
    ∧ Forall closable groups
    ∧ chunkFile file content = chunksOfGroups file groups.
Proof.
  unfold chunkFile, chunkFileInto.
  assert (grouped file [] [] [] []) as H0.
  { split; [done|]. split; [done|]. by left. }
  destruct (foldl_chunkLine_grouped file (split LF content) [] [] [] [] H0)
    as (closed & g & H & Hc).
  destruct (foldl (chunkLine file) ([], []) (split LF content)) as [acc cur].
  cbn [fst snd] in H. unfold flushChunk.
  destruct (grouped_push file acc cur closed g H) as (groups & -> & Hcl & Hg).
  exists groups. by rewrite Hg, Hc.
Qed.

Lemma length_closable groups :
  Forall closable groups → length groups ≤ length (concat groups).
Proof.
  induction 1 as [|g groups [Hg _] _ IH]; [done|].
  cbn [concat length]. rewrite length_app.
  destruct g; [done|]. cbn [length]. lia.
Qed.

(** The chunks of a document are made of whole lines: the lines fall
    into consecutive groups, every group of several lines stays within
    the bound plus one once joined, and the chunks are the trimmed joins
    of the groups that are not blank, in order, under the name of the
    file and without embedding. No line is cut and none is left out, and
    there are at most as many chunks as lines. *)
Theorem chunkFile_whole_lines file content :
  ∃ groups,
    concat groups = split LF content
    ∧ Forall closable groups
    ∧ chunkFile file content = chunksOfGroups file groups
    ∧ length (chunkFile file content) ≤ length (split LF content).
Proof.
  destruct (chunkFile_grouped file content) as (groups & Hc & Hcl & He).
  exists groups. do 3 (split; [done|]).
  rewrite He, <- Hc. unfold chunksOfGroups. rewrite length_map.
  etransitivity; [apply List.filter_length_le|]. rewrite length_map.
  by apply length_closable.
Qed.

Lemma elem_of_chunksOfGroups file groups c :
  c ∈ chunksOfGroups file groups
  ↔ ∃ g, g ∈ groups ∧ groupText g ≠ []
         ∧ c = mkTextChunk (groupText g) file None.
Proof.
  unfold chunksOfGroups. rewrite list_elem_of_fmap. split.
  - intros (t & -> & Ht). apply list_elem_of_In, List.filter_In in Ht as [Ht Htr].
    apply list_elem_of_In, list_elem_of_fmap in Ht as (g & -> & Hg).
    exists g. split; [done|]. split; [|done]. by destruct (groupText g).
  - intros (g & Hg & Hne & ->). exists (groupText g). split; [done|].
    apply list_elem_of_In, List.filter_In. split.
    + apply list_elem_of_In, list_elem_of_fmap. eauto.
    + by destruct (groupText g).
Qed.

(** Every chunk is trimmed and not empty, bears the name of its file and
    has no embedding yet. *)
Theorem chunkFile_chunks file content c :
  c ∈ chunkFile file content →
  text c ≠ [] ∧ trim (text c) = text c
  ∧ source c = file ∧ embedding c = None.
Proof.
  destruct (chunkFile_grouped file content) as (groups & _ & _ & ->).
  intros (g & _ & Hne & ->)%elem_of_chunksOfGroups. cbn.
  split; [done|]. split; [apply trim_trim|done].
Qed.

(** A document gives no chunk exactly when all of it is whitespace. *)
Theorem chunkFile_nil_iff file content :
  chunkFile file content = []
  ↔ Forall (λ c, isWhiteSpace c = true) content.
Proof.
  destruct (chunkFile_grouped file content) as (groups & Hc & _ & ->).
  rewrite <- (join_split LF content), Forall_join_LF, <- Hc, Forall_concat.
  split.
  - intros Hnil. apply Forall_forall. intros g Hg.
    apply groupText_nil_iff.
    destruct (groupText g) as [|x t] eqn:E; [done|].
    assert (mkTextChunk (groupText g) file None ∈ chunksOfGroups file groups)
      as Hin.
    { apply elem_of_chunksOfGroups. exists g. by rewrite E. }
    rewrite Hnil in Hin. by apply elem_of_nil in Hin.
  - intros Hall. destruct (chunksOfGroups file groups) as [|c cs] eqn:E; [done|].
    assert (c ∈ chunksOfGroups file groups) as Hin by (rewrite E; left).
    apply elem_of_chunksOfGroups in Hin as (g & Hg & Hne & _).
    rewrite Forall_forall in Hall.
    by apply Hall, groupText_nil_iff in Hg.
Qed.

Lemma elem_of_concat_groups (l : jsstring) groups :
  l ∈ concat groups → ∃ g, l ∈ g ∧ g ∈ groups.
Proof.
  induction groups as [|g groups IH]; cbn; [by intros ?%elem_of_nil|].
  intros [H|H]%elem_of_app.
  - exists g. split; [done|left].
  - destruct (IH H) as (g' & ? & ?). exists g'. split; [done|by right].
Qed.

(** A line of more than 800 characters is a chunk on its own. *)
Theorem chunkFile_oversized_line file content l :
  l ∈ split LF content → maxChunk < length l → trim l ≠ [] →
  mkTextChunk (trim l) file None ∈ chunkFile file content.
Proof.
  intros Hl Hlong Hne.
  destruct (chunkFile_grouped file content) as (groups & Hc & Hcl & ->).
  rewrite <- Hc in Hl. apply elem_of_concat_groups in Hl as (g & Hlg & Hg).
  rewrite Forall_forall in Hcl. destruct (Hcl g Hg) as [_ [H1|Hlen]].
  - destruct g as [|x [|y g]]; try done.
    apply list_elem_of_singleton in Hlg as <-.
    apply elem_of_chunksOfGroups. exists [l]. by split.
  - destruct (decide (length g = 1)) as [H1|H1].
    + destruct g as [|x [|y g]]; try done.
      apply list_elem_of_singleton in Hlg as <-.
      apply elem_of_chunksOfGroups. exists [l]. by split.
    + pose proof (length_join_elem [LF] g l Hlg H1) as Hj.
      cbn [length] in Hj. lia.
Qed.

End WholeLines.

Section SmallDocument.
Implicit Types (file content cur : jsstring) (acc : list TextChunk).

Lemma foldl_chunkLine_small file acc lines : ∀ cur,
  length cur + length (concat (map (cons LF) lines)) ≤ maxChunk + 1 →
  foldl (chunkLine file) (acc, cur) lines
  = (acc, cur ++ concat (map (cons LF) lines)).
Proof.
  induction lines as [|l lines IH]; intros cur H; cbn [foldl map concat].
  - by rewrite app_nil_r.
  - cbn [map concat] in H. rewrite length_app in H. cbn [length] in H.
    unfold chunkLine at 2.
    destruct (Nat.ltb_spec maxChunk (length cur + length l)) as [?|_];
      [lia|].
    rewrite IH.
    + by rewrite <- !app_assoc.
    + rewrite !length_app. cbn [length]. lia.
Qed.

Lemma concat_cons_join (lines : list jsstring) :
  lines ≠ [] → concat (map (cons LF) lines) = LF :: join [LF] lines.
Proof.
  induction lines as [|l lines IH]; [done|]. intros _.
  destruct lines as [|l' lines]; [by cbn; rewrite app_nil_r|].
  cbn [map concat]. cbn [map concat] in IH. by rewrite IH.
Qed.

(** A document of at most 800 characters is one chunk, its trimmed
    content, or none when it is blank. *)
Theorem chunkFile_small file content :
  length content ≤ maxChunk →
  chunkFile file content
  = if truthy (trim content)
    then [mkTextChunk (trim content) file None] else [].
Proof.
  intros H. unfold chunkFile, chunkFileInto.
  rewrite foldl_chunkLine_small;
    rewrite concat_cons_join, join_split by apply split_nonempty.
  - unfold flushChunk. cbn [app]. by rewrite trim_ws_cons.
  - cbn [length]. lia.
Qed.

End SmallDocument.

(** The document of scenario A. *)
Lemma chunkFile_small_witness :
  length (js "Price: $999") ≤ maxChunk
  ∧ chunkFile (js "precio.txt") (js "Price: $999")
    = [mkTextChunk (js "Price: $999") (js "precio.txt") None].
Proof.
  assert (length (js "Price: $999") ≤ maxChunk) as H by (vm_compute; lia).
  split; [exact H|].
  exact (chunkFile_small (js "precio.txt") (js "Price: $999") H).
Defined.

(** The chunk of scenario A. *)
Lemma chunkFile_chunks_witness :
  mkTextChunk (js "Price: $999") (js "precio.txt") None
    ∈ chunkFile (js "precio.txt") (js "Price: $999")
  ∧ trim (js "Price: $999") = js "Price: $999".
Proof.
  assert (mkTextChunk (js "Price: $999") (js "precio.txt") None
            ∈ chunkFile (js "precio.txt") (js "Price: $999")) as H
    by (vm_compute; left).
  split; [exact H|].
  exact (proj1 (proj2 (chunkFile_chunks _ _ _ H))).
Defined.

(** The line of 801 characters of [longDocument]. *)
Lemma chunkFile_oversized_line_witness :
  replicate 801 120%N ∈ split LF longDocument
  ∧ mkTextChunk (replicate 801 120%N) (js "a.txt") None
      ∈ chunkFile (js "a.txt") longDocument.
Proof.
  assert (replicate 801 120%N ∈ split LF longDocument) as H
    by (vm_compute; right; left).
  split; [exact H|].
  apply (chunkFile_oversized_line (js "a.txt") longDocument _ H).
  - vm_compute. lia.
  - vm_compute. discriminate.
Defined.

(** ** [cosineSimilarity]: symmetry and vectors of different lengths *)

Section CosineMore.
Local Open Scope float_scope.
Implicit Types (a b : list float) (x y : float).

Lemma SFmul_comm (X Y : spec_float) :
  SFmul prec emax X Y = SFmul prec emax Y X.
Proof.
  destruct X as [sx|sx| |sx mx ex], Y as [sy|sy| |sy my ey]; try done;
    unfold SFmul; try by rewrite (xorb_comm sx).
  by rewrite (xorb_comm sx), (Pos.mul_comm mx), (Z.add_comm ex).
Qed.

Lemma float_mul_comm x y : x * y = y * x.
Proof. apply Prim2SF_inj. by rewrite !mul_spec, SFmul_comm. Qed.

Lemma is_nan_add_l x y : is_nan x = true → is_nan (x + y) = true.
Proof.
  rewrite !is_nan_spec, add_spec. by destruct (Prim2SF x), (Prim2SF y).
Qed.

Lemma is_nan_add_r x y : is_nan y = true → is_nan (x + y) = true.
Proof.
  rewrite !is_nan_spec, add_spec.
  by destruct (Prim2SF x) as [[]|[]| |[] ? ?], (Prim2SF y).
Qed.

Lemma is_nan_mul_r x y : is_nan y = true → is_nan (x * y) = true.
Proof.
  rewrite !is_nan_spec, mul_spec.
  by destruct (Prim2SF x) as [[]|[]| |[] ? ?], (Prim2SF y).
Qed.

Lemma is_nan_div_l x y : is_nan x = true → is_nan (x / y) = true.
Proof.
  rewrite !is_nan_spec, div_spec. by destruct (Prim2SF x), (Prim2SF y).
Qed.

(** The sum of products, from index [length pa = length pb] on. *)
Lemma dotProduct_from_comm a : ∀ b pa pb acc,
  length a = length b → length pa = length pb →
  reduceFrom (λ sum val i, sum + val * at_index (pb ++ b) i)
    (length pa) a acc
  = reduceFrom (λ sum val i, sum + val * at_index (pa ++ a) i)
    (length pb) b acc.
Proof.
  induction a as [|v a IH]; intros [|u b] pa pb acc Hab Hp; try done.
  cbn [reduceFrom].
  assert (at_index (pb ++ u :: b) (length pa) = u) as ->
    by (unfold at_index; by rewrite list_lookup_middle).
  assert (at_index (pa ++ v :: a) (length pb) = v) as ->
    by (unfold at_index; by rewrite list_lookup_middle).
  rewrite (float_mul_comm u v).
  specialize (IH b (pa ++ [v]) (pb ++ [u]) (acc + v * u)).
  rewrite !length_app, <- !app_assoc in IH. cbn [length app] in IH.
  rewrite !Nat.add_1_r in IH. apply IH; [by injection Hab|lia].
Qed.

Lemma dotProduct_comm a b :
  length a = length b → dotProduct a b = dotProduct b a.
Proof. intros H. by apply (dotProduct_from_comm a b [] [] 0). Qed.

(** For vectors of one length the similarity does not depend on the
    order of its arguments. *)
Theorem cosineSimilarity_comm a b :
  length a = length b → cosineSimilarity a b = cosineSimilarity b a.
Proof.
  intros H. unfold cosineSimilarity.
  by rewrite (dotProduct_comm a b H), (float_mul_comm (magnitude a)).
Qed.

Lemma reduceFrom_is_nan {A : Type} (f : float → A → nat → float)
    (arr : list A) : ∀ i acc,
  (∀ s v j, is_nan s = true → is_nan (f s v j) = true) →
  is_nan acc = true → is_nan (reduceFrom f i arr acc) = true.
Proof.
  induction arr as [|v arr IH]; intros i acc Hf Hacc; [done|].
  cbn [reduceFrom]. apply IH; [done|]. by apply Hf.
Qed.

Lemma dotProduct_from_short b a : ∀ i acc,
  i ≤ length b → length b < i + length a →
  is_nan (reduceFrom (λ sum val i, sum + val * at_index b i) i a acc) = true.
Proof.
  induction a as [|v a IH]; intros i acc Hi Hlen; cbn [length] in Hlen;
    [lia|].
  cbn [reduceFrom]. destruct (decide (i = length b)) as [->|Hne].
  - apply reduceFrom_is_nan; [intros; by apply is_nan_add_l|].
    apply is_nan_add_r, is_nan_mul_r. unfold at_index.
    by rewrite lookup_ge_None_2.
  - apply IH; lia.
Qed.

(** When the second vector is the shorter one, the similarity is NaN:
    the product reads [b[i]] past the end of [b]. *)
Theorem cosineSimilarity_short_second a b :
  length b < length a → is_nan (cosineSimilarity a b) = true.
Proof.
  intros H. unfold cosineSimilarity. apply is_nan_div_l.
  apply dotProduct_from_short; lia.
Qed.

End CosineMore.

(** The vectors [1; 2] and [3; 4]. *)
Lemma cosineSimilarity_comm_witness :
  length [1; 2]%float = length [3; 4]%float
  ∧ cosineSimilarity [1; 2]%float [3; 4]%float
    = cosineSimilarity [3; 4]%float [1; 2]%float.
Proof.
  split; [reflexivity|].
  apply (cosineSimilarity_comm [1; 2]%float [3; 4]%float). reflexivity.
Defined.

(** A vector of three numbers against one of two. *)
Lemma cosineSimilarity_short_second_witness :
  length [3; 4]%float < length [1; 2; 3]%float
  ∧ is_nan (cosineSimilarity [1; 2; 3]%float [3; 4]%float) = true.
Proof.
  assert (length [3; 4]%float < length [1; 2; 3]%float) as H by (simpl; lia).
  split; [exact H|].
  exact (cosineSimilarity_short_second _ _ H).
Defined.

(** ** [loadAndChunkFiles]: what is read, and in which order *)

Section LoadingOrder.
Implicit Types (w : World) (file content : jsstring)
  (files names : list jsstring) (acc : list TextChunk).

(** When the directory and all its text and Markdown files can be read,
    [loadAndChunkFiles] returns the chunks of these files, file after
    file in the order of the directory, and does nothing but list the
    directory and read each of these files once, in that order: an entry
    with another extension is not opened. *)
Theorem loadAndChunkFiles_reads w names contents :
  readdir (env w) = Normal names →
  Forall2 (holdsContent (env w)) (List.filter isKnowledgeFile names) contents →
  loadAndChunkFiles w
  = (Normal (concat (zip_with chunkFile
                       (List.filter isKnowledgeFile names) contents)),
     logged (EvReaddir :: map EvReadFile (List.filter isKnowledgeFile names)) w).
Proof.
  intros Hd Hall. unfold loadAndChunkFiles. rewrite run_bind.
  unfold fs_readdirSync at 1. rewrite Hd. cbn iota beta.
  rewrite <- (app_nil_r (List.filter isKnowledgeFile names)) at 1.
  rewrite (forOf_read_prefix _ contents [] [] (emit EvReaddir w)) by exact Hall.
  cbn [forOf]. by rewrite run_ret, emit_logged, logged_logged.
Qed.

(** The first file that cannot be read ends [loadAndChunkFiles]: it
    throws the error of that file, the chunks of the files read before
    are lost, and the files after it are not opened. *)
Theorem loadAndChunkFiles_first_failure w names pre file post contents e :
  readdir (env w) = Normal names →
  List.filter isKnowledgeFile names = pre ++ file :: post →
  Forall2 (holdsContent (env w)) pre contents →
  readFile (env w) file = Throw e →
  loadAndChunkFiles w
  = (Throw e, logged (EvReaddir :: map EvReadFile (pre ++ [file])) w).
Proof.
  intros Hd Hf Hall He. unfold loadAndChunkFiles. rewrite run_bind.
  unfold fs_readdirSync at 1. rewrite Hd, Hf. cbn iota beta.
  rewrite (forOf_read_prefix _ contents _ [] (emit EvReaddir w)) by exact Hall.
  cbn [forOf]. rewrite run_bind, run_bind. unfold fs_readFileSync at 1.
  cbn [env logged emit]. rewrite He. cbn iota beta.
  rewrite !emit_logged, !logged_logged.
  by rewrite map_app.
Qed.

End LoadingOrder.

(** The directory of [mixedEnv]: [notes.pdf] is not opened. *)
Lemma loadAndChunkFiles_reads_witness :
  readdir (env (startWorld mixedEnv))
  = Normal [js "a.txt"; js "notes.pdf"; js "b.md"; js "c.txt"]
  ∧ loadAndChunkFiles (startWorld mixedEnv)
    = (Normal [mkTextChunk (js "texto de a.txt") (js "a.txt") None;
               mkTextChunk (js "texto de b.md") (js "b.md") None;
               mkTextChunk (js "texto de c.txt") (js "c.txt") None],
       logged [EvReaddir; EvReadFile (js "a.txt"); EvReadFile (js "b.md");
               EvReadFile (js "c.txt")]
         (startWorld mixedEnv)).
Proof.
  split; [reflexivity|].
  apply (loadAndChunkFiles_reads (startWorld mixedEnv)
           [js "a.txt"; js "notes.pdf"; js "b.md"; js "c.txt"]
           [js "texto de a.txt"; js "texto de b.md"; js "texto de c.txt"]).
  - reflexivity.
  - vm_compute. repeat constructor.
Defined.

(** The directory of [brokenEnv]: [b.md] fails, [c.txt] is not opened. *)
Lemma loadAndChunkFiles_first_failure_witness :
  readFile (env (startWorld brokenEnv)) (js "b.md") = Throw (FsError (js "b.md"))
  ∧ loadAndChunkFiles (startWorld brokenEnv)
    = (Throw (FsError (js "b.md")),
       logged [EvReaddir; EvReadFile (js "a.txt"); EvReadFile (js "b.md")]
         (startWorld brokenEnv)).
Proof.
  split; [reflexivity|].
  apply (loadAndChunkFiles_first_failure (startWorld brokenEnv)
           [js "a.txt"; js "notes.pdf"; js "b.md"; js "c.txt"]
           [js "a.txt"] (js "b.md") [js "c.txt"] [js "uno"]).
  - reflexivity.
  - vm_compute. reflexivity.
  - repeat constructor.
  - reflexivity.
Defined.

(** ** [getEmbeddings]: one call after another *)

Section CacheTwice.
Implicit Types (w : World) (cs : list TextChunk).

Lemma getEmbeddings_snapshot w cs w1 :
  getEmbeddings w = (Normal cs, w1) →
  ∃ stamp, cachedData w1 = Some (mkCachedEmbeddings cs stamp).
Proof.
  intros Hrun. rewrite run_getEmbeddings in Hrun.
  assert (∀ w0, rebuild w0 = (Normal cs, w1) →
            ∃ stamp, cachedData w1 = Some (mkCachedEmbeddings cs stamp))
    as Hre.
  { intros w0 H0.
    destruct (run_rebuild w0) as (r & w' & events & Hr & _ & _ & _ & Hcase).
    rewrite H0 in Hr. injection Hr as <- <-.
    destruct Hcase as (Hc & _). eauto. }
  destruct (cachedData w) as [c|] eqn:Ec; [|by apply (Hre w)].
  destruct (clock (env w) (clockReads w) - timestamp c <? freshness)%Z;
    [|by apply (Hre (Date_now w).2)].
  injection Hrun as <- <-. exists (timestamp c). cbn.
  rewrite Ec. by destruct c.
Qed.

Lemma getEmbeddings_fresh w cs stamp :
  cachedData w = Some (mkCachedEmbeddings cs stamp) →
  (clock (env w) (clockReads w) - stamp < 3600000)%Z →
  ∃ w',
    getEmbeddings w = (Normal cs, w')
    ∧ cachedData w' = cachedData w
    ∧ trace w' = trace w ++ [EvDateNow; EvConsole LogCacheHit].
Proof.
  intros Hc Hfresh. rewrite run_getEmbeddings, Hc.
  cbn [timestamp chunks]. unfold freshness.
  apply Z.ltb_lt in Hfresh. rewrite Hfresh.
  eexists. split; [reflexivity|]. cbn. split; [done|].
  by rewrite <- app_assoc.
Qed.

(** What [getEmbeddings] returns is what the snapshot holds afterwards;
    so a later call that finds this snapshot less than an hour old
    returns the same chunks, and does nothing but read the clock and
    write to the console. *)
Theorem getEmbeddings_then_cached w cs w1 :
  getEmbeddings w = (Normal cs, w1) →
  ∃ stamp,
    cachedData w1 = Some (mkCachedEmbeddings cs stamp)
    ∧ ∀ w2,
        cachedData w2 = cachedData w1 →
        (clock (env w2) (clockReads w2) - stamp < 3600000)%Z →
        ∃ w3,
          getEmbeddings w2 = (Normal cs, w3)
          ∧ cachedData w3 = cachedData w1
          ∧ trace w3 = trace w2 ++ [EvDateNow; EvConsole LogCacheHit].
Proof.
  intros Hrun.
  destruct (getEmbeddings_snapshot w cs w1 Hrun) as [stamp Hc].
  exists stamp. split; [exact Hc|].
  intros w2 H2 Hfresh. rewrite <- H2.
  apply (getEmbeddings_fresh w2 cs stamp); [by rewrite H2|done].
Qed.

End CacheTwice.

(** Two calls in a row, from the start of the module, in scenario A. *)
Lemma getEmbeddings_then_cached_witness :
  getEmbeddings (startWorld sampleEnv)
  = (Normal [sampleChunk], (getEmbeddings (startWorld sampleEnv)).2)
  ∧ (getEmbeddings (getEmbeddings (startWorld sampleEnv)).2).1
    = Normal [sampleChunk].
Proof.
  assert (getEmbeddings (startWorld sampleEnv)
          = (Normal [sampleChunk], (getEmbeddings (startWorld sampleEnv)).2))
    as H by (vm_compute; reflexivity).
  split; [exact H|].
  destruct (getEmbeddings_then_cached _ _ _ H) as (stamp & Hc & Hnext).
  assert (stamp = 0%Z) as ->.
  { vm_compute in Hc. by injection Hc. }
  destruct (Hnext (getEmbeddings (startWorld sampleEnv)).2 eq_refl)
    as (w3 & -> & _); [vm_compute; reflexivity|reflexivity].
Defined.

(** ** The ranking: what is kept and what is dropped *)

Section RankMore.
Implicit Types (arr : list TextChunk) (w : World) (q : list float).

Lemma StronglySorted_app_elem {A : Type} (R : A → A → Prop) (l1 l2 : list A) :
  StronglySorted R (l1 ++ l2) → ∀ x y, x ∈ l1 → y ∈ l2 → R x y.
Proof.
  induction l1 as [|a l1 IH]; intros Hs x y Hx Hy;
    [by apply elem_of_nil in Hx|].
  cbn in Hs. apply StronglySorted_inv in Hs as [Hs Ha].
  apply elem_of_cons in Hx as [->|Hx]; [|by apply IH].
  rewrite Forall_forall in Ha. apply Ha, elem_of_app. by right.
Qed.

(** The ranking keeps chunks of the corpus, each with its own score and
    none twice, whatever the scores are; when the scores are numbers, no
    chunk that is dropped scores higher than a chunk that is kept. *)
Theorem rank_keeps_best q arr w :
  Forall embedded arr →
  ∃ ranked rest,
    rank q arr w = (Normal ranked, w)
    ∧ ranked ++ rest ≡ₚ scoreList q arr
    ∧ (Forall isNumber (scoreList q arr) →
       ∀ s t, s ∈ ranked → t ∈ rest → ranksNoLower s t).
Proof.
  intros He.
  exists (take topK (Array_sort byScoreDescending (scoreList q arr))),
         (drop topK (Array_sort byScoreDescending (scoreList q arr))).
  split; [by apply run_rank|]. rewrite take_drop.
  split; [apply Array_sort_Permutation|].
  intros Hn. apply StronglySorted_app_elem. rewrite take_drop.
  by apply Array_sort_sorted.
Qed.

Lemma mapM_scoreChunk_throws q arr w :
  Exists (λ c, embedding c = None) arr →
  mapM (scoreChunk q) arr w = (Throw TypeError, w).
Proof.
  induction arr as [|c arr IH]; intros H; [by apply Exists_nil in H|].
  cbn [mapM]. rewrite run_bind. unfold scoreChunk at 1.
  destruct (embedding c) as [v|] eqn:Ev; [|done].
  rewrite run_ret. cbn iota beta. rewrite run_bind.
  apply Exists_cons in H as [H|H]; [congruence|].
  by rewrite IH.
Qed.

(** A chunk without embedding makes the ranking throw a [TypeError]:
    [cosineSimilarity] reads [reduce] of [undefined]. *)
Theorem rank_needs_embeddings q arr w :
  Exists (λ c, embedding c = None) arr →
  rank q arr w = (Throw TypeError, w).
Proof.
  intros H. unfold rank. rewrite run_bind.
  by rewrite mapM_scoreChunk_throws.
Qed.

Lemma rank_length q arr w ranked w' :
  rank q arr w = (Normal ranked, w') → length ranked ≤ topK.
Proof.
  unfold rank. rewrite run_bind.
  destruct (mapM (scoreChunk q) arr w) as [[scored|e] w0]; [|done].
  rewrite run_ret. intros [= <- _]. rewrite length_take. lia.
Qed.

End RankMore.

(** ** [[...new Set(xs)]] *)

Section Distinct.
Implicit Types (x y : jsstring) (xs seen : list jsstring).

Lemma distinct_from seen xs :
  NoDup seen →
  NoDup (foldl (λ seen x, if bool_decide (x ∈ seen) then seen else seen ++ [x])
           seen xs)
  ∧ ∀ y, y ∈ foldl (λ seen x, if bool_decide (x ∈ seen) then seen else seen ++ [x])
               seen xs
         ↔ y ∈ seen ∨ y ∈ xs.
Proof.
  revert seen. induction xs as [|x xs IH]; intros seen Hs; cbn [foldl].
  - split; [done|]. intros y. rewrite elem_of_nil. tauto.
  - destruct (bool_decide_reflect (x ∈ seen)) as [Hin|Hout].
    + destruct (IH seen Hs) as [Hn He]. split; [done|].
      intros y. rewrite He, elem_of_cons. split; [tauto|].
      intros [?|[->|?]]; tauto.
    + assert (NoDup (seen ++ [x])) as Hs'.
      { apply NoDup_app. split; [done|]. split; [|apply NoDup_singleton].
        intros y Hy ->%list_elem_of_singleton. done. }
      destruct (IH _ Hs') as [Hn He]. split; [done|].
      intros y. rewrite He, elem_of_app, list_elem_of_singleton, elem_of_cons.
      tauto.
Qed.

Lemma NoDup_distinct xs : NoDup (distinct xs).
Proof. apply distinct_from, NoDup_nil_2. Qed.

Lemma elem_of_distinct xs y : y ∈ distinct xs ↔ y ∈ xs.
Proof.
  destruct (distinct_from [] xs (NoDup_nil_2)) as [_ H].
  unfold distinct. rewrite H, elem_of_nil. tauto.
Qed.

Lemma length_distinct xs : length (distinct xs) ≤ length xs.
Proof.
  unfold distinct.
  assert (∀ seen,
    length (foldl (λ seen x, if bool_decide (x ∈ seen) then seen else seen ++ [x])
              seen xs) ≤ length seen + length xs) as H.
  { induction xs as [|x xs IH]; intros seen; cbn [foldl length]; [lia|].
    destruct (bool_decide (x ∈ seen)).
    - specialize (IH seen). lia.
    - specialize (IH (seen ++ [x])). rewrite length_app in IH. cbn in IH. lia. }
  apply (H []).
Qed.

Lemma filter_absent_snoc seen y xs :
  List.filter (λ z, bool_decide (z ∉ seen ++ [y])) xs
  = List.filter (λ z, bool_decide (z ≠ y))
      (List.filter (λ z, bool_decide (z ∉ seen)) xs).
Proof.
  induction xs as [|x xs IH]; [done|]. cbn [List.filter].
  destruct (bool_decide_reflect (x ∉ seen)) as [Hs|Hs].
  - cbn [List.filter]. rewrite <- IH.
    destruct (bool_decide_reflect (x ≠ y)) as [Hy|Hy].
    + rewrite bool_decide_eq_true_2; [done|].
      rewrite elem_of_app, list_elem_of_singleton. tauto.
    + rewrite bool_decide_eq_false_2; [done|].
      rewrite elem_of_app, list_elem_of_singleton.
      destruct (decide (x = y)); tauto.
  - rewrite <- IH. rewrite bool_decide_eq_false_2; [done|].
    rewrite elem_of_app. intros H. apply Hs. intros ?. apply H. by left.
Qed.

Lemma distinct_from_absent n : ∀ xs seen,
  length xs ≤ n →
  foldl (λ seen x, if bool_decide (x ∈ seen) then seen else seen ++ [x]) seen xs
  = seen ++ distinct (List.filter (λ z, bool_decide (z ∉ seen)) xs).
Proof.
  unfold distinct.
  induction n as [|n IH]; intros [|y ys] seen Hlen; cbn [length] in Hlen;
    try lia; cbn [foldl List.filter]; try by rewrite app_nil_r.
  destruct (bool_decide_reflect (y ∈ seen)) as [Hin|Hout].
  - rewrite bool_decide_eq_false_2 by tauto. apply IH. lia.
  - rewrite bool_decide_eq_true_2 by done. cbn [foldl].
    rewrite bool_decide_eq_false_2 by apply not_elem_of_nil. cbn [app].
    rewrite (IH ys (seen ++ [y])) by lia.
    rewrite (IH (List.filter _ ys) [y]).
    + rewrite <- app_assoc. do 2 f_equal. rewrite filter_absent_snoc.
      f_equal. apply List.filter_ext. intros z.
      apply bool_decide_ext. rewrite list_elem_of_singleton. done.
    + pose proof (List.filter_length_le (λ z, bool_decide (z ∉ seen)) ys). lia.
Qed.

(** The distinct values come in the order of their first occurrence. *)
Lemma distinct_cons x xs :
  distinct (x :: xs)
  = x :: distinct (List.filter (λ y, bool_decide (y ≠ x)) xs).
Proof.
  unfold distinct at 1. cbn [foldl].
  rewrite bool_decide_eq_false_2 by apply not_elem_of_nil. cbn [app].
  rewrite (distinct_from_absent (length xs) xs [x]) by done.
  cbn [app]. do 2 f_equal. apply List.filter_ext. intros z.
  apply bool_decide_ext. by rewrite list_elem_of_singleton.
Qed.

End Distinct.

(** ** The handler, case by case *)

Section HandleCases.
Variable context : list ScoredChunk → jsstring.
Variable request : jsstring → jsstring → OpenAI.ChatRequest.
Implicit Types (w : World) (req : Completion JsBody) (body : JsBody)
  (question : jsstring).

Lemma run_destructureQuestion body w :
  (destructureQuestion body w).2 = w.
Proof. by destruct body as [fields|[]]. Qed.

Lemma validQuestion_Some v question :
  validQuestion v = Some question ↔ v = JsString question ∧ truthy question = true.
Proof.
  destruct v as [| | | |s|]; cbn; try (split; [done|by intros [? _]]).
  destruct (truthy s) eqn:E; split.
  - by intros [= ->].
  - by intros [[= ->] _].
  - done.
  - intros [[= ->] ?]. congruence.
Qed.

Lemma run_failed (m : M NextResponse) e w w' :
  m w = (Throw e, w') →
  tryCatch m
    (λ error,
       _ ← console (ErrAnswer error);
       mret (mkResponse (ErrorBody msgFailed (Some error)) 500)) w
  = (Normal (mkResponse (ErrorBody msgFailed (Some e)) 500),
     emit (EvConsole (ErrAnswer e)) w').
Proof. intros H. rewrite run_tryCatch, H. by rewrite run_bind, run_console. Qed.

Lemma run_succeeded (m : M NextResponse) r w w' :
  m w = (Normal r, w') →
  tryCatch m
    (λ error,
       _ ← console (ErrAnswer error);
       mret (mkResponse (ErrorBody msgFailed (Some error)) 500)) w
  = (Normal r, w').
Proof. intros H. by rewrite run_tryCatch, H. Qed.

(** The handler on a valid question, once the chunks are there: all
    depends on what the generation service answers. *)
Lemma run_handle_valid body question w arr w1 :
  destructureQuestion body w = (Normal (JsString question), w) →
  truthy question = true →
  getEmbeddings w = (Normal arr, w1) →
  Forall embedded arr →
  ∃ qe w2,
    embedQuestion question w1 = (Normal qe, w2)
    ∧ keeps w1 w2
    ∧ let ranked := take topK (Array_sort byScoreDescending (scoreList qe arr)) in
      let rq := request (context ranked) question in
      let w3 := (chat_completions_create rq w2).2 in
      handle context request (Normal body) w
      = match chatService (env w2) (chatCalls w2) rq with
        | Normal completion =>
            match OpenAI.choices completion with
            | c :: _ =>
                (Normal (mkResponse
                           (AnswerBody (OpenAI.message_content c)
                              (citations ranked)
                              (distinct (map (λ c, source (chunk c)) ranked)))
                           200), w3)
            | [] =>
                (Normal (mkResponse (ErrorBody msgFailed (Some TypeError)) 500),
                 emit (EvConsole (ErrAnswer TypeError)) w3)
            end
        | Throw e =>
            (Normal (mkResponse (ErrorBody msgFailed (Some e)) 500),
             emit (EvConsole (ErrAnswer e)) w3)
        end.
Proof.
  intros Hq Ht Hget Hemb.
  destruct (run_embedQuestion question w1) as (w2 & Hqe & Hk).
  set (qe := default _ _) in Hqe.
  exists qe, w2. split; [exact Hqe|]. split; [exact Hk|].
  intros ranked rq w3.
  pose proof (run_rank qe arr w2 Hemb) as Hrank. fold ranked in Hrank.
  unfold handle.
  set (m := (parsed ← _; _) : M NextResponse).
  assert (m w = (match chatService (env w2) (chatCalls w2) rq with
                   | Normal completion =>
                       match OpenAI.choices completion with
                       | c :: _ =>
                           (Normal (mkResponse
                                      (AnswerBody (OpenAI.message_content c)
                                         (citations ranked)
                                         (distinct (map (λ c, source (chunk c)) ranked)))
                                      200), w3)
                       | [] => (Throw TypeError, w3)
                       end
                   | Throw e => (Throw e, w3)
                   end)) as Hm.
  { unfold m. rewrite run_bind. cbn iota beta.
    rewrite run_bind, Hq. cbn iota beta.
    unfold validQuestion. rewrite Ht.
    rewrite run_bind, Hget. cbn iota beta.
    rewrite run_bind, Hqe. cbn iota beta.
    rewrite run_bind, Hrank. cbn iota beta.
    rewrite run_bind. unfold w3, chat_completions_create.
    cbn [fst snd]. fold rq.
    destruct (chatService (env w2) (chatCalls w2) rq)
      as [[[|[answer] rest]]|e]; cbn iota beta; [| |done].
    - rewrite run_bind. by unfold firstAnswer at 1.
    - rewrite run_bind. by unfold firstAnswer at 1. }
  destruct (chatService (env w2) (chatCalls w2) rq) as [[[|c rest]]|e];
    cbn [OpenAI.choices] in *.
  - by apply run_failed.
  - by apply run_succeeded.
  - by apply run_failed.
Qed.

(** Every run of the handler is one of three. *)
Lemma handle_cases req w :
  (handle context request req w
     = (Normal (mkResponse (ErrorBody msgInvalid None) 400), w)
   ∧ ∃ body v, req = Normal body
               ∧ destructureQuestion body w = (Normal v, w)
               ∧ validQuestion v = None)
  ∨ (∃ e w',
       handle context request req w
       = (Normal (mkResponse (ErrorBody msgFailed (Some e)) 500),
          emit (EvConsole (ErrAnswer e)) w'))
  ∨ (∃ body question answer ranked w',
       req = Normal body
       ∧ destructureQuestion body w = (Normal (JsString question), w)
       ∧ truthy question = true
       ∧ length ranked ≤ topK
       ∧ (∃ arr w1, getEmbeddings w = (Normal arr, w1)
                    ∧ cachedData w' = cachedData w1)
       ∧ handle context request req w
         = (Normal (mkResponse
                      (AnswerBody answer (citations ranked)
                         (distinct (map (λ c, source (chunk c)) ranked)))
                      200), w')).
Proof.
  unfold handle.
  set (m := (parsed ← _; _) : M NextResponse).
  destruct req as [body|e].
  2: { right; left. exists e, w. by apply run_failed. }
  pose proof (run_destructureQuestion body w) as Hw.
  destruct (destructureQuestion body w) as [[v|e] w0] eqn:Ed;
    cbn [snd] in Hw; subst w0.
  2: { right; left. exists e, w. apply run_failed.
       unfold m. rewrite run_bind. cbn iota beta. by rewrite run_bind, Ed. }
  destruct (validQuestion v) as [question|] eqn:Ev.
  2: { left. split; [|by exists body, v].
       apply run_succeeded. unfold m. rewrite run_bind. cbn iota beta.
       by rewrite run_bind, Ed, Ev. }
  apply validQuestion_Some in Ev as [-> Ht].
  right.
  assert (m w = (arr ← getEmbeddings;
                   questionEmbedding ← embedQuestion question;
                   scoredChunks ← rank questionEmbedding arr;
                   completion ← chat_completions_create
                                  (request (context scoredChunks) question);
                   answer ← firstAnswer completion;
                   mret (mkResponse
                           (AnswerBody answer (citations scoredChunks)
                              (distinct (map (λ c, source (chunk c)) scoredChunks)))
                           200)) w) as Hm.
  { unfold m. rewrite run_bind. cbn iota beta.
    rewrite run_bind, Ed. cbn iota beta. unfold validQuestion. by rewrite Ht. }
  rewrite run_bind in Hm.
  destruct (getEmbeddings w) as [[arr|e] w1] eqn:Eg.
  2: { left. exists e, w1. by apply run_failed. }
  cbn iota beta in Hm. rewrite run_bind in Hm.
  destruct (run_embedQuestion question w1) as (w2 & Hqe & _ & Hc2 & _).
  rewrite Hqe in Hm. cbn iota beta in Hm. rewrite run_bind in Hm.
  pose proof (rank_world (default (nextDraws w1)
                (serviceVector (env w1) (embeddingCalls w1) question)) arr w2) as Hrw.
  destruct (rank _ arr w2) as [[ranked|e] w2'] eqn:Er; cbn [snd] in Hrw; subst w2'.
  2: { left. exists e, w2. by apply run_failed. }
  apply rank_length in Er. cbn iota beta in Hm. rewrite run_bind in Hm.
  unfold chat_completions_create at 1 in Hm.
  destruct (chatService (env w2) (chatCalls w2)
              (request (context ranked) question))
    as [[[|[answer] rest]]|e]; cbn iota beta in Hm.
  - left. eexists _, _. apply run_failed. rewrite Hm.
    rewrite run_bind. by unfold firstAnswer at 1.
  - right.
    exists body, question, answer, ranked,
      (chat_completions_create (request (context ranked) question) w2).2.
    do 4 (split; [done|]). split; [by exists arr, w1|].
    apply run_succeeded. rewrite Hm.
    rewrite run_bind. by unfold firstAnswer at 1.
  - left. eexists _, _. by apply run_failed.
Qed.

(** The handler on a question that is not valid. *)
Lemma run_handle_invalid body v w :
  destructureQuestion body w = (Normal v, w) →
  validQuestion v = None →
  handle context request (Normal body) w
  = (Normal (mkResponse (ErrorBody msgInvalid None) 400), w).
Proof.
  intros Hd Hv. unfold handle. apply run_succeeded.
  rewrite run_bind. cbn iota beta. by rewrite run_bind, Hd, Hv.
Qed.

Lemma validQuestion_None v :
  validQuestion v = None ↔ ∀ q, v = JsString q → q = [].
Proof.
  destruct v as [| | | |s|]; cbn; try (split; [by intros _ q [=]|done]).
  destruct s as [|c s]; cbn; split; try done.
  - by intros _ q [= <-].
  - intros H. by specialize (H (c :: s) eq_refl).
Qed.

(** The handler on a valid question, in a world the module can be in:
    the call of the generation service is the next one, and the
    response depends on what it answers. *)
Lemma run_handle_reachable body question w arr w1 :
  reachable w →
  destructureQuestion body w = (Normal (JsString question), w) →
  truthy question = true →
  getEmbeddings w = (Normal arr, w1) →
  ∃ qe w2 ranked,
    embedQuestion question w1 = (Normal qe, w2)
    ∧ rank qe arr w2 = (Normal ranked, w2)
    ∧ cachedData w2 = cachedData w1
    ∧ let rq := request (context ranked) question in
      let w3 := (chat_completions_create rq w2).2 in
      handle context request (Normal body) w
      = match chatService (env w) (chatCalls w) rq with
        | Normal completion =>
            match OpenAI.choices completion with
            | c :: _ =>
                (Normal (mkResponse
                           (AnswerBody (OpenAI.message_content c)
                              (citations ranked)
                              (distinct (map (λ c, source (chunk c)) ranked)))
                           200), w3)
            | [] =>
                (Normal (mkResponse (ErrorBody msgFailed (Some TypeError)) 500),
                 emit (EvConsole (ErrAnswer TypeError)) w3)
            end
        | Throw e =>
            (Normal (mkResponse (ErrorBody msgFailed (Some e)) 500),
             emit (EvConsole (ErrAnswer e)) w3)
        end.
Proof.
  intros Hw Hq Ht Hget.
  assert (Forall embedded arr) as Hemb.
  { pose proof (getEmbeddings_embedded w (reachable_cacheEmbedded w Hw)) as [_ H].
    apply H. by rewrite Hget. }
  destruct (run_handle_valid body question w arr w1 Hq Ht Hget Hemb)
    as (qe & w2 & Hqe & (_ & Hc2 & _) & Hrun).
  exists qe, w2, (take topK (Array_sort byScoreDescending (scoreList qe arr))).
  split; [exact Hqe|]. split; [by apply run_rank|]. split; [exact Hc2|].
  destruct (keepsCalls_getEmbeddings w) as [He1 Hn1].
  destruct (keepsCalls_embedQuestion question w1) as [He2 Hn2].
  rewrite Hget in He1, Hn1. rewrite Hqe in He2, Hn2. cbn [snd] in *.
  cbn zeta in Hrun |- *.
  by rewrite <- He1, <- He2, <- Hn1, <- Hn2.
Qed.

(** When the directory and its files can be read, [getEmbeddings] ends
    normally. *)
Lemma getEmbeddings_readable w names contents :
  readdir (env w) = Normal names →
  Forall2 (holdsContent (env w)) (List.filter isKnowledgeFile names) contents →
  ∃ arr w1, getEmbeddings w = (Normal arr, w1).
Proof.
  intros Hd Hall. rewrite run_getEmbeddings.
  assert (∀ w0, env w0 = env w → ∃ arr w1, rebuild w0 = (Normal arr, w1))
    as Hre.
  { intros w0 H0. rewrite <- H0 in Hd, Hall.
    destruct (run_rebuild_readable w0 names contents Hd Hall)
      as (cs & w' & _ & Hr & _). eauto. }
  destruct (cachedData w) as [c|]; [|by apply Hre].
  destruct (clock (env w) (clockReads w) - timestamp c <? freshness)%Z;
    [by eexists _, _|by apply Hre].
Qed.

End HandleCases.

(** ** The handler: what a caller can rely on *)

Section HandlerContract.
Variable context : list ScoredChunk → jsstring.
Variable request : jsstring → jsstring → OpenAI.ChatRequest.
Implicit Types (w : World) (req : Completion JsBody) (body : JsBody)
  (question : jsstring).

(** [POST] (either copy: [handle] with the context and the request of
    the copy) never throws, whatever the request, the files and the
    services do. Its response has status 200 with an answer body, or
    400 with the message of the invalid question and the world as it
    was, or 500 with the message of the failure and the error caught,
    which is the last thing written to the console. *)
Theorem POST_always_responds req w :
  ∃ resp w',
    handle context request req w = (Normal resp, w')
    ∧ ((status resp = 200
        ∧ ∃ answer cites sources, body resp = AnswerBody answer cites sources)
       ∨ (status resp = 400
          ∧ body resp = ErrorBody msgInvalid None ∧ w' = w)
       ∨ (status resp = 500
          ∧ ∃ e, body resp = ErrorBody msgFailed (Some e)
                 ∧ last (trace w') = Some (EvConsole (ErrAnswer e)))).
Proof.
  destruct (handle_cases context request req w)
    as [[-> _]|[(e & w' & ->)|(b & q & answer & ranked & w' & _ & _ & _ & _ & _ & ->)]].
  - eexists _, _. split; [reflexivity|]. right; left. done.
  - eexists _, _. split; [reflexivity|]. right; right. split; [done|].
    exists e. split; [done|]. unfold emit; cbn [trace]. apply last_snoc.
  - eexists _, _. split; [reflexivity|]. left. split; [done|]. cbn. eauto.
Qed.

(** The response is the 400 one exactly when the body was parsed and
    destructured and its [question] is not a non-empty string; it then
    carries the message of the invalid question, and nothing is read,
    called or written. *)
Theorem POST_rejects_invalid req w :
  ((∃ resp w', handle context request req w = (Normal resp, w')
               ∧ status resp = 400)
   ↔ ∃ body v, req = Normal body
               ∧ destructureQuestion body w = (Normal v, w)
               ∧ ∀ q, v = JsString q → q = [])
  ∧ ∀ resp w',
      handle context request req w = (Normal resp, w') →
      status resp = 400 →
      resp = mkResponse (ErrorBody msgInvalid None) 400 ∧ w' = w.
Proof.
  split; [split|].
  - intros (resp & w' & Hrun & Hst).
    destruct (handle_cases context request req w)
      as [[H (b & v & ? & ? & Hv)]
         |[(e & w0 & H)|(b & q & answer & ranked & w0 & _ & _ & _ & _ & _ & H)]].
    + exists b, v. do 2 (split; [done|]). by apply validQuestion_None.
    + rewrite H in Hrun. injection Hrun as <- <-. done.
    + rewrite H in Hrun. injection Hrun as <- <-. done.
  - intros (b & v & -> & Hd & Hv). apply validQuestion_None in Hv.
    rewrite (run_handle_invalid context request b v w Hd Hv). by eexists _, _.
  - intros resp w' Hrun Hst.
    destruct (handle_cases context request req w)
      as [[H _]
         |[(e & w0 & H)|(b & q & answer & ranked & w0 & _ & _ & _ & _ & _ & H)]];
      rewrite H in Hrun; injection Hrun as <- <-; done.
Qed.

(** An answer body comes with status 200, at most three citations, each
    an excerpt of at most 203 characters, and the sources of the
    citations, each once, in the order of the citations. *)
Theorem POST_answer_shape req w answer cites sources st w' :
  handle context request req w
  = (Normal (mkResponse (AnswerBody answer cites sources) st), w') →
  st = 200
  ∧ length cites ≤ 3
  ∧ Forall (λ c, length (citation_text c) ≤ 203) cites
  ∧ sources = distinct (map citation_source cites)
  ∧ NoDup sources
  ∧ (∀ s, s ∈ sources ↔ ∃ c, c ∈ cites ∧ citation_source c = s)
  ∧ head sources = citation_source <$> head cites.
Proof.
  intros Hrun.
  destruct (handle_cases context request req w)
    as [[H _]|[(e & w0 & H)|(b & q & a & ranked & w0 & _ & _ & _ & Hlen & _ & H)]];
    rewrite H in Hrun; try done.
  injection Hrun as <- <- <- <- <-.
  assert (map citation_source (citations ranked)
          = map (λ c, source (chunk c)) ranked) as Hs
    by (unfold citations; by rewrite map_map).
  rewrite <- Hs.
  split; [done|]. split; [by unfold citations; rewrite length_map|].
  split.
  { unfold citations. apply Forall_fmap, Forall_forall. intros s _.
    unfold compose. cbn [citation citation_text].
    unfold substring0, previewLength. rewrite length_app, length_take.
    change (length ellipsis) with 3. lia. }
  split; [done|]. split; [apply NoDup_distinct|]. split.
  - intros s. rewrite elem_of_distinct, list_elem_of_fmap.
    split; intros (c & ? & ?); by exists c.
  - destruct (citations ranked) as [|c cs]; [done|].
    cbn [map]. by rewrite distinct_cons.
Qed.

(** Whatever the embedding service does: when the directory and its
    text and Markdown files can be read, a valid question gets its
    chunks, its embedding and its ranking; and when the generation
    service answers the request made of them, its next call, with a
    completion that has a choice, the response has status 200 and the
    content of the first choice as its answer, with the citations and
    the sources of the ranked chunks. *)
Theorem POST_answers body question w names contents :
  reachable w →
  destructureQuestion body w = (Normal (JsString question), w) →
  truthy question = true →
  readdir (env w) = Normal names →
  Forall2 (holdsContent (env w)) (List.filter isKnowledgeFile names) contents →
  ∃ arr w1 qe w2 ranked,
    getEmbeddings w = (Normal arr, w1)
    ∧ embedQuestion question w1 = (Normal qe, w2)
    ∧ rank qe arr w2 = (Normal ranked, w2)
    ∧ ∀ c rest,
        chatService (env w) (chatCalls w) (request (context ranked) question)
        = Normal {| OpenAI.choices := c :: rest |} →
        ∃ w',
          handle context request (Normal body) w
          = (Normal (mkResponse
                       (AnswerBody (OpenAI.message_content c)
                          (citations ranked)
                          (distinct (map (λ c, source (chunk c)) ranked)))
                       200), w').
Proof.
  intros Hw Hq Ht Hd Hall.
  destruct (getEmbeddings_readable w names contents Hd Hall)
    as (arr & w1 & Hget).
  destruct (run_handle_reachable context request body question w arr w1
              Hw Hq Ht Hget) as (qe & w2 & ranked & Hqe & Hrank & _ & Hrun).
  exists arr, w1, qe, w2, ranked. do 3 (split; [done|]).
  intros c rest Hc. cbn zeta in Hrun. rewrite Hc in Hrun.
  cbn [OpenAI.choices] in Hrun. eauto.
Qed.

(** After an answer, the snapshot holds the chunks the answer was drawn
    from: a call of [getEmbeddings] that finds it less than an hour old
    returns them and reads no file and calls no service. *)
Theorem POST_then_cached req w resp w' :
  handle context request req w = (Normal resp, w') →
  status resp = 200 →
  ∃ arr stamp,
    (getEmbeddings w).1 = Normal arr
    ∧ cachedData w' = Some (mkCachedEmbeddings arr stamp)
    ∧ ∀ w2,
        cachedData w2 = cachedData w' →
        (clock (env w2) (clockReads w2) - stamp < 3600000)%Z →
        ∃ w3,
          getEmbeddings w2 = (Normal arr, w3)
          ∧ cachedData w3 = cachedData w'
          ∧ trace w3 = trace w2 ++ [EvDateNow; EvConsole LogCacheHit].
Proof.
  intros Hrun Hst.
  destruct (handle_cases context request req w)
    as [[H _]|[(e & w0 & H)
             |(b & q & a & ranked & w0 & _ & _ & _ & _ & (arr & w1 & Hget & Hc) & H)]];
    rewrite H in Hrun; injection Hrun as <- <-; try done.
  destruct (getEmbeddings_snapshot w arr w1 Hget) as [stamp Hs].
  exists arr, stamp. split; [by rewrite Hget|].
  split; [by rewrite Hc|].
  intros w2 H2 Hfresh. rewrite <- H2.
  apply (getEmbeddings_fresh w2 arr stamp); [by rewrite H2, Hc|done].
Qed.

(** When the generation service rejects the request of a valid
    question, its next call, the response is the 500 one with the error
    of the service, which is logged; the chunks that [getEmbeddings]
    built for the request stay in the snapshot. *)
Theorem POST_generation_failure body question w arr w1 :
  reachable w →
  destructureQuestion body w = (Normal (JsString question), w) →
  truthy question = true →
  getEmbeddings w = (Normal arr, w1) →
  ∃ qe w2 ranked,
    embedQuestion question w1 = (Normal qe, w2)
    ∧ rank qe arr w2 = (Normal ranked, w2)
    ∧ ∀ e,
        chatService (env w) (chatCalls w) (request (context ranked) question)
        = Throw e →
        ∃ w',
          handle context request (Normal body) w
          = (Normal (mkResponse (ErrorBody msgFailed (Some e)) 500), w')
          ∧ cachedData w' = cachedData w1
          ∧ last (trace w') = Some (EvConsole (ErrAnswer e)).
Proof.
  intros Hw Hq Ht Hget.
  destruct (run_handle_reachable context request body question w arr w1
              Hw Hq Ht Hget) as (qe & w2 & ranked & Hqe & Hrank & Hc2 & Hrun).
  exists qe, w2, ranked. do 2 (split; [done|]).
  intros e He. cbn zeta in Hrun. rewrite He in Hrun.
  eexists. split; [exact Hrun|]. split; [exact Hc2|].
  unfold emit; cbn [trace]. apply last_snoc.
Qed.

(** With no snapshot and a directory that cannot be listed, a valid
    question gets the 500 response with the error of the file system;
    no file is opened and no service is called. *)
Theorem POST_source_failure body question w e :
  destructureQuestion body w = (Normal (JsString question), w) →
  truthy question = true →
  cachedData w = None →
  readdir (env w) = Throw e →
  handle context request (Normal body) w
  = (Normal (mkResponse (ErrorBody msgFailed (Some e)) 500),
     logged [EvConsole LogLoading; EvReaddir; EvConsole (ErrAnswer e)] w).
Proof.
  intros Hq Ht Hc Hd.
  assert (getEmbeddings w
          = (Throw e, logged [EvConsole LogLoading; EvReaddir] w)) as Hget.
  { rewrite run_getEmbeddings, Hc. unfold rebuild.
    rewrite run_bind, run_console. cbn iota beta. rewrite run_bind.
    rewrite (loadAndChunkFiles_no_directory _ e) by exact Hd.
    by rewrite emit_logged, logged_logged. }
  unfold handle.
  rewrite (run_failed _ e w (logged [EvConsole LogLoading; EvReaddir] w)).
  - by rewrite emit_logged, logged_logged.
  - rewrite run_bind. cbn iota beta. rewrite run_bind, Hq. cbn iota beta.
    unfold validQuestion. rewrite Ht. by rewrite run_bind, Hget.
Qed.

End HandlerContract.

(** Four chunks with four scores against [1; 0]. *)
Lemma rank_keeps_best_witness :
  Forall embedded fourChunks
  ∧ ∃ ranked rest,
      rank [1; 0]%float fourChunks (startWorld sampleEnv)
      = (Normal ranked, startWorld sampleEnv)
      ∧ ranked ++ rest ≡ₚ scoreList [1; 0]%float fourChunks
      ∧ (Forall isNumber (scoreList [1; 0]%float fourChunks) →
         ∀ s t, s ∈ ranked → t ∈ rest → ranksNoLower s t).
Proof.
  assert (Forall embedded fourChunks) as H
    by (repeat constructor; eexists; reflexivity).
  split; [exact H|].
  exact (rank_keeps_best [1; 0]%float fourChunks (startWorld sampleEnv) H).
Defined.

(** A chunk that was never embedded. *)
Lemma rank_needs_embeddings_witness :
  rank [1; 0]%float [mkTextChunk (js "uno") (js "a.txt") None]
    (startWorld sampleEnv)
  = (Throw TypeError, startWorld sampleEnv).
Proof.
  apply (rank_needs_embeddings [1; 0]%float
           [mkTextChunk (js "uno") (js "a.txt") None] (startWorld sampleEnv)).
  apply Exists_cons_hd. reflexivity.
Defined.

(** Scenario A. *)
Lemma POST_answer_shape_witness :
  (Natural.POST (Normal sampleBody) (startWorld sampleEnv)).1
  = Normal (mkResponse
              (AnswerBody (Some (js "$999"))
                 [mkCitation (js "precio.txt") (js "Price: $999...") 1%float]
                 [js "precio.txt"])
              200)
  ∧ NoDup [js "precio.txt"].
Proof.
  assert (handle Natural.context Natural.request (Normal sampleBody)
            (startWorld sampleEnv)
          = (Normal (mkResponse
                       (AnswerBody (Some (js "$999"))
                          [mkCitation (js "precio.txt") (js "Price: $999...") 1%float]
                          [js "precio.txt"])
                       200),
             (Natural.POST (Normal sampleBody) (startWorld sampleEnv)).2)) as H
    by (vm_compute; reflexivity).
  split; [unfold Natural.POST; rewrite H; reflexivity|].
  exact (proj1 (proj2 (proj2 (proj2 (proj2
           (POST_answer_shape _ _ _ _ _ _ _ _ _ H)))))).
Defined.

(** Scenario A, and a call of [getEmbeddings] right after it. *)
Lemma POST_then_cached_witness :
  (Natural.POST (Normal sampleBody) (startWorld sampleEnv)).1
  = Normal (mkResponse
              (AnswerBody (Some (js "$999"))
                 [mkCitation (js "precio.txt") (js "Price: $999...") 1%float]
                 [js "precio.txt"])
              200)
  ∧ ∃ arr stamp,
      (getEmbeddings (startWorld sampleEnv)).1 = Normal arr
      ∧ cachedData (Natural.POST (Normal sampleBody) (startWorld sampleEnv)).2
        = Some (mkCachedEmbeddings arr stamp).
Proof.
  assert (handle Natural.context Natural.request (Normal sampleBody)
            (startWorld sampleEnv)
          = (Normal (mkResponse
                       (AnswerBody (Some (js "$999"))
                          [mkCitation (js "precio.txt") (js "Price: $999...") 1%float]
                          [js "precio.txt"])
                       200),
             (Natural.POST (Normal sampleBody) (startWorld sampleEnv)).2)) as H
    by (vm_compute; reflexivity).
  split; [unfold Natural.POST; rewrite H; reflexivity|].
  destruct (POST_then_cached Natural.context Natural.request _ _ _ _ H eq_refl)
    as (arr & stamp & Hget & Hc & _).
  exists arr, stamp. split; [exact Hget|exact Hc].
Defined.

(** Scenario A with a generation service that rejects every call. *)
Lemma POST_generation_failure_witness :
  reachable (startWorld silentEnv)
  ∧ getEmbeddings (startWorld silentEnv)
    = (Normal [sampleChunk], (getEmbeddings (startWorld silentEnv)).2)
  ∧ ∃ w',
      Natural.POST (Normal sampleBody) (startWorld silentEnv)
      = (Normal (mkResponse (ErrorBody msgFailed (Some (ServiceError 500))) 500), w')
      ∧ cachedData w' = cachedData (getEmbeddings (startWorld silentEnv)).2
      ∧ last (trace w') = Some (EvConsole (ErrAnswer (ServiceError 500))).
Proof.
  assert (reachable (startWorld silentEnv)) as H
    by (apply reachable_start; reflexivity).
  assert (getEmbeddings (startWorld silentEnv)
          = (Normal [sampleChunk], (getEmbeddings (startWorld silentEnv)).2))
    as Hget by (vm_compute; reflexivity).
  split; [exact H|]. split; [exact Hget|].
  destruct (POST_generation_failure Natural.context Natural.request sampleBody
              sampleQuestion (startWorld silentEnv) _ _ H eq_refl eq_refl Hget)
    as (qe & w2 & ranked & _ & _ & Hfail).
  exact (Hfail (ServiceError 500) eq_refl).
Defined.

(** Scenario A without the directory [data]. *)
Lemma POST_source_failure_witness :
  readdir (env (startWorld emptyEnv)) = Throw (FsError (js "data"))
  ∧ Labelled.POST (Normal sampleBody) (startWorld emptyEnv)
    = (Normal (mkResponse
                 (ErrorBody msgFailed (Some (FsError (js "data")))) 500),
       logged [EvConsole LogLoading; EvReaddir;
               EvConsole (ErrAnswer (FsError (js "data")))]
         (startWorld emptyEnv)).
Proof.
  split; [reflexivity|].
  apply (POST_source_failure Labelled.context Labelled.request sampleBody
           sampleQuestion (startWorld emptyEnv) (FsError (js "data")));
    reflexivity.
Defined.

(** Scenario A with an embedding service that rejects every call. *)
Lemma POST_answers_witness :
  reachable (startWorld failingEnv)
  ∧ Forall2 (holdsContent (env (startWorld failingEnv)))
      [js "precio.txt"] [js "Price: $999"]
  ∧ ∃ ranked w',
      Natural.POST (Normal sampleBody) (startWorld failingEnv)
      = (Normal (mkResponse
                   (AnswerBody (Some (js "$999")) (citations ranked)
                      (distinct (map (λ c, source (chunk c)) ranked)))
                   200), w').
Proof.
  assert (reachable (startWorld failingEnv)) as H
    by (apply reachable_start; reflexivity).
  assert (Forall2 (holdsContent (env (startWorld failingEnv)))
            [js "precio.txt"] [js "Price: $999"]) as Hall
    by (repeat constructor).
  split; [exact H|]. split; [exact Hall|].
  destruct (POST_answers Natural.context Natural.request sampleBody
              sampleQuestion (startWorld failingEnv)
              [js "precio.txt"] [js "Price: $999"] H eq_refl eq_refl eq_refl Hall)
    as (arr & w1 & qe & w2 & ranked & _ & _ & _ & Hans).
  destruct (Hans {| OpenAI.message_content := Some (js "$999") |} [] eq_refl)
    as [w' Hrun].
  exists ranked, w'. exact Hrun.
Defined.

(** ** The page and the route together *)

Section PageFacts.
Implicit Types (s : Page.State) (w : World)
  (fetch : JsBody → M NextResponse).

Lemma truthy_trim_blank (q : jsstring) : truthy (trim q) = false ↔ blank q.
Proof.
  unfold blank. rewrite <- trim_nil_iff. by destruct (trim q).
Qed.

Lemma truthy_not_blank (q : jsstring) : ¬ blank q → truthy q = true.
Proof.
  intros H. destruct q as [|c q]; [|done]. destruct H. constructor.
Qed.

(** A question of nothing but whitespace is not sent: the page sets its
    message and leaves the rest as it is, the answer shown before
    included; the world of the route is untouched. *)
Theorem handleSubmit_blank fetch s w :
  blank (Page.question s) →
  Page.handleSubmit fetch s w
  = (Normal (Page.setError Page.msgEmpty s), w).
Proof.
  intros Hb. unfold Page.handleSubmit.
  apply truthy_trim_blank in Hb. by rewrite Hb.
Qed.

(** A question that is not blank is sent as typed, in one request,
    whatever becomes of it: the route is left as that request leaves it,
    and the page is not loading any more when [handleSubmit] ends. When
    the request is rejected the page shows its own message. *)
Theorem handleSubmit_sends fetch s w :
  ¬ blank (Page.question s) →
  ∃ s',
    Page.handleSubmit fetch s w
    = (Normal s', (fetch (Page.requestBody (Page.question s)) w).2)
    ∧ Page.loading s' = false
    ∧ Page.question s' = Page.question s
    ∧ ∀ e, (fetch (Page.requestBody (Page.question s)) w).1 = Throw e →
           Page.response s' = None
           ∧ Page.error s' = Page.msgRetry
           ∧ Page.consoleErrors s'
             = Page.consoleErrors s ++ [Page.Rejected e].
Proof.
  intros Hb. unfold Page.handleSubmit.
  destruct (truthy (trim (Page.question s))) eqn:Et;
    [|by apply truthy_trim_blank in Et].
  cbn [negb]. rewrite run_bind, run_tryCatch, run_bind.
  cbn [Page.question Page.setResponse Page.setError Page.setLoading].
  destruct (fetch (Page.requestBody (Page.question s)) w) as [[res|e] w'];
    cbn iota beta.
  - destruct (Page.ok res); cbn [negb]; rewrite run_ret; cbn iota beta;
      by eexists.
  - eexists. split; [reflexivity|]. cbn. do 2 (split; [done|]).
    by intros ? [= <-].
Qed.

(** The page against the route (either copy): to a question that is
    not blank the route answers 200 or 500, never 400. On 200 the page
    ends with the body of that response as [res.json()] reads it, the
    answer with its at most three citations and its sources, and no
    message. On 500 it ends with no answer, its own retry message and
    one line in its console: nothing of the body of the route reaches
    the state of the page. In both cases it is not loading any more, and
    the world is as the route left it. *)
Theorem handleSubmit_against_route context request s w :
  ¬ blank (Page.question s) →
  ∃ resp w',
    handle context request
      (Normal (Page.requestBody (Page.question s))) w
    = (Normal resp, w')
    ∧ ((status resp = 200
        ∧ (∃ answer cites sources,
             body resp = AnswerBody answer cites sources
             ∧ length cites ≤ 3)
        ∧ Page.handleSubmit (Page.fetchFrom (handle context request)) s w
          = (Normal (Page.mkState (Page.question s)
                       (Some (Page.json (body resp))) false []
                       (Page.consoleErrors s)), w'))
       ∨ (status resp = 500
          ∧ (∃ e, body resp = ErrorBody msgFailed (Some e))
          ∧ Page.handleSubmit (Page.fetchFrom (handle context request)) s w
            = (Normal (Page.mkState (Page.question s) None false
                         Page.msgRetry
                         (Page.consoleErrors s ++ [Page.NotOk])), w'))).
Proof.
  intros Hb. unfold Page.handleSubmit.
  destruct (truthy (trim (Page.question s))) eqn:Et;
    [|by apply truthy_trim_blank in Et].
  cbn [negb]. rewrite run_bind, run_tryCatch, run_bind.
  cbn [Page.question Page.setResponse Page.setError Page.setLoading].
  unfold Page.fetchFrom at 1 2.
  destruct (handle_cases context request
              (Normal (Page.requestBody (Page.question s))) w)
    as [[_ (b & v & [= <-] & Hd & Hv)]
       |[(e & w' & ->)
        |(b & q & answer & ranked & w' & _ & _ & _ & Hlen & _ & ->)]].
  - injection Hd as <-. cbn in Hv.
    by rewrite (truthy_not_blank _ Hb) in Hv.
  - eexists _, _. split; [reflexivity|]. right. split; [done|].
    split; [by exists e|done].
  - eexists _, _. split; [reflexivity|]. left. split; [done|]. split.
    + eexists _, _, _. split; [reflexivity|].
      unfold citations. by rewrite length_map.
    + done.
Qed.

End PageFacts.

(** Three spaces typed into a page that shows an answer. *)
Lemma handleSubmit_blank_witness :
  blank (js "   ")
  ∧ Page.handleSubmit (Page.fetchFrom Natural.POST)
      (Page.mkState (js "   ") (Some (Page.AnswerData None [] [])) false [] [])
      (startWorld sampleEnv)
    = (Normal (Page.mkState (js "   ") (Some (Page.AnswerData None [] []))
                 false Page.msgEmpty []),
       startWorld sampleEnv).
Proof.
  assert (blank (js "   ")) as H by (repeat constructor).
  split; [exact H|].
  exact (handleSubmit_blank (Page.fetchFrom Natural.POST)
           (Page.mkState (js "   ") (Some (Page.AnswerData None [] [])) false [] [])
           (startWorld sampleEnv) H).
Defined.

(** The question of scenario A, with a request that is rejected. *)
Lemma handleSubmit_sends_witness :
  ¬ blank sampleQuestion
  ∧ ∃ s',
      Page.handleSubmit (λ _, throw TypeError)
        (Page.mkState sampleQuestion None false [] []) (startWorld sampleEnv)
      = (Normal s', startWorld sampleEnv)
      ∧ Page.loading s' = false.
Proof.
  assert (¬ blank sampleQuestion) as H.
  { intros Hb. apply Forall_cons in Hb as [Hb _]. vm_compute in Hb.
    discriminate. }
  split; [exact H|].
  destruct (handleSubmit_sends (λ _, throw TypeError)
              (Page.mkState sampleQuestion None false [] [])
              (startWorld sampleEnv) H) as (s' & Hrun & Hl & _).
  exists s'. split; [exact Hrun|exact Hl].
Defined.

(** The question of scenario A, typed into a fresh page. *)
Lemma handleSubmit_against_route_witness :
  ¬ blank sampleQuestion
  ∧ Page.handleSubmit (Page.fetchFrom Natural.POST)
      (Page.mkState sampleQuestion None false [] []) (startWorld sampleEnv)
    = (Normal (Page.mkState sampleQuestion
                 (Some (Page.AnswerData (Some (js "$999"))
                          [ {| Page.source := js "precio.txt";
                               Page.text := js "Price: $999...";
                               Page.relevance := Some 1%float |} ]
                          [js "precio.txt"]))
                 false [] []),
       (Natural.POST (Normal sampleBody) (startWorld sampleEnv)).2).
Proof.
  assert (¬ blank sampleQuestion) as H.
  { intros Hb. apply Forall_cons in Hb as [Hb _]. vm_compute in Hb.
    discriminate. }
  split; [exact H|].
  assert (handle Natural.context Natural.request
            (Normal (Page.requestBody sampleQuestion)) (startWorld sampleEnv)
          = (Normal (mkResponse
                       (AnswerBody (Some (js "$999"))
                          [mkCitation (js "precio.txt") (js "Price: $999...") 1%float]
                          [js "precio.txt"])
                       200),
             (Natural.POST (Normal sampleBody) (startWorld sampleEnv)).2)) as Hr
    by (vm_compute; reflexivity).
  destruct (handleSubmit_against_route Natural.context Natural.request
              (Page.mkState sampleQuestion None false [] [])
              (startWorld sampleEnv) H)
    as (resp & w' & Hrun & [(_ & _ & Hpage)|(Hst & _ & _)]);
    cbn [Page.question] in Hrun; rewrite Hr in Hrun;
    injection Hrun as <- <-.
  - exact Hpage.
  - discriminate Hst.
Defined.
